(** * Mython: the indentation-aware lexer and the tree-walking executor

    A shallow embedding of [src/mython/lexer.cpp], [src/mython/runtime.cpp]
    and [src/mython/statement.cpp], followed by the properties of the
    specification that are stated about them.

    Conventions of the embedding.
    - A [std::istream] is the list of bytes that are still to be read:
      [get()] removes the first byte, [peek()] looks at it and [putback(c)]
      pushes [c] in front.
    - An [int] is a [Z]; where the C++ arithmetic can leave the range of a
      32-bit [int] the wrap-around is written out ([wrap_int]).
    - A C++ exception is a constructor of the result type, carrying the
      [what()] text for [std::runtime_error] and [LexerError].
    - Recursion that is not structural (the lexer re-entering [NextToken],
      the executor calling method bodies) is bounded by a [fuel] argument;
      running out of fuel is a result of its own, never confused with an
      error of the program. *)

From Stdlib Require Import ZArith Ascii String List Lia.
From stdpp Require Import base option list strings gmap pretty.

#[local] Set Warnings "-register-all".

(** ** Tokens *)

(** Modelled from the spec: the token variants of [lexer.h] (section 3.1),
    which is not among the sources.  The names are those [lexer.cpp] uses
    in [operator<<]. *)
Module token_type.
Inductive Token : Type :=
| Number (value : Z)
| Id (value : string)
| Char (value : ascii)
| String (value : string)
| Class | Return | If | Else | Def | Newline | Print | Indent | Dedent
| And | Or | Not | Eq | NotEq | LessOrEq | GreaterOrEq
| None | True | False | Eof.
End token_type.

Abbreviation Token := token_type.Token.

#[global] Instance Token_eq_dec : EqDecision Token.
Proof. solve_decision. Defined.

(** Modelled from the spec: [token.index()], the place of the token's type
    in the variant of [lexer.h]; here in the order [operator<<] goes through
    the types.  [operator==] only asks whether two indices are the same. *)
Definition index (t : Token) : nat :=
  match t with
  | token_type.Number _ => 0 | token_type.Id _ => 1 | token_type.String _ => 2
  | token_type.Char _ => 3 | token_type.Class => 4 | token_type.Return => 5
  | token_type.If => 6 | token_type.Else => 7 | token_type.Def => 8
  | token_type.Newline => 9 | token_type.Print => 10 | token_type.Indent => 11
  | token_type.Dedent => 12 | token_type.And => 13 | token_type.Or => 14
  | token_type.Not => 15 | token_type.Eq => 16 | token_type.NotEq => 17
  | token_type.LessOrEq => 18 | token_type.GreaterOrEq => 19 | token_type.None => 20
  | token_type.True => 21 | token_type.False => 22 | token_type.Eof => 23
  end.

(** [operator==(const Token&, const Token&)]: different types are unequal;
    the four types with a value compare it; the others have none. *)
Definition Token_equal (lhs rhs : Token) : bool :=
  if negb (index lhs =? index rhs)%nat then false
  else
    match lhs, rhs with
    | token_type.Char l, token_type.Char r => Ascii.eqb l r
    | token_type.Number l, token_type.Number r => (l =? r)%Z
    | token_type.String l, token_type.String r => String.eqb l r
    | token_type.Id l, token_type.Id r => String.eqb l r
    | _, _ => true
    end.

(** [operator!=(const Token&, const Token&)]. *)
Definition Token_not_equal (lhs rhs : Token) : bool := negb (Token_equal lhs rhs).

(** [operator<<(std::ostream&, const Token&)]: the text written to the
    stream.  A type with a value is written as its name and the value in
    braces, an [int] in decimal; every other type as its name.  (The last
    line of the source, for a token of no known type, is never reached.) *)
Definition Token_print (rhs : Token) : string :=
  match rhs with
  | token_type.Number value => "Number" +:+ "{" +:+ pretty value +:+ "}"
  | token_type.Id value => "Id" +:+ "{" +:+ value +:+ "}"
  | token_type.String value => "String" +:+ "{" +:+ value +:+ "}"
  | token_type.Char value => "Char" +:+ "{" +:+ String value EmptyString +:+ "}"
  | token_type.Class => "Class"
  | token_type.Return => "Return"
  | token_type.If => "If"
  | token_type.Else => "Else"
  | token_type.Def => "Def"
  | token_type.Newline => "Newline"
  | token_type.Print => "Print"
  | token_type.Indent => "Indent"
  | token_type.Dedent => "Dedent"
  | token_type.And => "And"
  | token_type.Or => "Or"
  | token_type.Not => "Not"
  | token_type.Eq => "Eq"
  | token_type.NotEq => "NotEq"
  | token_type.LessOrEq => "LessOrEq"
  | token_type.GreaterOrEq => "GreaterOrEq"
  | token_type.None => "None"
  | token_type.True => "True"
  | token_type.False => "False"
  | token_type.Eof => "Eof"
  end.

(** [token.Is<T>()] for a token type [T] without a payload. *)
Definition Is (T t : Token) : bool := bool_decide (t = T).

(** ** Bytes and streams *)

Definition istream : Type := list ascii.

Definition LF : ascii := "010"%char.
Definition SPACE : ascii := " "%char.
Definition QUOT : ascii := "034"%char.
Definition APOS : ascii := "039"%char.
Definition BACKSLASH : ascii := "092"%char.
Definition UNDERSCORE : ascii := "_"%char.
Definition HASH : ascii := "#"%char.

Definition is_char (c d : ascii) : bool := Ascii.eqb c d.
Arguments is_char : simpl never.

(** [<cctype>] in the "C" locale. *)
Definition isdigit (c : ascii) : bool :=
  let n := nat_of_ascii c in (48 <=? n)%nat && (n <=? 57)%nat.

Definition isalpha (c : ascii) : bool :=
  let n := nat_of_ascii c in
  ((65 <=? n)%nat && (n <=? 90)%nat) || ((97 <=? n)%nat && (n <=? 122)%nat).

Definition isalnum (c : ascii) : bool := isalpha c || isdigit c.

(** [input.peek() == c]: false at the end of the stream. *)
Definition peek_is (c : ascii) (input : istream) : bool :=
  match input with
  | d :: _ => is_char c d
  | [] => false
  end.

(** [char c = input_.peek(); c == -1]: true at the end of the stream, and
    also for the byte 255, which is [-1] as a (signed) [char]. *)
Definition peek_is_eof (input : istream) : bool :=
  match input with
  | [] => true
  | c :: _ => (nat_of_ascii c =? 255)%nat
  end.

(** [while (p(input.peek())) s.push_back(input.get());]: the bytes read and
    the rest of the stream. *)
Fixpoint read_while (p : ascii → bool) (input : istream) : list ascii * istream :=
  match input with
  | c :: rest =>
      if p c then let '(s, r) := read_while p rest in (c :: s, r)
      else ([], input)
  | [] => ([], [])
  end.

(** [getline(input, s)]: drops the bytes up to and including the first
    line feed (or up to the end of the stream). *)
Fixpoint getline (input : istream) : istream :=
  match input with
  | c :: rest => if is_char LF c then rest else getline rest
  | [] => []
  end.

(** ** The result of a lexer call *)

Definition INT_MAX : Z := 2147483647.
Definition INT_MIN : Z := -2147483648.

Inductive Lex (A : Type) : Type :=
| Lexed (a : A)
| LexerError (what : string)
| OutOfRange          (* [std::out_of_range], thrown by [std::stoi] *)
| Hang                (* a loop of the source that never ends *)
| LexOutOfFuel.
Arguments Lexed {A} a.
Arguments LexerError {A} what.
Arguments OutOfRange {A}.
Arguments Hang {A}.
Arguments LexOutOfFuel {A}.

(** ** The lexer state *)

(** Modelled from the spec: the members of [class Lexer] ([lexer.h] is not
    among the sources).  Section 4.1: "The lexer's state is (input cursor,
    depth counter, equal-depth flag, previous token)". *)
Record Lexer : Type := mkLexer {
  input_ : istream;
  token_ : Token;
  indent_count_ : Z;
  indent_equal_ : bool
}.

Definition set_input (lx : Lexer) (i : istream) : Lexer :=
  mkLexer i (token_ lx) (indent_count_ lx) (indent_equal_ lx).
Definition set_token (lx : Lexer) (t : Token) : Lexer :=
  mkLexer (input_ lx) t (indent_count_ lx) (indent_equal_ lx).
Definition set_indent_count (lx : Lexer) (n : Z) : Lexer :=
  mkLexer (input_ lx) (token_ lx) n (indent_equal_ lx).
Definition set_indent_equal (lx : Lexer) (b : bool) : Lexer :=
  mkLexer (input_ lx) (token_ lx) (indent_count_ lx) b.

Definition LexResult : Type := Lex (Token * Lexer).

(** ** [struct Lexer::Helper] *)

Module Helper.

(** The second half of [Helper::Id]: the run of [_] and alphanumeric bytes,
    then the [switch] on its first byte. *)
Definition Id_lexeme (lx : Lexer) : Token * Lexer :=
  let c := head (input_ lx) in
  let '(run, rest) := read_while (λ x, is_char UNDERSCORE x || isalnum x) (input_ lx) in
  let s := string_of_list_ascii run in
  let lx := set_input lx rest in
  let kw (word : string) (t : Token) : Token :=
    if String.eqb s word then t else token_type.Id s in
  match c with
  | Some "_"%char => (token_type.Id s, lx)
  | Some "c"%char => (kw "class" token_type.Class, lx)
  | Some "r"%char => (kw "return" token_type.Return, lx)
  | Some "i"%char => (kw "if" token_type.If, lx)
  | Some "e"%char => (kw "else" token_type.Else, lx)
  | Some "d"%char => (kw "def" token_type.Def, lx)
  | Some "p"%char => (kw "print" token_type.Print, lx)
  | Some "a"%char => (kw "and" token_type.And, lx)
  | Some "o"%char => (kw "or" token_type.Or, lx)
  | Some "n"%char => (kw "not" token_type.Not, lx)
  | Some "N"%char => (kw "None" token_type.None, lx)
  | Some "T"%char => (kw "True" token_type.True, lx)
  | Some "F"%char => (kw "False" token_type.False, lx)
  | _ => (token_type.Id s, lx)
  end.

(** [Helper::Id]: the equal-depth flag is cleared, or, after a Newline or a
    Dedent and with a counter that is not zero, a Dedent is returned and
    nothing is read ("multi Dedent"); otherwise the identifier or keyword. *)
Definition Id (lx : Lexer) : Token * Lexer :=
  if indent_equal_ lx then Id_lexeme (set_indent_equal lx false)
  else if (Is token_type.Newline (token_ lx) || Is token_type.Dedent (token_ lx))
          && negb (indent_count_ lx =? 0)%Z
  then (token_type.Dedent, set_indent_count lx (indent_count_ lx - 1))
  else Id_lexeme lx.

(** The value [std::stoi] reads off a run of decimal digits. *)
Definition digits_value (ds : list ascii) : Z :=
  fold_left (λ acc d, 10 * acc + (Z.of_nat (nat_of_ascii d) - 48))%Z ds 0%Z.

(** [Helper::Number]. *)
Definition Number (input : istream) : Lex (Token * istream) :=
  let '(ds, rest) := read_while isdigit input in
  let v := digits_value ds in
  if (v <=? INT_MAX)%Z then Lexed (token_type.Number v, rest) else OutOfRange.

(** The loop of [Helper::String] after the opening quote [quot]; [s] is the
    text read so far, in reverse.  At the end of the stream [input.get()]
    keeps returning [EOF], which is never the quote: the loop does not end. *)
Fixpoint String_loop (quot : ascii) (input : istream) (s : list ascii)
  : Lex (Token * istream) :=
  match input with
  | [] => Hang
  | c :: rest =>
      if is_char quot c then Lexed (token_type.String (string_of_list_ascii (rev s)), rest)
      else if is_char BACKSLASH c then
        match rest with
        | [] => LexerError ("Unrecognized escape sequence \" +:+ String "255"%char EmptyString)
        | e :: rest' =>
            if is_char "n"%char e then String_loop quot rest' (LF :: s)
            else if is_char "t"%char e then String_loop quot rest' ("009"%char :: s)
            else if is_char "r"%char e then String_loop quot rest' ("013"%char :: s)
            else if is_char QUOT e then String_loop quot rest' (QUOT :: s)
            else if is_char APOS e then String_loop quot rest' (APOS :: s)
            else if is_char BACKSLASH e then String_loop quot rest' (BACKSLASH :: s)
            else LexerError ("Unrecognized escape sequence \" +:+ String e EmptyString)
        end
      else String_loop quot rest (c :: s)
  end.

(** [Helper::String]; it is entered with a quote as the next byte. *)
Definition String (input : istream) : Lex (Token * istream) :=
  match input with
  | quot :: rest => String_loop quot rest []
  | [] => Hang
  end.

(** [Helper::Indent].  The spaces are read and counted; on the paths that
    return a token they are all put back, so the stream is as it was.
    (When the spaces end the stream, whether [putback] succeeds depends on
    the state the two [peek] calls left the stream in; here it does.  A
    stream on which it fails stays at its end: the tokens that follow are
    those of [NextToken] at the end of the input.) *)
Definition Indent (NextToken : Lexer → LexResult) (lx : Lexer) : LexResult :=
  let lx := set_indent_equal lx false in
  let '(spaces, rest) := read_while (is_char SPACE) (input_ lx) in
  let space_count := Z.of_nat (length spaces) in
  if peek_is LF rest then NextToken (set_input lx rest)
  else if negb (Z.rem space_count 2 =? 0)%Z then LexerError "Indent(): odd spaces"
  else
    let space_pair := Z.shiftr space_count 1 in
    if (space_pair =? indent_count_ lx)%Z then
      NextToken (set_indent_equal (set_input lx rest) true)
    else if negb (space_pair =? 0)%Z && Is token_type.Indent (token_ lx) then
      Lexed (token_type.Indent, set_indent_count lx (indent_count_ lx + 1))
    else if negb (space_pair =? 0)%Z && Is token_type.Dedent (token_ lx) then
      Lexed (token_type.Dedent, set_indent_count lx (indent_count_ lx - 1))
    else if (indent_count_ lx <? space_pair)%Z then
      Lexed (token_type.Indent, set_indent_count lx (indent_count_ lx + 1))
    else
      Lexed (token_type.Dedent, set_indent_count lx (indent_count_ lx - 1)).

(** [Helper::Operation]: entered with one of [= ! > <] as the next byte.  A
    second byte that is not [=] is put back. *)
Definition Operation (input : istream) : Lex (Token * istream) :=
  let two (c : ascii) (t : Token) (rest : istream) : Lex (Token * istream) :=
    match rest with
    | c2 :: rest' => if is_char "="%char c2 then Lexed (t, rest')
                     else Lexed (token_type.Char c, rest)
    | [] => Lexed (token_type.Char c, rest)
    end in
  match input with
  | c :: rest =>
      if is_char "="%char c then two c token_type.Eq rest
      else if is_char "!"%char c then
        match rest with
        | c2 :: rest' => if is_char "="%char c2 then Lexed (token_type.NotEq, rest')
                         else LexerError "Operation(): '!?'"
        | [] => LexerError "Operation(): '!?'"
        end
      else if is_char ">"%char c then two c token_type.GreaterOrEq rest
      else if is_char "<"%char c then two c token_type.LessOrEq rest
      else Lexed (token_type.Eof, rest)
  | [] => Lexed (token_type.Eof, [])
  end.

(** [Helper::Space]: after a Newline, an Indent or a Dedent the spaces are
    indentation; elsewhere they are skipped. *)
Definition Space (NextToken : Lexer → LexResult) (lx : Lexer) : LexResult :=
  if Is token_type.Newline (token_ lx) || Is token_type.Indent (token_ lx)
     || Is token_type.Dedent (token_ lx)
  then Indent NextToken lx
  else NextToken (set_input lx (snd (read_while (is_char SPACE) (input_ lx)))).

(** [Helper::Comment]: entered after the [#]; the rest of the line is
    dropped and a line feed is put back.  (When the comment ends the
    stream without a line feed, whether [putback] succeeds depends on the
    stream; here it does.) *)
Definition Comment (NextToken : Lexer → LexResult) (lx : Lexer) : LexResult :=
  NextToken (set_input lx (LF :: getline (input_ lx))).

Definition in_stream (lx : Lexer) (r : Lex (Token * istream)) : LexResult :=
  match r with
  | Lexed (t, rest) => Lexed (t, set_input lx rest)
  | LexerError what => LexerError what
  | OutOfRange => OutOfRange
  | Hang => Hang
  | LexOutOfFuel => LexOutOfFuel
  end.

(** [Helper::Char]: every byte that is no letter, digit or quote. *)
Definition Char (NextToken : Lexer → LexResult) (lx : Lexer) : LexResult :=
  match input_ lx with
  | [] => Lexed (token_type.Eof, lx)
  | c :: rest =>
      let lx' := set_input lx rest in
      if is_char LF c then
        if Is token_type.Eof (token_ lx) || Is token_type.Newline (token_ lx)
        then NextToken lx'
        else Lexed (token_type.Newline, lx')
      else if is_char "+"%char c || is_char "-"%char c || is_char "*"%char c
              || is_char "/"%char c || is_char "."%char c || is_char ","%char c
              || is_char ":"%char c || is_char "("%char c || is_char ")"%char c
      then Lexed (token_type.Char c, lx')
      else if is_char "="%char c || is_char "!"%char c || is_char ">"%char c
              || is_char "<"%char c
      then in_stream lx (Operation (input_ lx))
      else if is_char SPACE c then Space NextToken lx
      else if is_char HASH c then Comment NextToken lx'
      else if is_char UNDERSCORE c then Lexed (Id lx)
      else Lexed (token_type.Eof, lx')
  end.

End Helper.

(** ** [Lexer::NextToken] *)

(** [token_ = ...; return token_;] *)
Definition store_token (r : LexResult) : LexResult :=
  match r with
  | Lexed (t, lx') => Lexed (t, set_token lx' t)
  | other => other
  end.

(** The body of [Lexer::NextToken]; [NextToken] is the function itself, for
    the helpers that re-enter it. *)
Definition NextToken_body (NextToken : Lexer → LexResult) (lx : Lexer) : LexResult :=
  if peek_is_eof (input_ lx) then
    if negb (indent_count_ lx =? 0)%Z then
      Lexed (token_type.Dedent,
             set_token (set_indent_count lx (indent_count_ lx - 1)) token_type.Dedent)
    else if negb (Is token_type.Eof (token_ lx)) && negb (Is token_type.Dedent (token_ lx))
            && negb (Is token_type.Newline (token_ lx))
    then Lexed (token_type.Newline, set_token lx token_type.Newline)
    else Lexed (token_type.Eof, set_token lx token_type.Eof)
  else
    match input_ lx with
    | [] => Lexed (token_type.Eof, set_token lx token_type.Eof)
    | c :: _ =>
        if isalpha c then store_token (Lexed (Helper.Id lx))
        else if isdigit c then store_token (Helper.in_stream lx (Helper.Number (input_ lx)))
        else if is_char QUOT c || is_char APOS c
        then store_token (Helper.in_stream lx (Helper.String (input_ lx)))
        else store_token (Helper.Char NextToken lx)
    end.

Fixpoint NextToken_fuel (fuel : nat) (lx : Lexer) : LexResult :=
  match fuel with
  | O => LexOutOfFuel
  | S fuel' => NextToken_body (NextToken_fuel fuel') lx
  end.

(** Every re-entry of [NextToken] happens after at least one byte was
    dropped from the stream, except behind a [#] that ends the stream, where
    the line feed put back takes its place: twice the length of the stream
    and two more calls are always enough (lemma [NextToken_fuel_enough]). *)
Definition enough_fuel (lx : Lexer) : nat := 2 * length (input_ lx) + 2.

Definition NextToken (lx : Lexer) : LexResult := NextToken_fuel (enough_fuel lx) lx.

(** Modelled from the spec: the member initialisers of [class Lexer]
    ([lexer.h]): depth zero, flag clear, and the Eof sentinel as the token
    before the first ("previous token is Eof-sentinel", section 4.1). *)
Definition Lexer_start (input : istream) : Lexer :=
  mkLexer input token_type.Eof 0 false.

(** [Lexer::Lexer]: the constructor reads the first token. *)
Definition Lexer_new (input : istream) : LexResult := NextToken (Lexer_start input).

(** The first [n] tokens of [input]: the one the constructor reads and the
    following [NextToken] calls, with the lexer after each of them; [None]
    when a call throws. *)
Fixpoint tokens_from (n : nat) (lx : Lexer) : option (list (Token * Lexer)) :=
  match n with
  | O => Some []
  | S n' =>
      match NextToken lx with
      | Lexed (t, lx') => option_map (cons (t, lx')) (tokens_from n' lx')
      | _ => None
      end
  end.

Definition tokens (n : nat) (input : string) : option (list Token) :=
  option_map (map fst) (tokens_from n (Lexer_start (list_ascii_of_string input))).

(** ** Values, holders and environments *)

(** Modelled from the spec: [runtime.h] is not among the sources.  Section
    3.2: a holder is empty or references a live value, and copying a holder
    shares the value.  Every value lives in a store (the [heap] of [State]
    below) at an address; a holder is [None] (empty) or the address.  The
    store never frees, so an owning holder ([ObjectHolder::Own]) and a
    non-owning one ([ObjectHolder::Share]) are the same address.  In the
    C++ an object is destroyed with its last owning holder; that an object
    of the store is still there says nothing about the C++ object, and
    where [statement.cpp] goes on with a plain pointer to an object whose
    owners may be gone ([MethodCall::Execute] on a receiver that is a
    temporary, [FieldAssignment::Execute] and [MethodCall::Execute] when the
    right-hand side or the arguments release the receiver) the C++ has no
    defined behaviour, while the store still answers.  The properties of
    these two nodes are therefore stated for receivers that keep an
    owner. *)
Abbreviation addr := nat.
Abbreviation ObjectHolder := (option addr).

(** [using Closure = std::unordered_map<std::string, ObjectHolder>]. *)
Abbreviation Closure := (gmap string ObjectHolder).

(** ** The syntax tree *)

(** Modelled from the spec: the node classes of [statement.h] (section 3.4),
    with the members their [Execute] in [statement.cpp] reads.  A reference
    to a [runtime::Class] is the address of the class in the store. *)
Module ast.

(** [Comparison::cmp_] is a [std::function]; the comparison functions of
    [runtime.cpp] are the six it is built from. *)
Inductive Comparator : Type :=
| CmpEqual | CmpNotEqual | CmpLess | CmpGreater | CmpLessOrEqual | CmpGreaterOrEqual.

Record VariableValue : Type := mkVariableValue {
  var_name_ : string;
  dotted_ids_ : list string
}.

Inductive Statement : Type :=
| Assignment (name_ : string) (value_ : Statement)
| VarValue (v : VariableValue)
| Print (args_ : list Statement)
| MethodCall (object_ : Statement) (method_ : string) (args_ : list Statement)
| Stringify (argument_ : Statement)
| Add (lhs_ rhs_ : Statement)
| Sub (lhs_ rhs_ : Statement)
| Mult (lhs_ rhs_ : Statement)
| Div (lhs_ rhs_ : Statement)
| Compound (stmts_ : list Statement)
| Return (statement_ : Statement)
| ClassDefinition (cls_ : ObjectHolder)
| FieldAssignment (object_ : VariableValue) (name_ : string) (value_ : Statement)
| IfElse (condition_ if_body_ : Statement) (else_body_ : option Statement)
| Or (lhs_ rhs_ : Statement)
| And (lhs_ rhs_ : Statement)
| Not (argument_ : Statement)
| Comparison (cmp_ : Comparator) (lhs_ rhs_ : Statement)
| NewInstance (class_ : addr) (args_ : list Statement)
| MethodBody (body_ : Statement).

(** [VariableValue(const std::string&)] and
    [VariableValue(std::vector<std::string>)]. *)
Definition Var (var_name : string) : Statement := VarValue (mkVariableValue var_name []).
Definition Dotted (dotted_ids : list string) : Statement :=
  VarValue (mkVariableValue "" dotted_ids).

End ast.

(** ** The runtime ([runtime.cpp]) *)

Module runtime.

(** Modelled from the spec: [struct Method] and the classes of objects of
    [runtime.h] (section 3.2), with the members [runtime.cpp] reads.  A
    pointer to a class is its address in the store. *)
Record Method : Type := mkMethod {
  name : string;
  formal_params : list string;
  body : ast.Statement
}.

Inductive Object : Type :=
| Number (value : Z)
| String (value : string)
| Bool (value : bool)
| Class (name_ : string) (methods_ : list Method) (parent_ : option addr)
| ClassInstance (cls_ : addr) (closure_ : Closure).

(** The store of objects, and the output stream of the [Context]. *)
Record State : Type := mkState {
  heap : list Object;
  output : string
}.

(** How a call ends: it returns, it throws [std::runtime_error(what)], it
    dereferences a null pointer (or divides [INT_MIN] by [-1]), for which
    C++ defines no behaviour, or the fuel of the embedding is used up. *)
Inductive Outcome (A : Type) : Type :=
| Ret (a : A)
| Throw (what : string)
| Undefined
| OutOfFuel.
Arguments Ret {A} a.
Arguments Throw {A} what.
Arguments Undefined {A}.
Arguments OutOfFuel {A}.

(** The outcome of a call that did not return, at another type. *)
Definition pass {A B : Type} (r : Outcome A) : Outcome B :=
  match r with
  | Ret _ => Undefined
  | Throw what => Throw what
  | Undefined => Undefined
  | OutOfFuel => OutOfFuel
  end.

(** [holder.Get()]. *)
Definition Get (h : ObjectHolder) (st : State) : option Object :=
  match h with
  | Some a => heap st !! a
  | None => None
  end.

(** [ObjectHolder::Own(object)]: a new object, at a new address. *)
Definition Own (o : Object) (st : State) : ObjectHolder * State :=
  (Some (length (heap st)), mkState (heap st ++ [o]) (output st)).

(** [holder.TryAs<T>()]: the value for the immutable kinds, the address for
    an instance; [None] is the null pointer. *)
Definition TryAs_Number (h : ObjectHolder) (st : State) : option Z :=
  match Get h st with Some (Number v) => Some v | _ => None end.
Definition TryAs_String (h : ObjectHolder) (st : State) : option string :=
  match Get h st with Some (String v) => Some v | _ => None end.
Definition TryAs_Bool (h : ObjectHolder) (st : State) : option bool :=
  match Get h st with Some (Bool v) => Some v | _ => None end.
Definition TryAs_Class (h : ObjectHolder) (st : State) : option addr :=
  match h, Get h st with Some a, Some (Class _ _ _) => Some a | _, _ => None end.
Definition TryAs_ClassInstance (h : ObjectHolder) (st : State) : option addr :=
  match h, Get h st with Some a, Some (ClassInstance _ _) => Some a | _, _ => None end.

(** [instance.Fields()]. *)
Definition Fields (self : addr) (st : State) : Closure :=
  match heap st !! self with
  | Some (ClassInstance _ closure) => closure
  | _ => ∅
  end.

(** [IsTrue]. *)
Definition IsTrue (object : ObjectHolder) (st : State) : bool :=
  match Get object st with
  | Some (Bool v) => v
  | Some (Number v) => negb (v =? 0)%Z
  | Some (String v) => negb (String.eqb v "")
  | _ => false
  end.

(** [Class::GetMethod]: the class's own methods in order, then the parent's.
    A parent is constructed before its child ([Class::Class] takes a pointer
    to it), so a chain of parents is shorter than the store; [depth] bounds
    the walk. *)
Fixpoint GetMethod_depth (depth : nat) (hp : list Object) (cls : addr) (method : string)
  : option Method :=
  match hp !! cls with
  | Some (Class _ methods parent) =>
      match find (λ m, String.eqb method (name m)) methods with
      | Some m => Some m
      | None =>
          match parent, depth with
          | Some p, S depth' => GetMethod_depth depth' hp p method
          | _, _ => None
          end
      end
  | _ => None
  end.

Definition GetMethod (st : State) (cls : addr) (method : string) : option Method :=
  GetMethod_depth (length (heap st)) (heap st) cls method.

(** [Class::GetName]. *)
Definition GetName (st : State) (cls : addr) : option string :=
  match heap st !! cls with
  | Some (Class n _ _) => Some n
  | _ => None
  end.

(** [ClassInstance::HasMethod], for the instance at [self]. *)
Definition HasMethod (st : State) (self : addr) (method : string) (argument_count : nat)
  : bool :=
  match heap st !! self with
  | Some (ClassInstance cls _) =>
      match GetMethod st cls method with
      | Some m => (length (formal_params m) =? argument_count)%nat
      | None => false
      end
  | _ => false
  end.

(** The loop of [ClassInstance::Call] over the arguments:
    [unordered_map::insert] keeps an entry that is already there. *)
Fixpoint bind_params (formals : list string) (actuals : list ObjectHolder)
  (closure : Closure) : Closure :=
  match formals, actuals with
  | f :: formals', a :: actuals' =>
      bind_params formals' actuals'
        (match closure !! f with Some _ => closure | None => <[f := a]> closure end)
  | _, _ => closure
  end.

(** Where a [Print] writes: the stream of the context, or a
    [std::stringstream] of the caller with the text written so far. *)
Inductive ostream : Type :=
| ContextStream
| StringStream (text : string).

Definition write (os : ostream) (text : string) (st : State) : ostream * State :=
  match os with
  | ContextStream => (ContextStream, mkState (heap st) (output st +:+ text))
  | StringStream s => (StringStream (s +:+ text), st)
  end.

(** Modelled from the spec: [os << this] prints "an implementation-defined
    identity token"; here the address in decimal. *)
Definition pointer_text (a : addr) : string := pretty a.

(** [int] arithmetic: the result reduced to the 32-bit two's complement
    range. *)
Definition wrap_int (z : Z) : Z := ((z + 2147483648) mod 4294967296 - 2147483648)%Z.

Section WithExecute.

(** [Executable::Execute], for the bodies of methods. *)
Variable Execute : ast.Statement → Closure → State → Outcome ObjectHolder * Closure * State.

(** [ClassInstance::Call], for the instance at [self]. *)
Definition Call (self : addr) (method : string) (actual_args : list ObjectHolder)
  (st : State) : Outcome ObjectHolder * State :=
  if negb (HasMethod st self method (length actual_args)) then (Throw "Not implemented", st)
  else
    match heap st !! self with
    | Some (ClassInstance cls _) =>
        match GetMethod st cls method with
        | Some method_ =>
            let closure :=
              bind_params (formal_params method_) actual_args {[ "self" := Some self ]} in
            let '(r, _, st') := Execute (body method_) closure st in
            (r, st')
        | None => (Undefined, st)
        end
    | _ => (Undefined, st)
    end.

(** [Object::Print] of the object at [obj]: [Bool::Print], [Class::Print] and
    [ClassInstance::Print] of [runtime.cpp]; for a number and a string,
    modelled from the spec (section 4.2, "Printing values"), the decimal
    digits and the raw bytes. *)
Fixpoint Print (fuel : nat) (obj : addr) (os : ostream) (st : State)
  : Outcome ostream * State :=
  match fuel with
  | O => (OutOfFuel, st)
  | S fuel' =>
      let written (p : ostream * State) : Outcome ostream * State := (Ret (fst p), snd p) in
      match heap st !! obj with
      | Some (Number v) => written (write os (pretty v) st)
      | Some (String v) => written (write os v st)
      | Some (Bool v) => written (write os (if v then "True" else "False") st)
      | Some (Class n _ _) => written (write os ("Class " +:+ n) st)
      | Some (ClassInstance _ _) =>
          if HasMethod st obj "__str__" 0 then
            match Call obj "__str__" [] st with
            | (Ret (Some result), st') => Print fuel' result os st'
            | (Ret None, st') => written (write os "None" st')
            | (r, st') => (pass r, st')
            end
          else written (write os (pointer_text obj) st)
      | None => (Undefined, st)
      end
  end.

(** [Equal]. *)
Definition Equal (lhs rhs : ObjectHolder) (st : State) : Outcome bool * State :=
  match Get lhs st with
  | None =>
      match Get rhs st with
      | None => (Ret true, st)
      | Some _ => (Throw "Cannot compare objects for equality", st)
      end
  | Some (Bool l) =>
      match Get rhs st with
      | Some (Bool r) => (Ret (Bool.eqb l r), st)
      | _ => (Throw "Cannot compare objects for equality", st)
      end
  | Some (Number l) =>
      match Get rhs st with
      | Some (Number r) => (Ret (l =? r)%Z, st)
      | _ => (Throw "Cannot compare objects for equality", st)
      end
  | Some (String l) =>
      match Get rhs st with
      | Some (String r) => (Ret (String.eqb l r), st)
      | _ => (Throw "Cannot compare objects for equality", st)
      end
  | Some (ClassInstance _ _) =>
      match lhs with
      | Some self =>
          if HasMethod st self "__eq__" 1 then
            match Call self "__eq__" [rhs] st with
            | (Ret result, st') =>
                match TryAs_Bool result st' with
                | Some b => (Ret b, st')
                | None => (Undefined, st')
                end
            | (r, st') => (pass r, st')
            end
          else (Throw "Cannot compare objects for equality", st)
      | None => (Undefined, st)
      end
  | Some (Class _ _ _) => (Throw "Cannot compare objects for equality", st)
  end.

(** [operator<] of [std::string]: lexicographic, byte by byte. *)
Definition string_lt (l r : string) : bool :=
  match String.compare l r with Lt => true | _ => false end.

(** [Less]. *)
Definition Less (lhs rhs : ObjectHolder) (st : State) : Outcome bool * State :=
  match Get lhs st with
  | None => (Throw "Cannot compare objects for less", st)
  | Some (Bool l) =>
      match Get rhs st with
      | Some (Bool r) => (Ret (negb l && r), st)
      | _ => (Throw "Cannot compare objects for less", st)
      end
  | Some (Number l) =>
      match Get rhs st with
      | Some (Number r) => (Ret (l <? r)%Z, st)
      | _ => (Throw "Cannot compare objects for less", st)
      end
  | Some (String l) =>
      match Get rhs st with
      | Some (String r) => (Ret (string_lt l r), st)
      | _ => (Throw "Cannot compare objects for less", st)
      end
  | Some (ClassInstance _ _) =>
      match lhs with
      | Some self =>
          if HasMethod st self "__lt__" 1 then
            match Call self "__lt__" [rhs] st with
            | (Ret result, st') =>
                match TryAs_Bool result st' with
                | Some b => (Ret b, st')
                | None => (Undefined, st')
                end
            | (r, st') => (pass r, st')
            end
          else (Throw "Cannot compare objects for equality", st)
      | None => (Undefined, st)
      end
  | Some (Class _ _ _) => (Throw "Cannot compare objects for less", st)
  end.

(** [NotEqual]: [return !Equal(lhs, rhs, context);]. *)
Definition NotEqual (lhs rhs : ObjectHolder) (st : State) : Outcome bool * State :=
  match Equal lhs rhs st with
  | (Ret b, st') => (Ret (negb b), st')
  | other => other
  end.

(** [Greater]: [return !Less(lhs, rhs, context) && !Equal(lhs, rhs, context);]
    with the [&&] of C++: [Equal] is called only when [Less] returned
    [false]. *)
Definition Greater (lhs rhs : ObjectHolder) (st : State) : Outcome bool * State :=
  match Less lhs rhs st with
  | (Ret less, st') =>
      if negb less then
        match Equal lhs rhs st' with
        | (Ret equal, st'') => (Ret (negb equal), st'')
        | other => other
        end
      else (Ret false, st')
  | other => other
  end.

(** [LessOrEqual]: [return !Greater(lhs, rhs, context);]. *)
Definition LessOrEqual (lhs rhs : ObjectHolder) (st : State) : Outcome bool * State :=
  match Greater lhs rhs st with
  | (Ret b, st') => (Ret (negb b), st')
  | other => other
  end.

(** [GreaterOrEqual]: [return !Less(lhs, rhs, context);]. *)
Definition GreaterOrEqual (lhs rhs : ObjectHolder) (st : State) : Outcome bool * State :=
  match Less lhs rhs st with
  | (Ret b, st') => (Ret (negb b), st')
  | other => other
  end.

End WithExecute.

End runtime.

(** ** The executor ([statement.cpp]) *)

Import runtime.

(** A computation over the environment [closure] (passed by reference in the
    source) and the state behind [context]. *)
Definition Exec (A : Type) : Type := Closure → State → Outcome A * Closure * State.

Definition ret {A : Type} (a : A) : Exec A := λ closure st, (Ret a, closure, st).

Definition throw {A : Type} (what : string) : Exec A :=
  λ closure st, (Throw what, closure, st).

Definition undefined {A : Type} : Exec A := λ closure st, (Undefined, closure, st).

Definition bind {A B : Type} (m : Exec A) (k : A → Exec B) : Exec B :=
  λ closure st,
    match m closure st with
    | (Ret a, closure', st') => k a closure' st'
    | (r, closure', st') => (pass r, closure', st')
    end.

Notation "'let*' x ':=' m 'in' k" := (bind m (λ x, k))
  (at level 200, x name, m at level 100, k at level 200, only parsing).

(** A call that reads or changes the state and leaves the closure alone. *)
Definition on_state {A : Type} (f : State → Outcome A * State) : Exec A :=
  λ closure st, let '(r, st') := f st in (r, closure, st').

(** The state at this point, for the tests that look into holders. *)
Definition get_state : Exec State := λ closure st, (Ret st, closure, st).

(** [ObjectHolder::Own(object)]. *)
Definition own (o : Object) : Exec ObjectHolder :=
  λ closure st, let '(h, st') := Own o st in (Ret h, closure, st').

(** [closure[name] = h].  In [closure[name_] = value_->Execute(...)] the
    right operand is evaluated first (C++17), so the entry is made only
    when the evaluation returns. *)
Definition assign (name : string) (h : ObjectHolder) : Exec unit :=
  λ closure st, (Ret tt, <[name := h]> closure, st).

(** [context.GetOutputStream() << text]. *)
Definition put (text : string) : Exec unit :=
  λ closure st, (Ret tt, closure, mkState (heap st) (output st +:+ text)).

(** [obj->Fields()[name] = h] for the instance at [self]. *)
Definition assign_field (self : addr) (name : string) (h : ObjectHolder) : Exec unit :=
  λ closure st,
    match heap st !! self with
    | Some (ClassInstance cls fields) =>
        (Ret tt, closure,
         mkState (<[self := ClassInstance cls (<[name := h]> fields)]> (heap st)) (output st))
    | _ => (Undefined, closure, st)
    end.

(** The loop of [VariableValue::Execute] over [dotted_ids_]: [closure_] is
    the environment the next name is looked up in, [result] the holder found
    last.  [closure_] moves to the fields of [result] only when [result] is
    an instance. *)
Fixpoint dotted_loop (st : State) (closure_ : Closure) (result : ObjectHolder)
  (ids : list string) : Outcome ObjectHolder :=
  match ids with
  | [] => Ret result
  | id :: ids' =>
      match closure_ !! id with
      | Some found =>
          match TryAs_ClassInstance found st with
          | Some obj => dotted_loop st (Fields obj st) found ids'
          | None => dotted_loop st closure_ found ids'
          end
      | None => Throw "VariableValue(dotted.?)"
      end
  end.

(** [VariableValue::Execute]. *)
Definition VariableValue_Execute (v : ast.VariableValue) : Exec ObjectHolder :=
  λ closure st,
    if negb (String.eqb (ast.var_name_ v) "") then
      match closure !! ast.var_name_ v with
      | Some found => (Ret found, closure, st)
      | None => (Throw "VariableValue(?)", closure, st)
      end
    else if (0 <? length (ast.dotted_ids_ v))%nat then
      (dotted_loop st closure None (ast.dotted_ids_ v), closure, st)
    else (Throw "VariableValue(?)", closure, st).

Section Execute.

(** The remaining fuel, and [Statement::Execute] for the children of a node
    and for the bodies of the methods it calls. *)
Variable fuel : nat.
Variable Execute : ast.Statement → Exec ObjectHolder.

(** [for (auto& arg : args_) args.push_back(arg->Execute(closure, context));] *)
Fixpoint Execute_args (args : list ast.Statement) : Exec (list ObjectHolder) :=
  match args with
  | [] => ret []
  | arg :: args' =>
      let* h := Execute arg in
      let* hs := Execute_args args' in
      ret (h :: hs)
  end.

(** The loop of [Print::Execute]. *)
Fixpoint Print_loop (first : bool) (args : list ast.Statement) : Exec unit :=
  match args with
  | [] => ret tt
  | arg :: args' =>
      let* _ := (if first then ret tt else put " ") in
      let* obj_hold := Execute arg in
      let* _ :=
        match obj_hold with
        | None => put "None"
        | Some obj =>
            let* _ := on_state (runtime.Print Execute (S fuel) obj ContextStream) in ret tt
        end in
      Print_loop false args'
  end.

(** The loop of [Compound::Execute]. *)
Fixpoint Compound_loop (stmts : list ast.Statement) : Exec unit :=
  match stmts with
  | [] => ret tt
  | stmt :: stmts' => let* _ := Execute stmt in Compound_loop stmts'
  end.

(** [Add::Execute], [Sub::Execute], [Mult::Execute] and [Div::Execute] once
    both operands are evaluated. *)
Definition Add_holders (lhs_obj_hold rhs_obj_hold : ObjectHolder) : Exec ObjectHolder :=
  let* st := get_state in
  match Get lhs_obj_hold st with
  | Some (Number l) =>
      match TryAs_Number rhs_obj_hold st with
      | Some r => own (Number (wrap_int (l + r)))
      | None => throw "Add(Number, ?)"
      end
  | Some (String l) =>
      match TryAs_String rhs_obj_hold st with
      | Some r => own (String (l +:+ r))
      | None => throw "Add(String, ?)"
      end
  | Some (ClassInstance _ _) =>
      match lhs_obj_hold with
      | Some lhs_obj =>
          if HasMethod st lhs_obj "__add__" 1
          then on_state (Call Execute lhs_obj "__add__" [rhs_obj_hold])
          else throw "Add(?, ?)"
      | None => throw "Add(?, ?)"
      end
  | _ => throw "Add(?, ?)"
  end.

Definition Sub_holders (lhs_obj_hold rhs_obj_hold : ObjectHolder) : Exec ObjectHolder :=
  let* st := get_state in
  match TryAs_Number lhs_obj_hold st with
  | Some l =>
      match TryAs_Number rhs_obj_hold st with
      | Some r => own (Number (wrap_int (l - r)))
      | None => throw "Sub(Number, ?)"
      end
  | None => throw "Sub(?, ?)"
  end.

Definition Mult_holders (lhs_obj_hold rhs_obj_hold : ObjectHolder) : Exec ObjectHolder :=
  let* st := get_state in
  match TryAs_Number lhs_obj_hold st with
  | Some l =>
      match TryAs_Number rhs_obj_hold st with
      | Some r => own (Number (wrap_int (l * r)))
      | None => throw "Mult(Number, ?)"
      end
  | None => throw "Mult(?, ?)"
  end.

(** [lhs / rhs] on [int]: the quotient rounded toward zero; C++ defines no
    result for [INT_MIN / -1]. *)
Definition Div_holders (lhs_obj_hold rhs_obj_hold : ObjectHolder) : Exec ObjectHolder :=
  let* st := get_state in
  match TryAs_Number lhs_obj_hold st with
  | Some l =>
      match TryAs_Number rhs_obj_hold st with
      | Some r =>
          if (r =? 0)%Z then throw "Div(Number, 0): divide by zero"
          else if (l =? INT_MIN)%Z && (r =? -1)%Z then undefined
          else own (Number (Z.quot l r))
      | None => throw "Div(Number, ?)"
      end
  | None => throw "Div(?, ?)"
  end.

(** [cmp_(lhs, rhs, context)]. *)
Definition compare_with (cmp : ast.Comparator) (lhs rhs : ObjectHolder) : Exec bool :=
  on_state
    (match cmp with
     | ast.CmpEqual => Equal Execute lhs rhs
     | ast.CmpNotEqual => NotEqual Execute lhs rhs
     | ast.CmpLess => Less Execute lhs rhs
     | ast.CmpGreater => Greater Execute lhs rhs
     | ast.CmpLessOrEqual => LessOrEqual Execute lhs rhs
     | ast.CmpGreaterOrEqual => GreaterOrEqual Execute lhs rhs
     end).

(** [NewInstance::Execute]. *)
Definition NewInstance_Execute (class_ : addr) (args_ : list ast.Statement)
  : Exec ObjectHolder :=
  let* result := own (ClassInstance class_ ∅) in
  let* st := get_state in
  match result with
  | Some new_obj =>
      if HasMethod st new_obj "__init__" (length args_) then
        let* args := Execute_args args_ in
        let* _ := on_state (Call Execute new_obj "__init__" args) in
        ret result
      else ret result
  | None => ret result
  end.

(** [MethodBody::Execute]: the [try] block returns the empty holder; the
    handler of [std::runtime_error] returns the holder under ["return"] when
    the text of the error is ["return"] and the key is there, and the empty
    holder in every other case. *)
Definition MethodBody_Execute (body_ : ast.Statement) : Exec ObjectHolder :=
  λ closure st,
    match Execute body_ closure st with
    | (Ret _, closure', st') => (Ret None, closure', st')
    | (Throw what, closure', st') =>
        if String.eqb what "return" then
          match closure' !! "return" with
          | Some found => (Ret found, closure', st')
          | None => (Ret None, closure', st')
          end
        else (Ret None, closure', st')
    | (r, closure', st') => (r, closure', st')
    end.

(** [Statement::Execute], by the class of the node. *)
Definition Execute_body (s : ast.Statement) : Exec ObjectHolder :=
  match s with
  | ast.Assignment name_ value_ =>
      let* h := Execute value_ in
      let* _ := assign name_ h in
      ret h
  | ast.VarValue v => VariableValue_Execute v
  | ast.Print args_ =>
      let* _ := Print_loop true args_ in
      let* _ := put (String.String LF EmptyString) in
      ret None
  | ast.MethodCall object_ method_ args_ =>
      let* object := Execute object_ in
      let* st := get_state in
      match TryAs_ClassInstance object st with
      | None => throw "MethodCall(? object,,)"
      | Some obj =>
          if negb (HasMethod st obj method_ (length args_))
          then throw "MethodCall(,? method,)"
          else
            let* args := Execute_args args_ in
            on_state (Call Execute obj method_ args)
      end
  | ast.Stringify argument_ =>
      let* obj_hold := Execute argument_ in
      match obj_hold with
      | Some obj =>
          let* s := on_state (runtime.Print Execute (S fuel) obj (StringStream "")) in
          match s with
          | StringStream text => own (String text)
          | ContextStream => undefined
          end
      | None => own (String "None")
      end
  | ast.Add lhs_ rhs_ =>
      let* lhs_obj_hold := Execute lhs_ in
      let* rhs_obj_hold := Execute rhs_ in
      Add_holders lhs_obj_hold rhs_obj_hold
  | ast.Sub lhs_ rhs_ =>
      let* lhs_obj_hold := Execute lhs_ in
      let* rhs_obj_hold := Execute rhs_ in
      Sub_holders lhs_obj_hold rhs_obj_hold
  | ast.Mult lhs_ rhs_ =>
      let* lhs_obj_hold := Execute lhs_ in
      let* rhs_obj_hold := Execute rhs_ in
      Mult_holders lhs_obj_hold rhs_obj_hold
  | ast.Div lhs_ rhs_ =>
      let* lhs_obj_hold := Execute lhs_ in
      let* rhs_obj_hold := Execute rhs_ in
      Div_holders lhs_obj_hold rhs_obj_hold
  | ast.Compound stmts_ =>
      let* _ := Compound_loop stmts_ in
      ret None
  | ast.Return statement_ =>
      let* h := Execute statement_ in
      let* _ := assign "return" h in
      throw "return"
  | ast.ClassDefinition cls_ =>
      let* st := get_state in
      match TryAs_Class cls_ st, cls_ ≫= GetName st with
      | Some obj, Some obj_name =>
          let* h := Execute (ast.NewInstance obj []) in
          let* _ := assign obj_name h in
          ret h
      | _, _ => undefined
      end
  | ast.FieldAssignment object_ name_ value_ =>
      let* object := VariableValue_Execute object_ in
      let* st := get_state in
      match TryAs_ClassInstance object st with
      | None => throw "FieldAssignment: haven't object"
      | Some obj =>
          let* h := Execute value_ in
          let* _ := assign_field obj name_ h in
          ret h
      end
  | ast.IfElse condition_ if_body_ else_body_ =>
      let* condition := Execute condition_ in
      let* st := get_state in
      match TryAs_Bool condition st with
      | None => undefined
      | Some true => Execute if_body_
      | Some false =>
          match else_body_ with
          | Some else_body => Execute else_body
          | None => ret None
          end
      end
  | ast.Or lhs_ rhs_ =>
      let* lhs_obj_hold := Execute lhs_ in
      let* st := get_state in
      match TryAs_Bool lhs_obj_hold st with
      | Some true => ret lhs_obj_hold
      | Some false =>
          let* rhs_obj_hold := Execute rhs_ in
          let* st' := get_state in
          match TryAs_Bool rhs_obj_hold st' with
          | Some _ => ret rhs_obj_hold
          | None => throw "Or(?, ?)"
          end
      | None => throw "Or(?, ?)"
      end
  | ast.And lhs_ rhs_ =>
      let* lhs_obj_hold := Execute lhs_ in
      let* st := get_state in
      match TryAs_Bool lhs_obj_hold st with
      | Some false => ret lhs_obj_hold
      | Some true =>
          let* rhs_obj_hold := Execute rhs_ in
          let* st' := get_state in
          match TryAs_Bool rhs_obj_hold st' with
          | Some _ => ret rhs_obj_hold
          | None => throw "And(?, ?)"
          end
      | None => throw "And(?, ?)"
      end
  | ast.Not argument_ =>
      let* argument := Execute argument_ in
      let* st := get_state in
      match TryAs_Bool argument st with
      | Some arg => own (Bool (negb arg))
      | None => throw "Not(?)"
      end
  | ast.Comparison cmp_ lhs_ rhs_ =>
      let* lhs := Execute lhs_ in
      let* rhs := Execute rhs_ in
      let* result := compare_with cmp_ lhs rhs in
      own (Bool result)
  | ast.NewInstance class_ args_ => NewInstance_Execute class_ args_
  | ast.MethodBody body_ => MethodBody_Execute body_
  end.

End Execute.

(** [Statement::Execute] with [fuel] nested calls at most. *)
Fixpoint Execute (fuel : nat) (s : ast.Statement) : Exec ObjectHolder :=
  match fuel with
  | O => λ closure st, (OutOfFuel, closure, st)
  | S fuel' => Execute_body fuel' (Execute fuel') s
  end.

(** * The vocabulary of the properties *)

(** ** The states of the lexer *)

(** The measure that every re-entry of [NextToken] decreases. *)
Definition measure (lx : Lexer) : nat :=
  2 * length (input_ lx) + (if peek_is HASH (input_ lx) then 1 else 0).

(** The depth counter is never negative, and straight after a Dedent a line
    that starts with spaces has something other than a line feed behind
    them and is indented no deeper than the counter says. *)
Definition lexer_inv (lx : Lexer) : Prop :=
  (0 ≤ indent_count_ lx)%Z ∧
  (token_ lx = token_type.Dedent → peek_is SPACE (input_ lx) = true →
   peek_is LF (snd (read_while (is_char SPACE) (input_ lx))) = false ∧
   (Z.shiftr (Z.of_nat (length (fst (read_while (is_char SPACE) (input_ lx))))) 1
      ≤ indent_count_ lx)%Z).

(** The states a lexer goes through on some input. *)
Inductive reachable : Lexer → Prop :=
| reachable_start (input : istream) : reachable (Lexer_start input)
| reachable_next (lx : Lexer) (t : Token) (lx' : Lexer) :
    reachable lx → NextToken lx = Lexed (t, lx') → reachable lx'.

(** ** The end of the input, and blank lines *)

(** The tokens the source emits once the stream is used up, as the
    specification words them: one Dedent for each level of the counter,
    then, when no Dedent was due, a Newline unless the token before is an
    Eof, a Dedent or a Newline. *)
Definition end_tokens (lx : Lexer) : list Token :=
  repeat token_type.Dedent (Z.to_nat (indent_count_ lx)) ++
  (if (indent_count_ lx =? 0)%Z && negb (Is token_type.Eof (token_ lx))
      && negb (Is token_type.Dedent (token_ lx)) && negb (Is token_type.Newline (token_ lx))
   then [token_type.Newline] else []).

(** The last clause of the claim as the specification states it, for the
    tokens of [input]: behind the first Eof there are only Eofs. *)
Definition Eof_is_final (input : string) : Prop :=
  ∀ n ts i j,
    tokens n input = Some ts → ts !! i = Some token_type.Eof →
    i ≤ j → j < length ts → ts !! j = Some token_type.Eof.

(** The lexer on [a:], line feed, two spaces, [b], after its five tokens
    (Id, Char, Newline, Indent, Id): the stream is used up one level deep. *)
Definition lexer_after_nested_b : Lexer := mkLexer [] (token_type.Id "b") 1 false.

(** The line has content behind its leading spaces: a byte that is no line
    feed. *)
Definition has_content (input : istream) : Prop :=
  match snd (read_while (is_char SPACE) input) with
  | c :: _ => c ≠ LF
  | [] => False
  end.

(** The claim about the error, for the line the lexer [lx] stands in front
    of: if [Helper::Indent] throws "odd spaces" there, whatever the rest of
    the input makes of [NextToken], then the line has content. *)
Definition odd_error_needs_content (lx : Lexer) : Prop :=
  (∀ NT, Helper.Indent NT lx = LexerError "Indent(): odd spaces") → has_content (input_ lx).

(** The lexer on [a], line feed, three spaces, line feed, [b], behind the
    Newline of the first line. *)
Definition lexer_before_blank_line : Lexer :=
  mkLexer (repeat SPACE 3 ++ LF :: ["b"%char]) token_type.Newline 0 false.

(** ** The balance of Indent and Dedent *)

(** The Indent tokens of a token list, less its Dedent tokens. *)
Definition indent_balance (ts : list Token) : Z :=
  (Z.of_nat (length (filter (λ t, t = token_type.Indent) ts))
   - Z.of_nat (length (filter (λ t, t = token_type.Dedent) ts)))%Z.

(** The depth of a line: its leading spaces, in pairs. *)
Definition line_depth (line : string) : Z :=
  Z.shiftr (Z.of_nat (length (fst (read_while (is_char SPACE) (list_ascii_of_string line))))) 1.

(** The lines [if x:], [y] one level deep, and a third line in the first
    column that starts with the number [1], or with the name [z]. *)
Definition line_if : string := "if x:" +:+ String.String LF EmptyString.
Definition line_y : string := "  y" +:+ String.String LF EmptyString.
Definition line_1 : string := "1" +:+ String.String LF EmptyString.
Definition line_z : string := "z" +:+ String.String LF EmptyString.

(** What a token adds to the balance. *)
Definition token_step (t : Token) : Z :=
  if decide (t = token_type.Indent) then 1%Z
  else if decide (t = token_type.Dedent) then (-1)%Z else 0%Z.

(** ** Stores *)

(** Between two states: every object of the first is still there in the
    second, an instance as an instance of the same class (its fields may
    differ), any other object unchanged. *)
Definition heap_extends (hp hp' : list Object) : Prop :=
  ∀ a o, hp !! a = Some o →
    match o with
    | ClassInstance cls _ => ∃ fields, hp' !! a = Some (ClassInstance cls fields)
    | _ => hp' !! a = Some o
    end.

Definition state_extends (st st' : State) : Prop := heap_extends (heap st) (heap st').

(** A computation whose final state extends its first. *)
Definition extending {A : Type} (m : Exec A) : Prop :=
  ∀ closure st, state_extends st (snd (m closure st)).

Definition state_extending {A : Type} (f : State → Outcome A * State) : Prop :=
  ∀ st, state_extends st (snd (f st)).

(** ** Sample programs, and the class definition as specified *)

(** The store with the numbers 1 and 0, and the environment that names
    them [a] and [b]. *)
Definition one_and_zero : State := mkState [Number 1; Number 0] "".
Definition a_and_b : Closure := <["a" := Some 0]> (<["b" := Some 1]> ∅).

(** The store with the numbers 1 and 2, named [a] and [b]. *)
Definition one_and_two : State := mkState [Number 1; Number 2] "".

(** The claim as the specification states it, for the node [ClassDefinition]
    with the holder [cls_], run in [closure] and [st]: the name of the class
    is bound to the holder of the class, and nothing else changes in the
    environment. *)
Definition ClassDefinition_binds_the_class (cls_ : ObjectHolder) closure st : Prop :=
  ∀ fuel r closure' st',
    Execute fuel (ast.ClassDefinition cls_) closure st = (Ret r, closure', st') →
    ∃ name, cls_ ≫= GetName st = Some name ∧ closure' = <[name := cls_]> closure.

(** The store with a class [A] without methods. *)
Definition class_A : State := mkState [Class "A" [] None] "".

(** The store with a class [A] whose [__init__] writes an empty line. *)
Definition class_A_with_init : State :=
  mkState [Class "A" [mkMethod "__init__" [] (ast.MethodBody (ast.Print []))] None] "".

(** ** The derived comparisons as specified, and more samples *)

(** The store with the truth values [False] and [True], and an environment
    that names them [f] and [t]. *)
Definition false_and_true : State := mkState [Bool false; Bool true] "".
Definition f_and_t : Closure := <["f" := Some 0]> (<["t" := Some 1]> ∅).

(** The store with the numbers 0, [INT_MAX] and 1, and the environment
    that names them [z], [m] and [o]. *)
Definition zero_max_one : State := mkState [Number 0; Number INT_MAX; Number 1] "".
Definition z_m_o : Closure := <["z" := Some 0]> (<["m" := Some 1]> (<["o" := Some 2]> ∅)).

(** The derived comparisons as the specification writes them: the negation
    of a comparison, and the conjunction of C++, which asks for its second
    operand only when the first is true.  A comparison that throws (or has
    no defined result) makes the whole throw the same. *)
Definition negated (cmp : State → Outcome bool * State) : State → Outcome bool * State :=
  λ st,
    match cmp st with
    | (Ret b, st') => (Ret (negb b), st')
    | other => other
    end.

Definition and_then (cmp1 cmp2 : State → Outcome bool * State)
  : State → Outcome bool * State :=
  λ st,
    match cmp1 st with
    | (Ret true, st') => cmp2 st'
    | other => other
    end.

(** The store with the number 7 and an instance of the class [C], and the
    environment that names them [v] and [x]. *)
Definition seven_and_instance : State :=
  mkState [Number 7; ClassInstance 2 ∅; Class "C" [] None] "".
Definition v_and_x : Closure := <["v" := Some 0]> (<["x" := Some 1]> ∅).

(** Whether a holder of the environment [m] refers to the object at [a]. *)
Definition held_in (a : addr) (m : Closure) : bool :=
  existsb (λ kv, match kv.2 with Some b => Nat.eqb a b | None => false end) (map_to_list m).

(** Whether the object at [a] has an owner a statement can reach: a holder
    of the environment, or a field of an instance of the store. *)
Definition owned (a : addr) (closure : Closure) (st : State) : bool :=
  held_in a closure
  || existsb (λ o, match o with ClassInstance _ fields => held_in a fields | _ => false end)
       (heap st).

(** The method [drop(v)] of the class [X]: [self.b = v], then [return v]. *)
Definition drop_method : Method :=
  mkMethod "drop" ["v"]
    (ast.MethodBody
       (ast.Compound [ast.FieldAssignment (ast.mkVariableValue "self" []) "b" (ast.Var "v");
                      ast.Return (ast.Var "v")])).

(** The store with the classes [B] and [X], an instance of [X] whose field
    [b] holds an instance of [B], and the number 1; the environment that
    names the instance of [X] and the number [x] and [one]; and the store
    after [x.drop(one)]. *)
Definition x_with_b : State :=
  mkState [Class "B" [] None; Class "X" [drop_method] None;
           ClassInstance 1 {[ "b" := Some 3 ]}; ClassInstance 0 ∅; Number 1] "".
Definition x_and_one : Closure := <["x" := Some 2]> (<["one" := Some 4]> ∅).
Definition x_after_drop : State :=
  mkState [Class "B" [] None; Class "X" [drop_method] None;
           ClassInstance 1 {[ "b" := Some 4 ]}; ClassInstance 0 ∅; Number 1] "".

(** ** String literals and reserved words *)

(** How a byte is written inside a string literal: the six bytes that have
    an escape sequence with the backslash, every other byte as it is. *)
Definition escape_byte (c : ascii) : list ascii :=
  if is_char LF c then [BACKSLASH; "n"%char]
  else if is_char "009"%char c then [BACKSLASH; "t"%char]
  else if is_char "013"%char c then [BACKSLASH; "r"%char]
  else if is_char QUOT c then [BACKSLASH; QUOT]
  else if is_char APOS c then [BACKSLASH; APOS]
  else if is_char BACKSLASH c then [BACKSLASH; BACKSLASH]
  else [c].

(** The text of a string literal for the bytes [body], without the quotes. *)
Definition escape (body : list ascii) : list ascii := flat_map escape_byte body.

(** The reserved words and their tokens, as a table. *)
Definition keywords : list (string * Token) :=
  [("class", token_type.Class); ("return", token_type.Return); ("if", token_type.If);
   ("else", token_type.Else); ("def", token_type.Def); ("print", token_type.Print);
   ("and", token_type.And); ("or", token_type.Or); ("not", token_type.Not);
   ("None", token_type.None); ("True", token_type.True); ("False", token_type.False)].

(** The token of a lexeme: that of the table for a reserved word, an Id
    with the lexeme for every other one. *)
Definition token_of_lexeme (s : string) : Token :=
  match find (λ kw, String.eqb s (fst kw)) keywords with
  | Some kw => snd kw
  | None => token_type.Id s
  end.

(** The lexeme [Helper::Id] reads: the longest run of letters, digits and
    underscores the stream starts with. *)
Definition lexeme (input : istream) : string :=
  string_of_list_ascii (fst (read_while (λ x, is_char UNDERSCORE x || isalnum x) input)).

(** ** The current token and the start of a line *)

(** [Lexer::CurrentToken]. *)
Definition CurrentToken (lx : Lexer) : Token := token_ lx.

(** The line starts: the tokens an Indent can follow. *)
Definition at_line_start (t : Token) : Prop :=
  t = token_type.Newline ∨ t = token_type.Indent ∨ t = token_type.Dedent.

(** ** Classes in the store, and the order of scalars *)

(** A store in which every class comes after its parent, as [Class::Class]
    forces: the parent is passed to the constructor as a pointer. *)
Definition parents_first (hp : list Object) : Prop :=
  ∀ a n ms p, hp !! a = Some (Class n ms (Some p)) → p < a.

(** The classes [Base], with the methods [f] and [g], and [Derived], its
    child with a method [f] of its own. *)
Definition Base_and_Derived : State :=
  mkState
    [Class "Base" [mkMethod "f" [] (ast.Compound []); mkMethod "g" ["x"] (ast.Compound [])] None;
     Class "Derived" [mkMethod "f" ["y"] (ast.Compound [])] (Some 0)] "".

(** The order of two objects of the same kind: numbers by value, strings
    byte by byte, and [False] before [True]. *)
Definition scalar_compare (l r : Object) : option comparison :=
  match l, r with
  | Number a, Number b => Some (a ?= b)%Z
  | String a, String b => Some (String.compare a b)
  | Bool a, Bool b => Some (Bool.compare a b)
  | _, _ => None
  end.

(** ** States that only grow *)

(** The output of [st'] is the output of [st] and some more text, and every
    class of [st'] was there in [st], at the same address. *)
Definition state_appends (st st' : State) : Prop :=
  (∃ text, output st' = output st +:+ text) ∧
  (∀ a n ms p, heap st' !! a = Some (Class n ms p) → heap st !! a = Some (Class n ms p)).

(** A computation whose final state is its first with more output and no
    new class. *)
Definition appending {A : Type} (m : Exec A) : Prop :=
  ∀ closure st, state_appends st (snd (m closure st)).

Definition state_appending {A : Type} (f : State → Outcome A * State) : Prop :=
  ∀ st, state_appends st (snd (f st)).

(** An object that is no class. *)
Definition not_a_Class (o : Object) : Prop :=
  match o with
  | Class _ _ _ => False
  | _ => True
  end.

(** ** The text of a value *)

(** What [Print] above writes for a holder that is empty or holds a number,
    a string, a truth value or a class: [None], the decimal digits, the
    bytes, [True] or [False], and [Class] with the name.  (An instance is
    written by its [__str__], or as its address.) *)
Definition printed (hp : list Object) (h : ObjectHolder) : option string :=
  match h with
  | None => Some "None"
  | Some a =>
      match hp !! a with
      | Some (Number v) => Some (pretty v)
      | Some (String v) => Some v
      | Some (Bool v) => Some (if v then "True" else "False")
      | Some (Class n _ _) => Some ("Class " +:+ n)
      | _ => None
      end
  end.

(** The texts behind the first one of a line that [print] writes, each
    with the space in front of it. *)
Definition more_texts (texts : list string) : string :=
  fold_right (λ t acc, " " +:+ t +:+ acc) "" texts.

(** * Properties *)

(** ** The lexer: termination of [NextToken] *)

Lemma read_while_app (p : ascii → bool) (input : istream) :
  fst (read_while p input) ++ snd (read_while p input) = input.
Proof.
  induction input as [|c rest IH]; simpl; [done|].
  destruct (p c); [|done].
  destruct (read_while p rest) as [s r]; simpl in *. by rewrite IH.
Qed.

Lemma read_while_length (p : ascii → bool) (input : istream) :
  length (snd (read_while p input)) ≤ length input.
Proof.
  rewrite <- (read_while_app p input) at 2. rewrite length_app. lia.
Qed.

Lemma read_while_length_lt (p : ascii → bool) (c : ascii) (rest : istream) :
  p c = true → length (snd (read_while p (c :: rest))) < length (c :: rest).
Proof.
  intros Hc. simpl. rewrite Hc.
  pose proof (read_while_length p rest) as H. revert H.
  destruct (read_while p rest) as [s r]; simpl. lia.
Qed.

Lemma read_while_stop (p : ascii → bool) (input : istream) :
  match snd (read_while p input) with
  | c :: _ => p c = false
  | [] => True
  end.
Proof.
  induction input as [|c rest IH]; simpl; [done|].
  destruct (p c) eqn:Hc; [|by simpl; rewrite Hc].
  revert IH. destruct (read_while p rest) as [s r]; simpl. done.
Qed.

Lemma getline_length (input : istream) : length (getline input) ≤ length input.
Proof.
  induction input as [|c rest IH]; simpl; [done|].
  destruct (is_char LF c); lia.
Qed.

Lemma measure_set_input_lt (lx : Lexer) (rest : istream) :
  length rest < length (input_ lx) → measure (set_input lx rest) < measure lx.
Proof.
  unfold measure; simpl. intros.
  destruct (peek_is HASH rest), (peek_is HASH (input_ lx)); lia.
Qed.

Section Extensionality.

Variables NT1 NT2 : Lexer → LexResult.

Lemma Indent_ext (lx : Lexer) :
  peek_is SPACE (input_ lx) = true →
  (∀ lx', measure lx' < measure lx → NT1 lx' = NT2 lx') →
  Helper.Indent NT1 lx = Helper.Indent NT2 lx.
Proof.
  intros Hsp H. unfold Helper.Indent.
  destruct lx as [input tok cnt eq]; simpl in *.
  destruct input as [|c rest]; [done|]. simpl in Hsp.
  pose proof (read_while_length_lt (is_char SPACE) c rest Hsp) as Hlt. revert Hlt.
  destruct (read_while (is_char SPACE) (c :: rest)) as [sp r]; simpl; intros Hlt.
  assert (∀ b, NT1 (mkLexer r tok cnt b) = NT2 (mkLexer r tok cnt b)) as Hr.
  { intros b. apply H.
    apply (measure_set_input_lt (mkLexer (c :: rest) tok cnt eq) r). simpl. lia. }
  unfold set_input, set_indent_equal; simpl.
  repeat (case_match; try done); apply Hr.
Qed.

Lemma Space_ext (lx : Lexer) :
  peek_is SPACE (input_ lx) = true →
  (∀ lx', measure lx' < measure lx → NT1 lx' = NT2 lx') →
  Helper.Space NT1 lx = Helper.Space NT2 lx.
Proof.
  intros Hsp H. unfold Helper.Space.
  case_match; [by apply Indent_ext|].
  apply H. apply measure_set_input_lt.
  destruct (input_ lx) as [|c rest]; [done|].
  by apply read_while_length_lt.
Qed.

Lemma Char_ext (lx : Lexer) :
  (∀ lx', measure lx' < measure lx → NT1 lx' = NT2 lx') →
  Helper.Char NT1 lx = Helper.Char NT2 lx.
Proof.
  intros H. unfold Helper.Char.
  destruct (input_ lx) as [|c rest] eqn:Hin; [done|].
  destruct (is_char LF c) eqn:HLF.
  { case_match; [|done]. apply H. apply measure_set_input_lt. rewrite Hin. simpl. lia. }
  case_match; [done|]. case_match; [done|].
  destruct (is_char SPACE c) eqn:HSP.
  { apply Space_ext; [by rewrite Hin|done]. }
  destruct (is_char HASH c) eqn:HH; [|done].
  unfold Helper.Comment. apply H.
  unfold measure. simpl. rewrite Hin. simpl. rewrite HH.
  pose proof (getline_length rest).
  replace (is_char HASH LF) with false by done. lia.
Qed.

Lemma NextToken_body_ext (lx : Lexer) :
  (∀ lx', measure lx' < measure lx → NT1 lx' = NT2 lx') →
  NextToken_body NT1 lx = NextToken_body NT2 lx.
Proof.
  intros H. unfold NextToken_body.
  repeat (case_match; try done); subst.
  all: try (rewrite (Char_ext lx H) in *; congruence).
Qed.

End Extensionality.

Lemma NextToken_fuel_stable (f1 f2 : nat) (lx : Lexer) :
  measure lx < f1 → measure lx < f2 → NextToken_fuel f1 lx = NextToken_fuel f2 lx.
Proof.
  revert f2 lx. induction f1 as [|f1 IH]; intros f2 lx H1 H2; [lia|].
  destruct f2 as [|f2]; [lia|]. simpl.
  apply NextToken_body_ext. intros lx' Hlt. apply IH; lia.
Qed.

Lemma measure_enough (lx : Lexer) : measure lx < enough_fuel lx.
Proof. unfold measure, enough_fuel. destruct (peek_is HASH (input_ lx)); lia. Qed.

(** [NextToken] is the function its body describes. *)
Lemma NextToken_unfold (lx : Lexer) : NextToken lx = NextToken_body NextToken lx.
Proof.
  unfold NextToken at 1.
  pose proof (measure_enough lx) as Hm.
  destruct (enough_fuel lx) as [|f] eqn:Hf; [lia|]. simpl.
  apply NextToken_body_ext. intros lx' Hlt.
  apply NextToken_fuel_stable; [lia|apply measure_enough].
Qed.

(** ** The lexer: what its states have in common *)

Lemma Is_true_eq (T t : Token) : Is T t = true ↔ t = T.
Proof. unfold Is. apply bool_decide_eq_true. Qed.

Lemma Is_false_ne (T t : Token) : Is T t = false ↔ t ≠ T.
Proof. unfold Is. apply bool_decide_eq_false. Qed.

Lemma isalpha_not_space (c : ascii) : isalpha c = true → is_char SPACE c = false.
Proof. destruct c as [[] [] [] [] [] [] [] []]; vm_compute; congruence. Qed.

Lemma peek_is_eof_not_space (input : istream) :
  peek_is_eof input = true → peek_is SPACE input = false.
Proof.
  destruct input as [|c rest]; [done|]. simpl.
  destruct c as [[] [] [] [] [] [] [] []]; vm_compute; congruence.
Qed.

Lemma Id_lexeme_not_Dedent (lx : Lexer) : fst (Helper.Id_lexeme lx) ≠ token_type.Dedent.
Proof.
  unfold Helper.Id_lexeme.
  destruct (read_while _ (input_ lx)) as [run rest].
  repeat (case_match; try done).
Qed.

Lemma Id_lexeme_state (lx : Lexer) :
  indent_count_ (snd (Helper.Id_lexeme lx)) = indent_count_ lx.
Proof.
  unfold Helper.Id_lexeme.
  destruct (read_while _ (input_ lx)) as [run rest].
  repeat (case_match; try done).
Qed.

Lemma String_loop_not_Dedent (quot : ascii) (input : istream) (s : list ascii) t rest :
  Helper.String_loop quot input s = Lexed (t, rest) → t ≠ token_type.Dedent.
Proof.
  remember (length input) as n eqn:Hn.
  assert (length input ≤ n) as Hle by lia. clear Hn.
  revert input s Hle. induction n as [|n IH]; intros input s Hle.
  { destruct input; simpl in *; [done|lia]. }
  destruct input as [|c input']; simpl in *; [done|].
  destruct (is_char quot c); [intros [= <- <-]; done|].
  destruct (is_char BACKSLASH c).
  - destruct input' as [|e input'']; [done|]. simpl in Hle.
    repeat (case_match; try done); apply IH; lia.
  - apply IH; lia.
Qed.

Lemma Operation_not_Dedent (input : istream) t rest :
  Helper.Operation input = Lexed (t, rest) → t ≠ token_type.Dedent.
Proof.
  unfold Helper.Operation. repeat (case_match; try done); intros [= <- <-]; done.
Qed.

Lemma set_token_same (lx : Lexer) : set_token lx (token_ lx) = lx.
Proof. by destruct lx. Qed.

Section Invariant.

Variable NT : Lexer → LexResult.

(** What the induction assumes of the calls that re-enter [NextToken]. *)
Hypothesis NT_inv : ∀ lx t lx',
  lexer_inv lx → NT lx = Lexed (t, lx') → lexer_inv lx' ∧ token_ lx' = t.

Lemma lexer_inv_not_Dedent (lx : Lexer) :
  (0 ≤ indent_count_ lx)%Z → token_ lx ≠ token_type.Dedent → lexer_inv lx.
Proof. intros H0 Ht. split; [done|]. intros; done. Qed.

Lemma lexer_inv_no_space (lx : Lexer) :
  (0 ≤ indent_count_ lx)%Z → peek_is SPACE (input_ lx) = false → lexer_inv lx.
Proof. intros H0 Ht. split; [done|]. intros; congruence. Qed.

Lemma Indent_inv (lx : Lexer) t lx' :
  lexer_inv lx → Helper.Indent NT lx = Lexed (t, lx') →
  lexer_inv (set_token lx' t).
Proof.
  intros [H0 HD]. unfold Helper.Indent.
  destruct lx as [input tok cnt eq]; simpl in *.
  pose proof (read_while_stop (is_char SPACE) input) as Hstop. revert HD Hstop.
  destruct (read_while (is_char SPACE) input) as [sp rest] eqn:Hrw; simpl.
  intros HD Hstop.
  unfold set_input, set_indent_equal, set_indent_count; simpl.
  destruct (peek_is LF rest) eqn:HLF.
  { intros HNT. apply NT_inv in HNT as [HNT <-]; [by rewrite set_token_same|].
    apply lexer_inv_no_space; [done|]. simpl.
    destruct rest as [|c r]; [done|]. simpl in *. done. }
  destruct (negb (Z.rem (Z.of_nat (length sp)) 2 =? 0)%Z); [intros [=]|].
  destruct (Z.shiftr (Z.of_nat (length sp)) 1 =? cnt)%Z eqn:Heq.
  { intros HNT. apply NT_inv in HNT as [HNT <-]; [by rewrite set_token_same|].
    apply lexer_inv_no_space; [done|]. simpl.
    destruct rest as [|c r]; [done|]. simpl in *. done. }
  apply Z.eqb_neq in Heq.
  assert (0 ≤ Z.shiftr (Z.of_nat (length sp)) 1)%Z as Hpos
    by (apply Z.shiftr_nonneg; lia).
  destruct (negb (Z.shiftr (Z.of_nat (length sp)) 1 =? 0)%Z && Is token_type.Indent tok).
  { intros [= <- <-]. apply lexer_inv_not_Dedent; simpl; [lia|done]. }
  destruct (negb (Z.shiftr (Z.of_nat (length sp)) 1 =? 0)%Z && Is token_type.Dedent tok) eqn:HisD.
  { intros [= <- <-].
    apply andb_true_iff in HisD as [Hnz HisD]. apply Is_true_eq in HisD.
    assert (peek_is SPACE input = true) as Hsp.
    { destruct input as [|c r]; simpl in *; [by inversion Hrw; subst|].
      destruct (is_char SPACE c); [done|]. by inversion Hrw; subst. }
    destruct (HD HisD Hsp) as [_ Hle].
    split; simpl; [lia|]. rewrite Hrw; simpl. intros _ _. split; [done|lia]. }
  destruct (cnt <? Z.shiftr (Z.of_nat (length sp)) 1)%Z eqn:Hlt.
  { intros [= <- <-]. apply lexer_inv_not_Dedent; simpl; [lia|done]. }
  apply Z.ltb_ge in Hlt.
  intros [= <- <-]. split; simpl; [lia|]. rewrite Hrw; simpl. intros _ _. split; [done|lia].
Qed.

Lemma Id_inv (lx : Lexer) :
  lexer_inv lx → peek_is SPACE (input_ lx) = false →
  lexer_inv (set_token (snd (Helper.Id lx)) (fst (Helper.Id lx))).
Proof.
  intros [H0 HD] Hsp. unfold Helper.Id.
  destruct (indent_equal_ lx).
  { apply lexer_inv_not_Dedent; simpl; [by rewrite Id_lexeme_state|].
    apply Id_lexeme_not_Dedent. }
  destruct ((Is token_type.Newline (token_ lx) || Is token_type.Dedent (token_ lx))
            && negb (indent_count_ lx =? 0)%Z) eqn:Hc.
  - apply andb_true_iff in Hc as [_ Hc]. apply negb_true_iff, Z.eqb_neq in Hc.
    apply lexer_inv_no_space; simpl; [lia|done].
  - apply lexer_inv_not_Dedent; simpl; [by rewrite Id_lexeme_state|].
    apply Id_lexeme_not_Dedent.
Qed.

Lemma Space_inv (lx : Lexer) t lx' :
  lexer_inv lx → Helper.Space NT lx = Lexed (t, lx') → lexer_inv (set_token lx' t).
Proof.
  intros Hinv. unfold Helper.Space.
  destruct (Is token_type.Newline (token_ lx) || Is token_type.Indent (token_ lx)
            || Is token_type.Dedent (token_ lx)) eqn:Hstart.
  { by apply Indent_inv. }
  intros HNT. apply NT_inv in HNT as [HNT <-]; [by rewrite set_token_same|].
  apply lexer_inv_no_space; simpl; [apply Hinv|].
  pose proof (read_while_stop (is_char SPACE) (input_ lx)) as Hstop.
  destruct (snd (read_while (is_char SPACE) (input_ lx))); done.
Qed.

Lemma Char_inv (lx : Lexer) t lx' :
  lexer_inv lx → Helper.Char NT lx = Lexed (t, lx') → lexer_inv (set_token lx' t).
Proof.
  intros Hinv. pose proof Hinv as [H0 HD]. unfold Helper.Char.
  destruct (input_ lx) as [|c rest] eqn:Hin.
  { intros [= <- <-]. by apply lexer_inv_not_Dedent. }
  destruct (is_char LF c) eqn:HLF.
  { destruct (Is token_type.Eof (token_ lx) || Is token_type.Newline (token_ lx)) eqn:Hs.
    - intros HNT. apply NT_inv in HNT as [HNT <-]; [by rewrite set_token_same|].
      apply lexer_inv_not_Dedent; simpl; [done|].
      intros HDe. rewrite HDe in Hs. done.
    - intros [= <- <-]. by apply lexer_inv_not_Dedent. }
  case_match.
  { intros [= <- <-]. by apply lexer_inv_not_Dedent. }
  case_match.
  { unfold Helper.in_stream. destruct (Helper.Operation (c :: rest)) as [[t' r]| | | |] eqn:Hop;
      try done.
    intros [= <- <-]. apply Operation_not_Dedent in Hop.
    by apply lexer_inv_not_Dedent. }
  destruct (is_char SPACE c) eqn:HSP; [by apply Space_inv|].
  destruct (is_char HASH c) eqn:HH.
  { unfold Helper.Comment. intros HNT. apply NT_inv in HNT as [HNT <-]; [by rewrite set_token_same|].
    by apply lexer_inv_no_space. }
  destruct (is_char UNDERSCORE c) eqn:HU.
  { destruct (Helper.Id lx) as [t' l'] eqn:HId. intros [= <- <-].
    replace t' with (fst (Helper.Id lx)) by (by rewrite HId).
    replace l' with (snd (Helper.Id lx)) by (by rewrite HId).
    apply Id_inv; [done|]. by rewrite Hin; simpl; rewrite HSP. }
  intros [= <- <-]. by apply lexer_inv_not_Dedent.
Qed.

Lemma NextToken_body_inv (lx : Lexer) t lx' :
  lexer_inv lx → NextToken_body NT lx = Lexed (t, lx') → lexer_inv lx' ∧ token_ lx' = t.
Proof.
  intros Hinv. pose proof Hinv as [H0 HD]. unfold NextToken_body.
  destruct (peek_is_eof (input_ lx)) eqn:Heof.
  { destruct (negb (indent_count_ lx =? 0)%Z) eqn:Hc.
    - apply negb_true_iff, Z.eqb_neq in Hc. intros [= <- <-]. split; [|done].
      apply lexer_inv_no_space; simpl; [lia|by apply peek_is_eof_not_space].
    - case_match; intros [= <- <-]; (split; [|done]); by apply lexer_inv_not_Dedent. }
  destruct (input_ lx) as [|c rest] eqn:Hin; [done|].
  destruct (isalpha c) eqn:Halpha.
  { destruct (Helper.Id lx) as [t' l'] eqn:HId. intros [= <- <-]. split; [|done].
    replace t' with (fst (Helper.Id lx)) by (by rewrite HId).
    replace l' with (snd (Helper.Id lx)) by (by rewrite HId).
    apply Id_inv; [done|]. rewrite Hin; simpl. by apply isalpha_not_space. }
  destruct (isdigit c).
  { unfold Helper.in_stream, Helper.Number.
    destruct (read_while isdigit (c :: rest)) as [ds r].
    destruct (Helper.digits_value ds <=? INT_MAX)%Z; [|done].
    intros [= <- <-]. split; [|done].
    by apply lexer_inv_not_Dedent. }
  destruct (is_char QUOT c || is_char APOS c).
  { unfold Helper.in_stream, Helper.String.
    destruct (Helper.String_loop c rest []) as [[t' r]| | | |] eqn:Hs; try done.
    intros [= <- <-]. split; [|done].
    apply String_loop_not_Dedent in Hs. by apply lexer_inv_not_Dedent. }
  destruct (Helper.Char NT lx) as [[t' l']| | | |] eqn:HC; try done.
  intros [= <- <-]. split; [|done]. by apply (Char_inv lx).
Qed.

End Invariant.

Lemma NextToken_fuel_inv (fuel : nat) (lx : Lexer) t lx' :
  lexer_inv lx → NextToken_fuel fuel lx = Lexed (t, lx') → lexer_inv lx' ∧ token_ lx' = t.
Proof.
  revert lx t lx'. induction fuel as [|fuel IH]; intros lx t lx'; [done|].
  simpl. apply NextToken_body_inv. apply IH.
Qed.

Lemma reachable_inv (lx : Lexer) : reachable lx → lexer_inv lx.
Proof.
  induction 1 as [input|lx t lx' _ IH H].
  - by apply lexer_inv_not_Dedent.
  - by apply (NextToken_fuel_inv _ _ _ _ IH H).
Qed.

Lemma store_token_token (r : LexResult) t lx' :
  store_token r = Lexed (t, lx') → token_ lx' = t.
Proof. destruct r as [[t0 l0]| | | |]; simpl; try done. by intros [= <- <-]. Qed.

Lemma NextToken_token (lx : Lexer) t lx' :
  NextToken lx = Lexed (t, lx') → token_ lx' = t.
Proof.
  rewrite NextToken_unfold. unfold NextToken_body.
  repeat (case_match; try done); try (intros [= <- <-]; done);
    apply store_token_token.
Qed.

Section Total.

Variable NT : Lexer → LexResult.

Lemma String_loop_fuel (quot : ascii) (input : istream) (s : list ascii) :
  Helper.String_loop quot input s ≠ LexOutOfFuel.
Proof.
  remember (length input) as n eqn:Hn.
  assert (length input ≤ n) as Hle by lia. clear Hn.
  revert input s Hle. induction n as [|n IH]; intros input s Hle.
  { destruct input; simpl in *; [done|lia]. }
  destruct input as [|c input']; simpl in *; [done|].
  destruct (is_char quot c); [done|].
  destruct (is_char BACKSLASH c).
  - destruct input' as [|e input'']; [done|]. simpl in Hle.
    repeat (case_match; try done); apply IH; lia.
  - apply IH; lia.
Qed.

Lemma store_token_fuel (r : LexResult) : r ≠ LexOutOfFuel → store_token r ≠ LexOutOfFuel.
Proof. by destruct r as [[]| | | |]. Qed.

Lemma Indent_fuel (lx : Lexer) :
  peek_is SPACE (input_ lx) = true →
  (∀ lx', measure lx' < measure lx → NT lx' ≠ LexOutOfFuel) →
  Helper.Indent NT lx ≠ LexOutOfFuel.
Proof.
  intros Hsp H. unfold Helper.Indent.
  destruct lx as [input tok cnt eq]; simpl in *.
  destruct input as [|c rest]; [done|]. simpl in Hsp.
  pose proof (read_while_length_lt (is_char SPACE) c rest Hsp) as Hlt. revert Hlt.
  destruct (read_while (is_char SPACE) (c :: rest)) as [sp r]; simpl; intros Hlt.
  assert (∀ b, NT (mkLexer r tok cnt b) ≠ LexOutOfFuel) as Hr.
  { intros b. apply H.
    apply (measure_set_input_lt (mkLexer (c :: rest) tok cnt eq) r). simpl. lia. }
  unfold set_input, set_indent_equal; simpl.
  repeat (case_match; try done); apply Hr.
Qed.

Lemma Char_fuel (lx : Lexer) :
  (∀ lx', measure lx' < measure lx → NT lx' ≠ LexOutOfFuel) →
  Helper.Char NT lx ≠ LexOutOfFuel.
Proof.
  intros H. unfold Helper.Char.
  destruct (input_ lx) as [|c rest] eqn:Hin; [done|].
  destruct (is_char LF c) eqn:HLF.
  { case_match; [|done]. apply H. apply measure_set_input_lt. rewrite Hin. simpl. lia. }
  case_match; [done|].
  case_match.
  { unfold Helper.in_stream, Helper.Operation. repeat (case_match; try done). }
  destruct (is_char SPACE c) eqn:HSP.
  { unfold Helper.Space. case_match.
    - apply Indent_fuel; [by rewrite Hin; simpl|done].
    - apply H. apply measure_set_input_lt. rewrite Hin.
      by apply read_while_length_lt. }
  destruct (is_char HASH c) eqn:HH; [|by case_match].
  unfold Helper.Comment. apply H.
  unfold measure. simpl. rewrite Hin. simpl. rewrite HH.
  pose proof (getline_length rest).
  replace (is_char HASH LF) with false by done. lia.
Qed.

Lemma NextToken_body_fuel (lx : Lexer) :
  (∀ lx', measure lx' < measure lx → NT lx' ≠ LexOutOfFuel) →
  NextToken_body NT lx ≠ LexOutOfFuel.
Proof.
  intros H. unfold NextToken_body.
  destruct (peek_is_eof (input_ lx)); [repeat case_match; done|].
  destruct (input_ lx) as [|c rest] eqn:Hin; [done|].
  destruct (isalpha c); [by destruct (Helper.Id lx)|].
  destruct (isdigit c).
  { unfold Helper.in_stream, Helper.Number.
    destruct (read_while isdigit (c :: rest)) as [ds r].
    by destruct (Helper.digits_value ds <=? INT_MAX)%Z. }
  destruct (is_char QUOT c || is_char APOS c).
  { unfold Helper.in_stream, Helper.String.
    pose proof (String_loop_fuel c rest []).
    by destruct (Helper.String_loop c rest []) as [[]| | | |]. }
  apply store_token_fuel. by apply Char_fuel.
Qed.

End Total.

(** [NextToken] has fuel enough for every lexer: it ends with a token or
    with one of the exceptions of the source. *)
Lemma NextToken_fuel_enough (lx : Lexer) : NextToken lx ≠ LexOutOfFuel.
Proof.
  remember (measure lx) as n eqn:Hn.
  assert (measure lx ≤ n) as Hle by lia. clear Hn.
  revert lx Hle. induction n as [|n IH]; intros lx Hle;
    rewrite NextToken_unfold; apply NextToken_body_fuel; intros lx' Hlt;
    [lia|apply IH; lia].
Qed.

(** ** The lexer at the end of the input *)

Lemma NextToken_store (lx : Lexer) : store_token (NextToken lx) = NextToken lx.
Proof.
  unfold store_token. destruct (NextToken lx) as [[t lx']| | | |] eqn:H; try done.
  apply NextToken_token in H. rewrite <- H. by rewrite set_token_same.
Qed.

Lemma NextToken_at_eof (lx : Lexer) :
  peek_is_eof (input_ lx) = true →
  NextToken lx =
    if negb (indent_count_ lx =? 0)%Z then
      Lexed (token_type.Dedent,
             set_token (set_indent_count lx (indent_count_ lx - 1)) token_type.Dedent)
    else if negb (Is token_type.Eof (token_ lx)) && negb (Is token_type.Dedent (token_ lx))
            && negb (Is token_type.Newline (token_ lx))
    then Lexed (token_type.Newline, set_token lx token_type.Newline)
    else Lexed (token_type.Eof, set_token lx token_type.Eof).
Proof.
  intros Heof. rewrite NextToken_unfold. unfold NextToken_body. by rewrite Heof.
Qed.

Lemma tokens_from_Eof (k : nat) (lx : Lexer) :
  peek_is_eof (input_ lx) = true → indent_count_ lx = 0%Z →
  Is token_type.Eof (token_ lx) || Is token_type.Dedent (token_ lx)
    || Is token_type.Newline (token_ lx) = true →
  option_map (map fst) (tokens_from k lx) = Some (repeat token_type.Eof k).
Proof.
  revert lx. induction k as [|k IH]; intros lx Heof H0 Htok; [done|].
  simpl. rewrite (NextToken_at_eof lx Heof), H0. simpl.
  replace (negb (Is token_type.Eof (token_ lx)) && negb (Is token_type.Dedent (token_ lx))
           && negb (Is token_type.Newline (token_ lx))) with false
    by (destruct (Is token_type.Eof (token_ lx)), (Is token_type.Dedent (token_ lx)),
          (Is token_type.Newline (token_ lx)); done).
  specialize (IH (set_token lx token_type.Eof) Heof H0 eq_refl).
  destruct (tokens_from k (set_token lx token_type.Eof)) as [l|]; [|done].
  simpl in *. by injection IH as ->.
Qed.

Lemma tokens_from_end (d k : nat) (lx : Lexer) :
  peek_is_eof (input_ lx) = true → indent_count_ lx = Z.of_nat d →
  option_map (map fst) (tokens_from (length (end_tokens lx) + k) lx)
  = Some (end_tokens lx ++ repeat token_type.Eof k).
Proof.
  revert lx. induction d as [|d IH]; intros lx Heof Hd.
  - unfold end_tokens. rewrite Hd. simpl.
    destruct (negb (Is token_type.Eof (token_ lx)) && negb (Is token_type.Dedent (token_ lx))
              && negb (Is token_type.Newline (token_ lx))) eqn:Htok.
    + simpl. rewrite (NextToken_at_eof lx Heof), Hd. simpl. rewrite Htok.
      pose proof (tokens_from_Eof k (set_token lx token_type.Newline) Heof Hd eq_refl) as H.
      destruct (tokens_from k (set_token lx token_type.Newline)) as [l|]; [|done].
      simpl in *. by injection H as ->.
    + simpl. apply tokens_from_Eof; [done..|].
      destruct (Is token_type.Eof (token_ lx)), (Is token_type.Dedent (token_ lx)),
        (Is token_type.Newline (token_ lx)); done.
  - set (lx1 := set_token (set_indent_count lx (indent_count_ lx - 1)) token_type.Dedent).
    assert (end_tokens lx = token_type.Dedent :: end_tokens lx1) as Hend.
    { unfold end_tokens, lx1. simpl. rewrite Hd.
      replace (Z.of_nat (S d) - 1)%Z with (Z.of_nat d) by lia.
      rewrite !Nat2Z.id. simpl.
      replace (Z.of_nat (S d) =? 0)%Z with false by (symmetry; apply Z.eqb_neq; lia).
      simpl. by rewrite andb_false_r. }
    rewrite Hend. simpl.
    rewrite (NextToken_at_eof lx Heof).
    replace (negb (indent_count_ lx =? 0)%Z) with true
      by (symmetry; apply negb_true_iff, Z.eqb_neq; lia).
    fold lx1.
    assert (indent_count_ lx1 = Z.of_nat d) as Hd1 by (unfold lx1; simpl; lia).
    specialize (IH lx1 Heof Hd1).
    destruct (tokens_from (length (end_tokens lx1) + k) lx1) as [l|]; [|done].
    simpl in *. by injection IH as ->.
Qed.

(** C5, as stated, fails: a byte that [Helper::Char] has no case for is
    read and returned as an Eof, in the middle of the input, and the next
    call goes on with the rest.  On [a $ b] the Eof for the [$] is followed
    by the Id of [b]. *)
Lemma Eof_before_the_end_of_input :
  tokens 5 "a $ b"
  = Some [token_type.Id "a"; token_type.Eof; token_type.Id "b"; token_type.Newline;
          token_type.Eof]
  ∧ ¬ Eof_is_final "a $ b".
Proof.
  split; [vm_compute; reflexivity|].
  intros H.
  specialize (H 3 [token_type.Id "a"; token_type.Eof; token_type.Id "b"] 1 2).
  discriminate H; [vm_compute; reflexivity|reflexivity|lia|simpl; lia].
Qed.

(** C5, amended: the Eof at the end of the input is final.  Once the input
    is used up, whatever it was, the calls of [NextToken] return one Dedent
    for each level of the depth counter, then a single Newline if no Dedent
    was returned and the token before is not an Eof, a Dedent or a Newline,
    and from then on Eof, however often the lexer is called: no call
    throws, and no other token follows. *)
Theorem tokens_at_end_of_input (lx : Lexer) (k : nat) :
  reachable lx → peek_is_eof (input_ lx) = true →
  option_map (map fst) (tokens_from (length (end_tokens lx) + k) lx)
  = Some (end_tokens lx ++ repeat token_type.Eof k).
Proof.
  intros Hreach Heof.
  apply reachable_inv in Hreach as [H0 _].
  apply (tokens_from_end (Z.to_nat (indent_count_ lx))); [done|lia].
Qed.

(** The state after the last of the tokens [tokens_from] returns is one the
    lexer goes through. *)
Lemma tokens_from_reachable (n : nat) (lx : Lexer) l t lx' :
  reachable lx → tokens_from n lx = Some l → last l = Some (t, lx') → reachable lx'.
Proof.
  revert lx l. induction n as [|n IH]; intros lx l Hreach; simpl.
  { intros [= <-]. done. }
  destruct (NextToken lx) as [[t1 lx1]| | | |] eqn:Hnext; try done.
  destruct (tokens_from n lx1) as [l1|] eqn:Hl1; [|done]. simpl.
  intros [= <-] Hlast.
  assert (reachable lx1) as Hr1 by (by eapply reachable_next).
  destruct l1 as [|p l1'].
  - simpl in Hlast. by injection Hlast as <- <-.
  - eapply (IH lx1 (p :: l1')); [done..|].
    by rewrite last_cons_cons in Hlast.
Qed.

Lemma lexer_after_nested_b_reachable : reachable lexer_after_nested_b.
Proof.
  eapply (tokens_from_reachable 5
            (Lexer_start (list_ascii_of_string ("a:" +:+ String.String LF "  b")))).
  - apply reachable_start.
  - vm_compute. reflexivity.
  - reflexivity.
Qed.

Lemma tokens_at_end_of_input_witness :
  reachable lexer_after_nested_b ∧
  peek_is_eof (input_ lexer_after_nested_b) = true ∧
  option_map (map fst) (tokens_from 3 lexer_after_nested_b)
  = Some [token_type.Dedent; token_type.Eof; token_type.Eof].
Proof.
  split; [apply lexer_after_nested_b_reachable|]. split; [reflexivity|].
  exact (tokens_at_end_of_input lexer_after_nested_b 2
           lexer_after_nested_b_reachable eq_refl).
Defined.

(** ** Blank lines *)

Lemma read_while_spaces (n : nat) (rest : istream) :
  peek_is SPACE rest = false →
  read_while (is_char SPACE) (repeat SPACE n ++ rest) = (repeat SPACE n, rest).
Proof.
  intros Hrest. induction n as [|n IH]; simpl.
  - destruct rest as [|c r]; [done|]. simpl in *. by rewrite Hrest.
  - replace (is_char SPACE SPACE) with true by done. by rewrite IH.
Qed.

(** A line feed at a line start is dropped. *)
Lemma NextToken_line_feed (rest : istream) (cnt : Z) (eq : bool) :
  NextToken (mkLexer (LF :: rest) token_type.Newline cnt eq)
  = NextToken (mkLexer rest token_type.Newline cnt eq).
Proof.
  rewrite NextToken_unfold. unfold NextToken_body. simpl.
  replace (nat_of_ascii LF =? 255) with false by done.
  replace (isalpha LF) with false by done.
  replace (isdigit LF) with false by done.
  replace (is_char QUOT LF || is_char APOS LF) with false by done.
  unfold Helper.Char. simpl.
  replace (is_char LF LF) with true by done.
  unfold set_input. simpl. apply NextToken_store.
Qed.

(** Spaces and a line feed after a Newline: [Helper::Indent] reads the
    spaces and hands over to [NextToken] in front of the line feed. *)
Lemma NextToken_blank_line (n : nat) (rest : istream) (cnt : Z) (eq : bool) :
  0 < n →
  NextToken (mkLexer (repeat SPACE n ++ LF :: rest) token_type.Newline cnt eq)
  = NextToken (mkLexer rest token_type.Newline cnt false).
Proof.
  intros Hn.
  transitivity (NextToken (mkLexer (LF :: rest) token_type.Newline cnt false));
    [|apply NextToken_line_feed].
  rewrite NextToken_unfold. unfold NextToken_body.
  destruct n as [|n]; [lia|]. simpl.
  replace (nat_of_ascii SPACE =? 255) with false by done.
  replace (isalpha SPACE) with false by done.
  replace (isdigit SPACE) with false by done.
  replace (is_char QUOT SPACE || is_char APOS SPACE) with false by done.
  unfold Helper.Char. simpl.
  replace (is_char LF SPACE) with false by done.
  replace (is_char "+" SPACE || is_char "-" SPACE || is_char "*" SPACE || is_char "/" SPACE
           || is_char "." SPACE || is_char "," SPACE || is_char ":" SPACE
           || is_char "(" SPACE || is_char ")" SPACE) with false by done.
  replace (is_char "=" SPACE || is_char "!" SPACE || is_char ">" SPACE || is_char "<" SPACE)
    with false by done.
  replace (is_char SPACE SPACE) with true by done.
  unfold Helper.Space, Helper.Indent. simpl.
  change (SPACE :: repeat SPACE n ++ LF :: rest) with (repeat SPACE (S n) ++ LF :: rest).
  rewrite read_while_spaces by done. simpl.
  replace (is_char LF LF) with true by done.
  unfold set_input, set_indent_equal. simpl. apply NextToken_store.
Qed.

(** C9, as stated, fails: three spaces that end the input are an odd
    indentation for [Helper::Indent], and no content follows them.  The
    state is the one behind the Newline of the input [a], line feed, three
    spaces, where [NextToken] throws. *)
Lemma odd_spaces_at_end_of_input :
  tokens_from 2 (Lexer_start (list_ascii_of_string ("a" +:+ String.String LF "   ")))
  = Some [(token_type.Id "a",
           mkLexer (LF :: repeat SPACE 3) (token_type.Id "a") 0 false);
          (token_type.Newline, mkLexer (repeat SPACE 3) token_type.Newline 0 false)] ∧
  NextToken (mkLexer (repeat SPACE 3) token_type.Newline 0 false)
  = LexerError "Indent(): odd spaces" ∧
  ¬ odd_error_needs_content (mkLexer (repeat SPACE 3) token_type.Newline 0 false).
Proof.
  split; [by vm_compute|]. split; [by vm_compute|].
  intros H. apply H. intros NT. reflexivity.
Qed.

Lemma Indent_odd_error (lx : Lexer) :
  (∀ NT, Helper.Indent NT lx = LexerError "Indent(): odd spaces") ↔
  peek_is LF (snd (read_while (is_char SPACE) (input_ lx))) = false ∧
  Z.odd (Z.of_nat (length (fst (read_while (is_char SPACE) (input_ lx))))) = true.
Proof.
  unfold Helper.Indent. simpl.
  destruct (read_while (is_char SPACE) (input_ lx)) as [sp rest]; simpl.
  destruct (peek_is LF rest).
  { split; [|intros [? _]; done]. intros H. specialize (H (λ _, Hang)). done. }
  assert (Z.rem (Z.of_nat (length sp)) 2 = if Z.odd (Z.of_nat (length sp)) then 1 else 0)%Z
    as Hrem.
  { rewrite Z.rem_mod_nonneg by lia. rewrite Zmod_odd. done. }
  rewrite Hrem. destruct (Z.odd (Z.of_nat (length sp))); simpl.
  { split; done. }
  split; [|intros [_ ?]; done]. intros H. specialize (H (λ _, Hang)).
  repeat (case_match; try done).
Qed.

(** C9, amended.  For a lexer that stands at a line start (behind a Newline
    or a Dedent) of any input: a line of spaces and a line feed is read
    away, with the counter and the token before as they were, so that the
    call returns what it returns on the next line; it throws nothing and
    emits nothing for the blank line, whether the spaces are odd or even in
    number.  [Helper::Indent] throws "odd spaces" exactly when the spaces
    are odd in number and what follows them is no line feed: content, or the
    end of the input. *)
Theorem blank_line_is_skipped (lx : Lexer) :
  reachable lx →
  token_ lx = token_type.Newline ∨ token_ lx = token_type.Dedent →
  (∀ n rest, 0 < n → input_ lx = repeat SPACE n ++ LF :: rest →
     NextToken lx = NextToken (mkLexer rest token_type.Newline (indent_count_ lx) false)) ∧
  ((∀ NT, Helper.Indent NT lx = LexerError "Indent(): odd spaces") ↔
   peek_is LF (snd (read_while (is_char SPACE) (input_ lx))) = false ∧
   Z.odd (Z.of_nat (length (fst (read_while (is_char SPACE) (input_ lx))))) = true).
Proof.
  intros Hreach Hstart. split; [|apply Indent_odd_error].
  intros n rest Hn Hin.
  destruct Hstart as [Htok|Htok].
  - destruct lx as [input tok cnt eq]; simpl in *. subst.
    by apply NextToken_blank_line.
  - apply reachable_inv in Hreach as [_ HD].
    destruct n as [|n]; [lia|].
    destruct (HD Htok) as [HLF _]; [by rewrite Hin|].
    rewrite Hin in HLF.
    change (repeat SPACE (S n) ++ LF :: rest) with (repeat SPACE (S n) ++ (LF :: rest)) in HLF.
    rewrite read_while_spaces in HLF by done. done.
Qed.

Lemma lexer_before_blank_line_reachable : reachable lexer_before_blank_line.
Proof.
  eapply (tokens_from_reachable 2
            (Lexer_start (list_ascii_of_string ("a" +:+ String.String LF ("   " +:+ String.String LF "b"))))).
  - apply reachable_start.
  - vm_compute. reflexivity.
  - reflexivity.
Qed.

Lemma blank_line_is_skipped_witness :
  reachable lexer_before_blank_line ∧
  (token_ lexer_before_blank_line = token_type.Newline ∨
   token_ lexer_before_blank_line = token_type.Dedent) ∧
  NextToken lexer_before_blank_line
  = NextToken (mkLexer ["b"%char] token_type.Newline 0 false).
Proof.
  split; [apply lexer_before_blank_line_reachable|]. split; [by left|].
  exact (proj1 (blank_line_is_skipped lexer_before_blank_line
                  lexer_before_blank_line_reachable (or_introl eq_refl))
           3 ["b"%char] (Nat.lt_0_succ 2) eq_refl).
Defined.

(** ** Indentation *)

(** C4, on the code.  No line is indented by more than one pair of spaces
    beyond the line before.  When the third line starts with a number, the
    number is the next token after the Newline of the second line: one
    Indent and no Dedent were emitted when the line of depth 0 is scanned,
    and the Dedent comes only at the end of the input.  When the third line
    starts with a name, [Helper::Id] emits the Dedent before the name. *)
Lemma no_Dedent_before_a_number :
  tokens 8 (line_if +:+ line_y +:+ line_1)
  = Some [token_type.If; token_type.Id "x"; token_type.Char ":"; token_type.Newline;
          token_type.Indent; token_type.Id "y"; token_type.Newline;
          token_type.Number 1] ∧
  indent_balance [token_type.If; token_type.Id "x"; token_type.Char ":"; token_type.Newline;
                  token_type.Indent; token_type.Id "y"; token_type.Newline;
                  token_type.Number 1] = 1%Z ∧
  line_depth line_if = 0%Z ∧ line_depth line_y = 1%Z ∧ line_depth line_1 = 0%Z ∧
  tokens 11 (line_if +:+ line_y +:+ line_1)
  = Some [token_type.If; token_type.Id "x"; token_type.Char ":"; token_type.Newline;
          token_type.Indent; token_type.Id "y"; token_type.Newline;
          token_type.Number 1; token_type.Newline; token_type.Dedent; token_type.Eof] ∧
  tokens 9 (line_if +:+ line_y +:+ line_z)
  = Some [token_type.If; token_type.Id "x"; token_type.Char ":"; token_type.Newline;
          token_type.Indent; token_type.Id "y"; token_type.Newline;
          token_type.Dedent; token_type.Id "z"].
Proof. repeat split; vm_compute; reflexivity. Qed.

Lemma indent_balance_cons (t : Token) (ts : list Token) :
  indent_balance (t :: ts) = (token_step t + indent_balance ts)%Z.
Proof.
  unfold indent_balance, token_step. rewrite !filter_cons.
  repeat case_decide; subst; simpl; try done; lia.
Qed.

Section Counter.

Variable NT : Lexer → LexResult.
Hypothesis NT_counter : ∀ lx t lx',
  NT lx = Lexed (t, lx') → indent_count_ lx' = (indent_count_ lx + token_step t)%Z.

Lemma Id_lexeme_step (lx : Lexer) : token_step (fst (Helper.Id_lexeme lx)) = 0%Z.
Proof.
  unfold Helper.Id_lexeme.
  destruct (read_while _ (input_ lx)) as [run rest].
  repeat (case_match; try done).
Qed.

Lemma Id_counter (lx : Lexer) :
  indent_count_ (snd (Helper.Id lx))
  = (indent_count_ lx + token_step (fst (Helper.Id lx)))%Z.
Proof.
  unfold Helper.Id.
  destruct (indent_equal_ lx).
  { rewrite Id_lexeme_state, Id_lexeme_step. simpl. lia. }
  destruct ((Is token_type.Newline (token_ lx) || Is token_type.Dedent (token_ lx))
            && negb (indent_count_ lx =? 0)%Z).
  - simpl. unfold token_step. simpl. lia.
  - rewrite Id_lexeme_state, Id_lexeme_step. lia.
Qed.

Lemma Indent_counter (lx : Lexer) t lx' :
  Helper.Indent NT lx = Lexed (t, lx') →
  indent_count_ lx' = (indent_count_ lx + token_step t)%Z.
Proof.
  unfold Helper.Indent.
  destruct (read_while _ _) as [sp rest].
  destruct (peek_is LF rest); [intros HNT; apply NT_counter in HNT; exact HNT|].
  destruct (negb _); [done|].
  destruct (_ =? _)%Z; [intros HNT; apply NT_counter in HNT; exact HNT|].
  repeat (destruct (_ && _));
    try (intros [= <- <-]; simpl; unfold token_step; simpl; lia).
  destruct (_ <? _)%Z; intros [= <- <-]; simpl; unfold token_step; simpl; lia.
Qed.

Lemma Char_counter (lx : Lexer) t lx' :
  Helper.Char NT lx = Lexed (t, lx') →
  indent_count_ lx' = (indent_count_ lx + token_step t)%Z.
Proof.
  unfold Helper.Char.
  destruct (input_ lx) as [|c rest] eqn:Hin.
  { intros [= <- <-]. unfold token_step; simpl; lia. }
  destruct (is_char LF c).
  { case_match.
    - intros HNT. apply NT_counter in HNT. exact HNT.
    - intros [= <- <-]. unfold token_step; simpl; lia. }
  case_match.
  { intros [= <- <-]. unfold token_step; simpl; lia. }
  case_match.
  { unfold Helper.in_stream.
    destruct (Helper.Operation (c :: rest)) as [[t' r]| | | |] eqn:Hop; try done.
    intros [= <- <-]. simpl.
    assert (token_step t' = 0%Z) as ->; [|lia].
    revert Hop. unfold Helper.Operation.
    repeat (case_match; try done); intros [= <- <-]; done. }
  destruct (is_char SPACE c).
  { unfold Helper.Space. case_match; [apply Indent_counter|].
    intros HNT. apply NT_counter in HNT. exact HNT. }
  destruct (is_char HASH c).
  { unfold Helper.Comment. intros HNT. apply NT_counter in HNT. exact HNT. }
  destruct (is_char UNDERSCORE c).
  { destruct (Helper.Id lx) as [t' l'] eqn:HId. intros [= <- <-].
    pose proof (Id_counter lx) as HI. by rewrite HId in HI. }
  intros [= <- <-]. unfold token_step; simpl; lia.
Qed.

Lemma NextToken_body_counter (lx : Lexer) t lx' :
  NextToken_body NT lx = Lexed (t, lx') →
  indent_count_ lx' = (indent_count_ lx + token_step t)%Z.
Proof.
  unfold NextToken_body.
  destruct (peek_is_eof (input_ lx)).
  { repeat case_match; intros [= <- <-]; unfold token_step; simpl; lia. }
  destruct (input_ lx) as [|c rest] eqn:Hin.
  { intros [= <- <-]. unfold token_step; simpl; lia. }
  destruct (isalpha c).
  { destruct (Helper.Id lx) as [t' l'] eqn:HId. intros [= <- <-].
    pose proof (Id_counter lx) as HI. by rewrite HId in HI. }
  destruct (isdigit c).
  { unfold Helper.in_stream, Helper.Number.
    destruct (read_while isdigit (c :: rest)) as [ds r].
    destruct (Helper.digits_value ds <=? INT_MAX)%Z; [|done].
    intros [= <- <-]. unfold token_step; simpl; lia. }
  destruct (is_char QUOT c || is_char APOS c).
  { unfold Helper.in_stream, Helper.String.
    destruct (Helper.String_loop c rest []) as [[t' r]| | | |] eqn:Hs; try done.
    intros [= <- <-]. simpl.
    assert (token_step t' = 0%Z) as ->; [|lia].
    assert (∀ input s, Helper.String_loop c input s = Lexed (t', r) → ∃ v, t' = token_type.String v)
      as Hstr.
    { clear. intros input. remember (length input) as n eqn:Hn.
      assert (length input ≤ n) as Hle by lia. clear Hn.
      revert input Hle. induction n as [|n IH]; intros input Hle s.
      { destruct input; simpl in *; [done|lia]. }
      destruct input as [|d input']; simpl in *; [done|].
      destruct (is_char c d); [intros [= <- <-]; eauto|].
      destruct (is_char BACKSLASH d).
      - destruct input' as [|e input'']; [done|]. simpl in Hle.
        repeat (case_match; try done); apply IH; lia.
      - apply IH; lia. }
    destruct (Hstr _ _ Hs) as [v ->]. done. }
  destruct (Helper.Char NT lx) as [[t' l']| | | |] eqn:HC; try done.
  intros [= <- <-]. simpl. by apply (Char_counter lx).
Qed.

End Counter.

Lemma NextToken_counter (lx : Lexer) t lx' :
  NextToken lx = Lexed (t, lx') → indent_count_ lx' = (indent_count_ lx + token_step t)%Z.
Proof.
  unfold NextToken. generalize (enough_fuel lx). intros fuel. revert lx t lx'.
  induction fuel as [|fuel IH]; intros lx t lx'; [done|]. simpl.
  by apply NextToken_body_counter.
Qed.

(** What does hold, for every input and whatever begins a line: at every
    prefix of the tokens, the Indent tokens less the Dedent tokens are the
    depth counter of the lexer. *)
Lemma indent_balance_is_the_counter (n : nat) (lx : Lexer) l :
  tokens_from n lx = Some l →
  (indent_count_ (default lx (snd <$> last l))
   = indent_count_ lx + indent_balance (map fst l))%Z.
Proof.
  revert lx l. induction n as [|n IH]; intros lx l; simpl.
  { intros [= <-]. simpl. unfold indent_balance. simpl. lia. }
  destruct (NextToken lx) as [[t lx1]| | | |] eqn:Hnext; try done.
  destruct (tokens_from n lx1) as [l1|] eqn:Hl1; [|done]. simpl.
  intros [= <-]. specialize (IH lx1 l1 Hl1).
  apply NextToken_counter in Hnext.
  rewrite map_cons, indent_balance_cons. simpl fst.
  destruct l1 as [|p l1']; [simpl in *; unfold indent_balance; simpl; lia|].
  rewrite last_cons_cons.
  destruct (last (p :: l1')) as [q|] eqn:Hq; [simpl in *; lia|].
  by apply last_None in Hq.
Qed.

(** ** The executor: objects stay what they are *)

Lemma state_extends_refl (st : State) : state_extends st st.
Proof. intros a o H. destruct o; eauto. Qed.

Lemma state_extends_trans (st1 st2 st3 : State) :
  state_extends st1 st2 → state_extends st2 st3 → state_extends st1 st3.
Proof.
  intros H12 H23 a o H. specialize (H12 a o H).
  destruct o; try (by apply (H23 a _ H12)).
  destruct H12 as [f Hf]. apply (H23 a _ Hf).
Qed.

Lemma state_extends_Own (o : Object) (st : State) : state_extends st (snd (Own o st)).
Proof.
  intros a o' H. simpl.
  rewrite lookup_app_l by (by eapply lookup_lt_Some).
  destruct o'; eauto.
Qed.

Lemma state_extends_same_heap (st st' : State) :
  heap st' = heap st → state_extends st st'.
Proof. unfold state_extends. intros ->. intros a o H. destruct o; eauto. Qed.

Lemma state_extends_write (os : ostream) (text : string) (st : State) :
  state_extends st (snd (write os text st)).
Proof. destruct os; simpl; by apply state_extends_same_heap. Qed.

Lemma extending_ret {A : Type} (a : A) : extending (ret a).
Proof. intros cl st. apply state_extends_refl. Qed.

Lemma extending_throw {A : Type} (what : string) : extending (@throw A what).
Proof. intros cl st. apply state_extends_refl. Qed.

Lemma extending_undefined {A : Type} : extending (@undefined A).
Proof. intros cl st. apply state_extends_refl. Qed.

Lemma extending_bind {A B : Type} (m : Exec A) (k : A → Exec B) :
  extending m → (∀ a, extending (k a)) → extending (bind m k).
Proof.
  intros Hm Hk cl st. unfold bind. specialize (Hm cl st).
  destruct (m cl st) as [[r cl'] st']. simpl in Hm.
  destruct r; simpl; try done.
  eapply state_extends_trans; [done|apply Hk].
Qed.

Lemma extending_get_state : extending get_state.
Proof. intros cl st. apply state_extends_refl. Qed.

Lemma extending_on_state {A : Type} (f : State → Outcome A * State) :
  state_extending f → extending (on_state f).
Proof.
  intros Hf cl st. unfold on_state. specialize (Hf st).
  by destruct (f st) as [r st'].
Qed.

Lemma extending_own (o : Object) : extending (own o).
Proof. intros cl st. apply (state_extends_Own o st). Qed.

Lemma extending_assign (name : string) (h : ObjectHolder) : extending (assign name h).
Proof. intros cl st. apply state_extends_refl. Qed.

Lemma extending_put (text : string) : extending (put text).
Proof. intros cl st. by apply state_extends_same_heap. Qed.

Lemma extending_assign_field (self : addr) (name : string) (h : ObjectHolder) :
  extending (assign_field self name h).
Proof.
  intros cl st. unfold assign_field.
  destruct (heap st !! self) as [[| | | |cls fields]|] eqn:Hself;
    try apply state_extends_refl.
  intros a o H. simpl.
  destruct (decide (a = self)) as [Heq|Hne].
  - subst a. assert (o = ClassInstance cls fields) as -> by congruence.
    rewrite list_lookup_insert_eq by (by eapply lookup_lt_Some). eauto.
  - rewrite list_lookup_insert_ne by done. destruct o; eauto.
Qed.

Lemma extending_VariableValue_Execute (v : ast.VariableValue) :
  extending (VariableValue_Execute v).
Proof.
  intros cl st. unfold VariableValue_Execute.
  repeat case_match; apply state_extends_refl.
Qed.

#[local] Hint Resolve extending_ret extending_throw extending_undefined extending_get_state
  extending_own extending_assign extending_put extending_assign_field
  extending_VariableValue_Execute : extending.

Section Extending.

Variable fuel : nat.
Variable E : ast.Statement → Exec ObjectHolder.
Hypothesis E_extending : ∀ s, extending (E s).

Lemma Call_extending (self : addr) (method : string) (args : list ObjectHolder) :
  state_extending (Call E self method args).
Proof.
  intros st. unfold Call.
  repeat (case_match; try apply state_extends_refl).
  subst. simpl.
  match goal with
  | H : E ?b ?c ?s = _ |- _ => pose proof (E_extending b c s) as Hx; by rewrite H in Hx
  end.
Qed.

Lemma Print_extending (n : nat) (obj : addr) (os : ostream) :
  state_extending (Print E n obj os).
Proof.
  revert obj os. induction n as [|n IH]; intros obj os st; simpl;
    [apply state_extends_refl|].
  destruct (heap st !! obj) as [[v|v|v|nm ms p|cls fields]|];
    try apply state_extends_write; try apply state_extends_refl.
  destruct (HasMethod st obj "__str__" 0); [|apply state_extends_write].
  pose proof (Call_extending obj "__str__" [] st) as HC.
  destruct (Call E obj "__str__" [] st) as [[[r|]|w| |] st']; simpl in *; try done.
  - eapply state_extends_trans; [done|apply IH].
  - eapply state_extends_trans; [done|apply state_extends_write].
Qed.

Lemma Equal_extending (lhs rhs : ObjectHolder) : state_extending (Equal E lhs rhs).
Proof.
  intros st. unfold Equal.
  repeat (case_match; try apply state_extends_refl); subst; simpl;
  match goal with
  | H : Call E ?a ?m ?l ?s = _ |- _ =>
      pose proof (Call_extending a m l s) as Hx; by rewrite H in Hx
  end.
Qed.

Lemma Less_extending (lhs rhs : ObjectHolder) : state_extending (Less E lhs rhs).
Proof.
  intros st. unfold Less.
  repeat (case_match; try apply state_extends_refl); subst; simpl;
  match goal with
  | H : Call E ?a ?m ?l ?s = _ |- _ =>
      pose proof (Call_extending a m l s) as Hx; by rewrite H in Hx
  end.
Qed.

Lemma NotEqual_extending (lhs rhs : ObjectHolder) : state_extending (NotEqual E lhs rhs).
Proof.
  intros st. unfold NotEqual. pose proof (Equal_extending lhs rhs st).
  by destruct (Equal E lhs rhs st) as [[] ?].
Qed.

Lemma Greater_extending (lhs rhs : ObjectHolder) : state_extending (Greater E lhs rhs).
Proof.
  intros st. unfold Greater. pose proof (Less_extending lhs rhs st) as HL.
  destruct (Less E lhs rhs st) as [[[]| | |] st']; simpl in *; try done.
  pose proof (Equal_extending lhs rhs st') as HE.
  destruct (Equal E lhs rhs st') as [[] st'']; simpl in *;
    by eapply state_extends_trans.
Qed.

Lemma LessOrEqual_extending (lhs rhs : ObjectHolder) :
  state_extending (LessOrEqual E lhs rhs).
Proof.
  intros st. unfold LessOrEqual. pose proof (Greater_extending lhs rhs st).
  by destruct (Greater E lhs rhs st) as [[] ?].
Qed.

Lemma GreaterOrEqual_extending (lhs rhs : ObjectHolder) :
  state_extending (GreaterOrEqual E lhs rhs).
Proof.
  intros st. unfold GreaterOrEqual. pose proof (Less_extending lhs rhs st).
  by destruct (Less E lhs rhs st) as [[] ?].
Qed.

Ltac extending_step :=
  first
    [ apply extending_bind; [|intros ?]
    | apply extending_on_state
    | apply E_extending
    | apply Call_extending
    | apply Print_extending
    | solve [auto with extending]
    | case_match ].

Lemma Execute_args_extending (args : list ast.Statement) :
  extending (Execute_args E args).
Proof. induction args as [|arg args IH]; simpl; repeat extending_step; done. Qed.

Lemma Print_loop_extending (first : bool) (args : list ast.Statement) :
  extending (Print_loop fuel E first args).
Proof.
  revert first. induction args as [|arg args IH]; intros first; cbn [Print_loop];
    repeat extending_step; done.
Qed.

Lemma Compound_loop_extending (stmts : list ast.Statement) :
  extending (Compound_loop E stmts).
Proof. induction stmts as [|s stmts IH]; simpl; repeat extending_step; done. Qed.

Lemma compare_with_extending (cmp : ast.Comparator) (lhs rhs : ObjectHolder) :
  extending (compare_with E cmp lhs rhs).
Proof.
  apply extending_on_state.
  destruct cmp; auto using Equal_extending, NotEqual_extending, Less_extending,
    Greater_extending, LessOrEqual_extending, GreaterOrEqual_extending.
Qed.

Lemma MethodBody_Execute_extending (body_ : ast.Statement) :
  extending (MethodBody_Execute E body_).
Proof.
  intros cl st. unfold MethodBody_Execute. pose proof (E_extending body_ cl st) as H.
  destruct (E body_ cl st) as [[r cl'] st']. simpl in H.
  repeat case_match; done.
Qed.

Lemma Execute_body_extending (s : ast.Statement) : extending (Execute_body fuel E s).
Proof.
  destruct s; cbn [Execute_body];
    try apply MethodBody_Execute_extending;
    unfold Add_holders, Sub_holders, Mult_holders, Div_holders, NewInstance_Execute;
    repeat first
      [ apply Execute_args_extending
      | apply Print_loop_extending
      | apply Compound_loop_extending
      | apply compare_with_extending
      | extending_step ].
Qed.

End Extending.

(** Whatever a statement does, the objects of the store of the embedding,
    which frees nothing, stay: an instance is still an instance of its
    class afterwards, and a number, a string, a truth value and a class are
    unchanged. *)
Lemma Execute_extending (fuel : nat) (s : ast.Statement) : extending (Execute fuel s).
Proof.
  revert s. induction fuel as [|fuel IH]; intros s.
  - intros cl st. apply state_extends_refl.
  - simpl. by apply Execute_body_extending.
Qed.

(** ** [MethodBody] and the errors of its body *)

(** [MethodBody::Execute] never throws: the handler returns for every
    [std::runtime_error], whatever its text. *)
Lemma MethodBody_never_throws (fuel : nat) (body_ : ast.Statement) closure st what :
  fst (fst (Execute fuel (ast.MethodBody body_) closure st)) ≠ Throw what.
Proof.
  destruct fuel as [|fuel]; [done|]. simpl. unfold MethodBody_Execute.
  destruct (Execute fuel body_ closure st) as [[[]] ?]; simpl; try done.
  repeat case_match; done.
Qed.

(** An error of the body that is not the return signal ends the method
    with the empty holder. *)
Lemma MethodBody_swallows (fuel : nat) (body_ : ast.Statement) closure st what closure' st' :
  Execute fuel body_ closure st = (Throw what, closure', st') → what ≠ "return" →
  Execute (S fuel) (ast.MethodBody body_) closure st = (Ret None, closure', st').
Proof.
  intros H Hw. simpl. unfold MethodBody_Execute. rewrite H.
  destruct (String.eqb what "return") eqn:Heq; [|done].
  by apply String.eqb_eq in Heq.
Qed.

(** What the handler does with the return signal, and the body that ends
    without one. *)
Lemma MethodBody_catches_return (fuel : nat) (body_ : ast.Statement) closure st closure' st' :
  Execute fuel body_ closure st = (Throw "return", closure', st') →
  Execute (S fuel) (ast.MethodBody body_) closure st
  = (Ret (default None (closure' !! "return")), closure', st').
Proof.
  intros H. simpl. unfold MethodBody_Execute. rewrite H. simpl.
  by destruct (closure' !! "return").
Qed.

Lemma Return_stashes (fuel : nat) (statement_ : ast.Statement) closure st h closure' st' :
  Execute fuel statement_ closure st = (Ret h, closure', st') →
  Execute (S fuel) (ast.Return statement_) closure st
  = (Throw "return", <["return" := h]> closure', st').
Proof. intros H. simpl. unfold bind, assign, throw. by rewrite H. Qed.

Lemma MethodBody_without_return (fuel : nat) (body_ : ast.Statement) closure st h closure' st' :
  Execute fuel body_ closure st = (Ret h, closure', st') →
  Execute (S fuel) (ast.MethodBody body_) closure st = (Ret None, closure', st').
Proof. intros H. simpl. unfold MethodBody_Execute. by rewrite H. Qed.

(** C1, on the code.  The body [a / b] with [b] zero throws the error of
    the division; wrapped in a [MethodBody] the same body returns the empty
    holder, and the error is gone. *)
Lemma MethodBody_swallows_division_by_zero :
  Execute 2 (ast.Div (ast.Var "a") (ast.Var "b")) a_and_b one_and_zero
  = (Throw "Div(Number, 0): divide by zero", a_and_b, one_and_zero) ∧
  Execute 3 (ast.MethodBody (ast.Div (ast.Var "a") (ast.Var "b"))) a_and_b one_and_zero
  = (Ret None, a_and_b, one_and_zero).
Proof. split; reflexivity. Qed.

(** ** Dotted names *)

(** C3, on the code.  [a] is a number, not an instance, and has no field
    [b]; the lookup of [a.b] does not fail: [b] is looked up in the
    environment [a] was found in, and its holder is the result. *)
Lemma dotted_name_through_a_number :
  TryAs_ClassInstance (Some 0) one_and_two = None ∧
  Execute 1 (ast.Dotted ["a"; "b"]) a_and_b one_and_two = (Ret (Some 1), a_and_b, one_and_two).
Proof. split; reflexivity. Qed.

(** In general: the lookup moves into the fields of an instance, and a
    name whose holder is no instance leaves the environment of the lookup
    where it is. *)
Lemma dotted_loop_instance (st : State) (closure_ : Closure) result id ids found obj :
  closure_ !! id = Some found → TryAs_ClassInstance found st = Some obj →
  dotted_loop st closure_ result (id :: ids) = dotted_loop st (Fields obj st) found ids.
Proof. intros H1 H2. simpl. by rewrite H1, H2. Qed.

Lemma dotted_loop_not_an_instance (st : State) (closure_ : Closure) result id ids found :
  closure_ !! id = Some found → TryAs_ClassInstance found st = None →
  dotted_loop st closure_ result (id :: ids) = dotted_loop st closure_ found ids.
Proof. intros H1 H2. simpl. by rewrite H1, H2. Qed.

(** What does hold: the first name that is not in the environment at hand
    ends the lookup with the error. *)
Lemma dotted_loop_missing (st : State) (closure_ : Closure) result id ids :
  closure_ !! id = None →
  dotted_loop st closure_ result (id :: ids) = Throw "VariableValue(dotted.?)".
Proof. intros H. simpl. by rewrite H. Qed.

(** ** [ClassDefinition] *)

(** [VariableValue::Execute] changes neither the environment nor the state. *)
Lemma VariableValue_Execute_pure (v : ast.VariableValue) closure st :
  VariableValue_Execute v closure st = (fst (fst (VariableValue_Execute v closure st)), closure, st).
Proof. unfold VariableValue_Execute. repeat case_match; done. Qed.

Lemma NewInstance_no_args (E : ast.Statement → Exec ObjectHolder) (cls : addr) closure st :
  (∀ s, extending (E s)) →
  ∃ r st', NewInstance_Execute E cls [] closure st = (r, closure, st') ∧
    ∀ h, r = Ret h →
      h = Some (length (heap st)) ∧
      ∃ fields, heap st' !! length (heap st) = Some (ClassInstance cls fields).
Proof.
  intros HE. unfold NewInstance_Execute, bind, own, get_state. simpl.
  set (st1 := mkState (heap st ++ [ClassInstance cls ∅]) (output st)).
  assert (heap st1 !! length (heap st) = Some (ClassInstance cls ∅)) as Hnew.
  { unfold st1; simpl. rewrite lookup_app_r by lia. by rewrite Nat.sub_diag. }
  destruct (HasMethod st1 (length (heap st)) "__init__" 0).
  - unfold ret, on_state.
    pose proof (Call_extending E HE (length (heap st)) "__init__" [] st1) as Hext.
    destruct (Call E (length (heap st)) "__init__" [] st1) as [r st'] eqn:HC.
    simpl in Hext. specialize (Hext _ _ Hnew). simpl in Hext.
    destruct r; simpl; eexists _, _; (split; [done|]); intros h' [=]; subst; done.
  - unfold ret. eexists _, _. split; [done|]. intros h' [= <-]. split; [done|]. eauto.
Qed.

(** C2, as stated, fails: [A] is bound to a new object, an instance of the
    class, not to the class. *)
Lemma ClassDefinition_does_not_bind_the_class :
  ¬ ClassDefinition_binds_the_class (Some 0) ∅ class_A.
Proof.
  intros H. destruct (H 2 _ _ _ eq_refl) as (name & Hname & Heq).
  injection Hname as <-.
  apply (f_equal (λ m : Closure, m !! "A")) in Heq.
  vm_compute in Heq. discriminate.
Qed.

(** C2, amended.  For a node whose holder is that of the class [cls], with
    [new_obj] the next address of the store and [st1] the store with a new
    instance of [cls], without fields, at that address.
    - When the class has no [__init__] without parameters, [Execute]
      returns the holder of the new instance, the name of the class is
      bound to it, the environment is otherwise as it was, and the state is
      [st1].
    - When it has one, [__init__] is called on the new instance in [st1].
      If the call returns, in the state [st2], [Execute] returns the holder
      of the new instance, which still is an instance of [cls], the name is
      bound to it, the environment is otherwise as it was and the state is
      [st2]: what [__init__] did is done.  If the call does not return,
      neither does [Execute], and nothing is bound.
    - Whenever [Execute] returns, with whatever fuel, what it returns is the
      holder of the new instance, and the name of the class is bound to it
      and nothing else is changed in the environment. *)
Theorem ClassDefinition_binds_a_new_instance
  (cls : addr) (name : string) methods parent closure st :
  heap st !! cls = Some (Class name methods parent) →
  let new_obj := length (heap st) in
  let st1 := mkState (heap st ++ [ClassInstance cls ∅]) (output st) in
  heap st !! new_obj = None ∧
  (HasMethod st1 new_obj "__init__" 0 = false →
   ∀ fuel,
     Execute (S (S fuel)) (ast.ClassDefinition (Some cls)) closure st
     = (Ret (Some new_obj), <[name := Some new_obj]> closure, st1)) ∧
  (HasMethod st1 new_obj "__init__" 0 = true →
   ∀ fuel r st2,
     Call (Execute fuel) new_obj "__init__" [] st1 = (r, st2) →
     (∀ h, r = Ret h →
        Execute (S (S fuel)) (ast.ClassDefinition (Some cls)) closure st
        = (Ret (Some new_obj), <[name := Some new_obj]> closure, st2) ∧
        ∃ fields, heap st2 !! new_obj = Some (ClassInstance cls fields)) ∧
     ((∀ h, r ≠ Ret h) →
        Execute (S (S fuel)) (ast.ClassDefinition (Some cls)) closure st
        = (pass r, closure, st2))) ∧
  (∀ fuel r closure' st',
     Execute fuel (ast.ClassDefinition (Some cls)) closure st = (Ret r, closure', st') →
     r = Some new_obj ∧
     closure' = <[name := r]> closure ∧
     ∃ fields, heap st' !! new_obj = Some (ClassInstance cls fields)).
Proof.
  intros Hcls new_obj st1.
  assert (heap st1 !! new_obj = Some (ClassInstance cls ∅)) as Hnew.
  { unfold st1, new_obj; simpl. rewrite lookup_app_r by lia. by rewrite Nat.sub_diag. }
  assert (∀ fuel,
            Execute (S (S fuel)) (ast.ClassDefinition (Some cls)) closure st
            = match NewInstance_Execute (Execute fuel) cls [] closure st with
              | (Ret h, closure', st') => (Ret h, <[name := h]> closure', st')
              | (r, closure', st') => (pass r, closure', st')
              end) as Hunfold.
  { intros fuel. simpl.
    unfold bind at 1. unfold get_state at 1. unfold TryAs_Class, GetName. simpl.
    rewrite Hcls. unfold bind at 1.
    by destruct (NewInstance_Execute (Execute fuel) cls [] closure st) as [[[]] ?]. }
  split_and!.
  - apply lookup_ge_None. unfold new_obj. lia.
  - intros Hinit fuel. rewrite Hunfold.
    unfold NewInstance_Execute, bind, own, get_state. simpl.
    fold new_obj st1. by rewrite Hinit.
  - intros Hinit fuel r st2 Hcall.
    assert (NewInstance_Execute (Execute fuel) cls [] closure st
            = match r with
              | Ret _ => (Ret (Some new_obj), closure, st2)
              | _ => (pass r, closure, st2)
              end) as HNew.
    { unfold NewInstance_Execute, bind, own, get_state. simpl.
      fold new_obj st1. rewrite Hinit. simpl. unfold on_state. rewrite Hcall.
      by destruct r. }
    split.
    + intros h ->. rewrite Hunfold, HNew. split; [done|].
      pose proof (Call_extending (Execute fuel) (Execute_extending fuel)
                    new_obj "__init__" [] st1) as Hext.
      rewrite Hcall in Hext. apply (Hext _ _ Hnew).
    + intros Hr. rewrite Hunfold, HNew. destruct r; [by destruct (Hr a)|done..].
  - intros fuel r closure' st'.
    destruct fuel as [|[|fuel]]; [done| |].
    { simpl. unfold bind at 1. unfold get_state at 1. unfold TryAs_Class, GetName. simpl.
      rewrite Hcls. by unfold bind at 1. }
    rewrite Hunfold.
    destruct (NewInstance_no_args (Execute fuel) cls closure st (Execute_extending fuel))
      as (r0 & st0 & -> & Hr0).
    destruct r0 as [h| | |]; simpl; try done.
    destruct (Hr0 h eq_refl) as [-> Hfields].
    by intros [= <- <- <-].
Qed.

Lemma ClassDefinition_binds_a_new_instance_witness :
  heap class_A_with_init !! 0
  = Some (Class "A" [mkMethod "__init__" [] (ast.MethodBody (ast.Print []))] None) ∧
  HasMethod
    (mkState (heap class_A_with_init ++ [ClassInstance 0 ∅]) (output class_A_with_init))
    1 "__init__" 0 = true ∧
  Execute 4 (ast.ClassDefinition (Some 0)) ∅ class_A_with_init
  = (Ret (Some 1), <["A" := Some 1]> ∅,
     mkState [Class "A" [mkMethod "__init__" [] (ast.MethodBody (ast.Print []))] None;
              ClassInstance 0 ∅]
       (String.String LF EmptyString)).
Proof.
  split; [reflexivity|]. split; [reflexivity|].
  exact (proj1 (proj1 (proj1 (proj2 (proj2
           (ClassDefinition_binds_a_new_instance 0 "A" _ None ∅ class_A_with_init eq_refl)))
           eq_refl 2 (Ret None) _ eq_refl) None eq_refl)).
Defined.

(** ** [And] and [Or] *)

(** C6.  With the left operand evaluated to the holder [h]: a false [h]
    is the result of [And] and a true [h] the result of [Or], in the state
    the left operand left and whatever the right operand is, which is not
    run; an [h] that holds no truth value is an error.  Otherwise the right
    operand is run once, after the left, and its holder is the result if it
    holds a truth value, and an error if not. *)
Theorem And_Or_short_circuit (fuel : nat) (lhs rhs : ast.Statement) closure st h closure1 st1 :
  Execute fuel lhs closure st = (Ret h, closure1, st1) →
  (TryAs_Bool h st1 = Some false →
   Execute (S fuel) (ast.And lhs rhs) closure st = (Ret h, closure1, st1)) ∧
  (TryAs_Bool h st1 = Some true →
   Execute (S fuel) (ast.Or lhs rhs) closure st = (Ret h, closure1, st1)) ∧
  (TryAs_Bool h st1 = None →
   Execute (S fuel) (ast.And lhs rhs) closure st = (Throw "And(?, ?)", closure1, st1) ∧
   Execute (S fuel) (ast.Or lhs rhs) closure st = (Throw "Or(?, ?)", closure1, st1)) ∧
  (∀ h2 closure2 st2,
     Execute fuel rhs closure1 st1 = (Ret h2, closure2, st2) →
     (TryAs_Bool h st1 = Some true →
      Execute (S fuel) (ast.And lhs rhs) closure st
      = (match TryAs_Bool h2 st2 with Some _ => Ret h2 | None => Throw "And(?, ?)" end,
         closure2, st2)) ∧
     (TryAs_Bool h st1 = Some false →
      Execute (S fuel) (ast.Or lhs rhs) closure st
      = (match TryAs_Bool h2 st2 with Some _ => Ret h2 | None => Throw "Or(?, ?)" end,
         closure2, st2))).
Proof.
  intros Hlhs. simpl. unfold bind, get_state, ret, throw. rewrite Hlhs. simpl.
  split_and!.
  - by intros ->.
  - by intros ->.
  - by intros ->.
  - intros h2 closure2 st2 Hrhs. split.
    + intros ->. rewrite Hrhs. simpl. by destruct (TryAs_Bool h2 st2).
    + intros ->. rewrite Hrhs. simpl. by destruct (TryAs_Bool h2 st2).
Qed.

Lemma And_Or_short_circuit_witness :
  Execute 1 (ast.Var "f") f_and_t false_and_true = (Ret (Some 0), f_and_t, false_and_true) ∧
  TryAs_Bool (Some 0) false_and_true = Some false ∧
  Execute 2 (ast.And (ast.Var "f") (ast.Assignment "t" (ast.Var "f"))) f_and_t false_and_true
  = (Ret (Some 0), f_and_t, false_and_true).
Proof.
  split; [reflexivity|]. split; [reflexivity|].
  exact (proj1 (And_Or_short_circuit 1 (ast.Var "f") (ast.Assignment "t" (ast.Var "f"))
                  f_and_t false_and_true (Some 0) f_and_t false_and_true eq_refl) eq_refl).
Defined.

(** ** [Div] *)

(** C7, on the code.  [(z - m - o) / (z - o)] with [z = 0], [m = INT_MAX]
    and [o = 1]: the three subtractions stay in the range of [int] and give
    [INT_MIN] and [-1], two numbers with a divisor that is not zero.
    [Div::Execute] tests the divisor for zero and then divides: the
    quotient, [INT_MAX + 1], is no [int], and C++ defines no result for the
    division (on x86 the processor raises the division error and the
    interpreter is killed).  No number is returned, and no error thrown. *)
Lemma Div_INT_MIN_by_minus_one :
  Execute 4
    (ast.Div (ast.Sub (ast.Sub (ast.Var "z") (ast.Var "m")) (ast.Var "o"))
             (ast.Sub (ast.Var "z") (ast.Var "o")))
    z_m_o zero_max_one
  = (Undefined, z_m_o,
     mkState [Number 0; Number INT_MAX; Number 1;
              Number (-2147483647); Number INT_MIN; Number (-1)] "").
Proof. reflexivity. Qed.

(** What does hold.  With both operands evaluated, the left one first, to
    the holders [h1] and [h2]: two numbers with a divisor that is not zero,
    other than [INT_MIN] and [-1], give a new number, the quotient rounded
    toward zero ([Z.quot]); a zero divisor is the error of the division; a
    right operand that is no number and a left operand that is no number
    are the two type errors.  In the three error cases the state is the one
    the operands left: no method was called. *)
Theorem Div_of_numbers (fuel : nat) (lhs rhs : ast.Statement)
  closure st h1 closure1 st1 h2 closure2 st2 :
  Execute fuel lhs closure st = (Ret h1, closure1, st1) →
  Execute fuel rhs closure1 st1 = (Ret h2, closure2, st2) →
  (∀ a b, TryAs_Number h1 st2 = Some a → TryAs_Number h2 st2 = Some b →
     (b ≠ 0%Z → ¬ (a = INT_MIN ∧ b = (-1)%Z) →
      Execute (S fuel) (ast.Div lhs rhs) closure st
      = (Ret (Some (length (heap st2))), closure2,
         mkState (heap st2 ++ [Number (Z.quot a b)]) (output st2))) ∧
     (b = 0%Z →
      Execute (S fuel) (ast.Div lhs rhs) closure st
      = (Throw "Div(Number, 0): divide by zero", closure2, st2))) ∧
  (is_Some (TryAs_Number h1 st2) → TryAs_Number h2 st2 = None →
   Execute (S fuel) (ast.Div lhs rhs) closure st = (Throw "Div(Number, ?)", closure2, st2)) ∧
  (TryAs_Number h1 st2 = None →
   Execute (S fuel) (ast.Div lhs rhs) closure st = (Throw "Div(?, ?)", closure2, st2)).
Proof.
  intros Hlhs Hrhs. simpl. unfold bind. rewrite Hlhs, Hrhs.
  unfold Div_holders, bind, get_state, throw, undefined, own. simpl.
  split_and!.
  - intros a b Ha Hb. rewrite Ha, Hb. split.
    + intros Hb0 Hmin.
      destruct (b =? 0)%Z eqn:Hz; [by apply Z.eqb_eq in Hz|].
      destruct ((a =? INT_MIN)%Z && (b =? -1)%Z) eqn:Hov; [|done].
      apply andb_true_iff in Hov as [?%Z.eqb_eq ?%Z.eqb_eq]. by destruct Hmin.
    + by intros ->.
  - intros [a ->] ->. done.
  - intros ->. done.
Qed.

Lemma Div_of_numbers_witness :
  Execute 1 (ast.Var "a") a_and_b one_and_two = (Ret (Some 0), a_and_b, one_and_two) ∧
  Execute 1 (ast.Var "b") a_and_b one_and_two = (Ret (Some 1), a_and_b, one_and_two) ∧
  TryAs_Number (Some 0) one_and_two = Some 1%Z ∧
  TryAs_Number (Some 1) one_and_two = Some 2%Z ∧
  Execute 2 (ast.Div (ast.Var "a") (ast.Var "b")) a_and_b one_and_two
  = (Ret (Some 2), a_and_b, mkState [Number 1; Number 2; Number 0] "").
Proof.
  repeat (split; [reflexivity|]).
  refine (proj1 (proj1 (Div_of_numbers 1 (ast.Var "a") (ast.Var "b") a_and_b one_and_two
                          (Some 0) a_and_b one_and_two (Some 1) a_and_b one_and_two
                          eq_refl eq_refl) 1%Z 2%Z eq_refl eq_refl) _ _).
  - discriminate.
  - intros [H _]. discriminate H.
Defined.

(** [Z.quot] rounds toward zero. *)
Example quot_rounds_toward_zero :
  Z.quot 7 2 = 3%Z ∧ Z.quot (-7) 2 = (-3)%Z ∧ Z.quot 7 (-2) = (-3)%Z.
Proof. repeat split. Qed.

(** ** The derived comparisons *)

(** C8.  [!=] is the negation of [==]; [>] is "not [<] and not [==]"; [<=]
    is the negation of [>]; [>=] is the negation of [<]: the same truth
    value, the same final state, and the same error on the inputs where one
    is thrown.  In particular [!=] throws exactly when [==] does and [>=]
    exactly when [<] does. *)
Theorem derived_comparisons (E : ast.Statement → Exec ObjectHolder)
  (lhs rhs : ObjectHolder) (st : State) :
  NotEqual E lhs rhs st = negated (Equal E lhs rhs) st ∧
  Greater E lhs rhs st = and_then (negated (Less E lhs rhs)) (negated (Equal E lhs rhs)) st ∧
  LessOrEqual E lhs rhs st = negated (Greater E lhs rhs) st ∧
  GreaterOrEqual E lhs rhs st = negated (Less E lhs rhs) st ∧
  (∀ what, fst (NotEqual E lhs rhs st) = Throw what ↔ fst (Equal E lhs rhs st) = Throw what) ∧
  (∀ what, fst (GreaterOrEqual E lhs rhs st) = Throw what
           ↔ fst (Less E lhs rhs st) = Throw what) ∧
  (∀ what, fst (LessOrEqual E lhs rhs st) = Throw what
           ↔ fst (Greater E lhs rhs st) = Throw what) ∧
  (∀ what, fst (Greater E lhs rhs st) = Throw what ↔
           fst (Less E lhs rhs st) = Throw what ∨
           ∃ st', Less E lhs rhs st = (Ret false, st') ∧
                  fst (Equal E lhs rhs st') = Throw what).
Proof.
  split_and!.
  - done.
  - unfold Greater, negated, and_then.
    by destruct (Less E lhs rhs st) as [[[]| | |] st'].
  - done.
  - done.
  - intros what. unfold NotEqual. by destruct (Equal E lhs rhs st) as [[] ?].
  - intros what. unfold GreaterOrEqual. by destruct (Less E lhs rhs st) as [[] ?].
  - intros what. unfold LessOrEqual. by destruct (Greater E lhs rhs st) as [[] ?].
  - intros what. unfold Greater.
    destruct (Less E lhs rhs st) as [[[]| | |] st']; simpl.
    + split; [done|]. intros [?|(st'' & [=] & _)]; done.
    + destruct (Equal E lhs rhs st') as [[] st''] eqn:HE; simpl.
      * split; [done|]. intros [?|(? & [= <-] & H)]; [done|]. by rewrite HE in H.
      * split; [intros [= ->]|].
        -- right. exists st'. by rewrite HE.
        -- intros [?|(? & [= <-] & H)]; [done|]. by rewrite HE in H.
      * split; [done|]. intros [?|(? & [= <-] & H)]; [done|]. by rewrite HE in H.
      * split; [done|]. intros [?|(? & [= <-] & H)]; [done|]. by rewrite HE in H.
    + split; [by left|]. intros [?|(? & [=] & _)]; done.
    + split; [done|]. intros [?|(? & [=] & _)]; done.
    + split; [done|]. intros [?|(? & [=] & _)]; done.
Qed.

(** ** [Assignment] and [FieldAssignment] *)

(** What does hold.  With the right-hand side evaluated to the holder [h],
    [Assignment::Execute] returns [h], and the environment is the one the
    right-hand side left, with the name bound to [h].  For a receiver that
    [VariableValue::Execute] resolves to the instance [obj] and a right-hand
    side that is a variable, which changes nothing and so leaves [obj] with
    its owners, [FieldAssignment::Execute] returns the holder of the
    variable, and the state is the one before with the field of [obj] bound
    to it. *)
Lemma assignment_returns_the_bound_holder (fuel : nat) (value : ast.Statement)
  closure st h closure1 st1 :
  Execute fuel value closure st = (Ret h, closure1, st1) →
  (∀ name,
     Execute (S fuel) (ast.Assignment name value) closure st
     = (Ret h, <[name := h]> closure1, st1) ∧
     (<[name := h]> closure1 : Closure) !! name = Some h) ∧
  (∀ object name obj cls fields v,
     value = ast.VarValue v →
     VariableValue_Execute object closure st = (Ret (Some obj), closure, st) →
     heap st !! obj = Some (ClassInstance cls fields) →
     Execute (S fuel) (ast.FieldAssignment object name value) closure st
     = (Ret h, closure,
        mkState (<[obj := ClassInstance cls (<[name := h]> fields)]> (heap st)) (output st))).
Proof.
  intros Hvalue. split.
  - intros name. split; [|by rewrite lookup_insert_eq].
    simpl. unfold bind, assign, ret. by rewrite Hvalue.
  - intros object name obj cls fields v -> Hobj Hinst.
    assert (closure1 = closure ∧ st1 = st) as [-> ->].
    { destruct fuel as [|fuel]; [done|].
      simpl in Hvalue. rewrite VariableValue_Execute_pure in Hvalue.
      by injection Hvalue as _ <- <-. }
    simpl. unfold bind at 1. rewrite Hobj.
    unfold bind at 1. unfold get_state at 1.
    unfold TryAs_ClassInstance, Get. rewrite Hinst.
    unfold bind, assign_field, ret. by rewrite Hvalue, Hinst.
Qed.

Lemma assignment_returns_the_bound_holder_witness :
  Execute 1 (ast.Var "v") v_and_x seven_and_instance = (Ret (Some 0), v_and_x, seven_and_instance) ∧
  Execute 2 (ast.Assignment "y" (ast.Var "v")) v_and_x seven_and_instance
  = (Ret (Some 0), <["y" := Some 0]> v_and_x, seven_and_instance).
Proof.
  split; [reflexivity|].
  exact (proj1 (proj1 (assignment_returns_the_bound_holder 1 (ast.Var "v")
                         v_and_x seven_and_instance (Some 0) v_and_x seven_and_instance
                         eq_refl) "y")).
Defined.

Example field_assignment_on_instance :
  Execute 2 (ast.FieldAssignment (ast.mkVariableValue "x" []) "f" (ast.Var "v"))
    v_and_x seven_and_instance
  = (Ret (Some 0), v_and_x,
     mkState [Number 7; ClassInstance 2 (<["f" := Some 0]> ∅); Class "C" [] None] "").
Proof. reflexivity. Qed.

(** ** [FieldAssignment] and a receiver that is released *)

(** C10, on the code: [x.b.f = x.drop(one)].  [FieldAssignment::Execute]
    first resolves the receiver [x.b], the instance of [B] at the address 3,
    whose one owner is the field [b] of [x], and keeps a pointer to it.
    Then it evaluates the right-hand side: the call returns the holder of
    the number, and has bound the field [b] of [x] to it, so that no holder
    of the environment or of the store refers to the instance of [B] any
    more; [x.b] now is the number.  In the C++ the instance was destroyed
    with its last owner, and the field [f] is then written through the
    pointer into the destroyed object: there is no binding the holder
    returned could share its value with. *)
Lemma FieldAssignment_receiver_released :
  VariableValue_Execute (ast.mkVariableValue "" ["x"; "b"]) x_and_one x_with_b
  = (Ret (Some 3), x_and_one, x_with_b) ∧
  owned 3 x_and_one x_with_b = true ∧
  Execute 5 (ast.MethodCall (ast.Var "x") "drop" [ast.Var "one"]) x_and_one x_with_b
  = (Ret (Some 4), x_and_one, x_after_drop) ∧
  owned 3 x_and_one x_after_drop = false ∧
  VariableValue_Execute (ast.mkVariableValue "" ["x"; "b"]) x_and_one x_after_drop
  = (Ret (Some 4), x_and_one, x_after_drop).
Proof. repeat split; vm_compute; reflexivity. Qed.

(** ** Equality of tokens *)

(** X1.  [operator==] on tokens holds exactly for equal tokens, and [operator!=]
    exactly for different ones. *)
Theorem Token_equal_iff (lhs rhs : Token) :
  (Token_equal lhs rhs = true ↔ lhs = rhs) ∧
  (Token_not_equal lhs rhs = true ↔ lhs ≠ rhs).
Proof.
  assert (Token_equal lhs rhs = true ↔ lhs = rhs) as H.
  { unfold Token_equal.
    destruct lhs, rhs; simpl; try (split; [done|intros [=]]); try done.
    - rewrite Z.eqb_eq. split; [by intros ->|by intros [= ->]].
    - rewrite String.eqb_eq. split; [by intros ->|by intros [= ->]].
    - rewrite Ascii.eqb_eq. split; [by intros ->|by intros [= ->]].
    - rewrite String.eqb_eq. split; [by intros ->|by intros [= ->]]. }
  split; [done|]. unfold Token_not_equal.
  rewrite negb_true_iff. rewrite <- H. by destruct (Token_equal lhs rhs).
Qed.

(** ** The text of a token *)

Lemma string_length_append (s t : string) :
  String.length (s +:+ t) = String.length s + String.length t.
Proof.
  induction s as [|c s IH]; [done|].
  change (S (String.length (s +:+ t)) = S (String.length s + String.length t)).
  by rewrite IH.
Qed.

Lemma string_append_cancel_r (s1 s2 t : string) : s1 +:+ t = s2 +:+ t → s1 = s2.
Proof.
  revert s2. induction s1 as [|c1 s1 IH]; intros [|c2 s2] H; [done| | |].
  - apply (f_equal String.length) in H.
    change (String.length t = S (String.length (s2 +:+ t))) in H.
    rewrite string_length_append in H. lia.
  - apply (f_equal String.length) in H.
    change (S (String.length (s1 +:+ t)) = String.length t) in H.
    rewrite string_length_append in H. lia.
  - change (String.String c1 (s1 +:+ t) = String.String c2 (s2 +:+ t)) in H.
    injection H as -> H. f_equal. by apply IH.
Qed.

(** X30.  [operator<<] writes different texts for different tokens: the
    text identifies the token, its type and its value. *)
Theorem Token_print_identifies (t1 t2 : Token) :
  Token_print t1 = Token_print t2 ↔ t1 = t2.
Proof.
  split; [|by intros ->].
  destruct t1, t2; try done; unfold Token_print; intros H;
    do 2 apply String.app_inj in H; apply string_append_cancel_r in H.
  - by apply pretty_Z_inj in H as ->.
  - by rewrite H.
  - by injection H as ->.
  - by rewrite H.
Qed.

(** ** Newlines *)

Lemma Id_lexeme_not_Newline (lx : Lexer) : fst (Helper.Id_lexeme lx) ≠ token_type.Newline.
Proof.
  unfold Helper.Id_lexeme.
  destruct (read_while _ (input_ lx)) as [run rest].
  repeat (case_match; try done).
Qed.

Lemma Id_lexeme_token (lx : Lexer) : token_ (snd (Helper.Id_lexeme lx)) = token_ lx.
Proof.
  unfold Helper.Id_lexeme.
  destruct (read_while _ (input_ lx)) as [run rest].
  repeat (case_match; try done).
Qed.

Lemma String_loop_is_String (quot : ascii) (input : istream) (s : list ascii) t rest :
  Helper.String_loop quot input s = Lexed (t, rest) → ∃ v, t = token_type.String v.
Proof.
  remember (length input) as n eqn:Hn.
  assert (length input ≤ n) as Hle by lia. clear Hn.
  revert input s Hle. induction n as [|n IH]; intros input s Hle.
  { destruct input; simpl in *; [done|lia]. }
  destruct input as [|c input']; simpl in *; [done|].
  destruct (is_char quot c); [intros [= <- <-]; eauto|].
  destruct (is_char BACKSLASH c).
  - destruct input' as [|e input'']; [done|]. simpl in Hle.
    repeat (case_match; try done); apply IH; lia.
  - apply IH; lia.
Qed.

Lemma Id_not_Newline (lx : Lexer) : fst (Helper.Id lx) ≠ token_type.Newline.
Proof.
  unfold Helper.Id.
  destruct (indent_equal_ lx); [apply Id_lexeme_not_Newline|].
  destruct (_ && _); [done|apply Id_lexeme_not_Newline].
Qed.

Lemma Operation_not_Newline (input : istream) t rest :
  Helper.Operation input = Lexed (t, rest) → t ≠ token_type.Newline.
Proof.
  unfold Helper.Operation. repeat (case_match; try done); intros [= <- <-]; done.
Qed.

Section NoNewline.

Variable NT : Lexer → LexResult.
Hypothesis NT_no_Newline : ∀ lx t lx',
  token_ lx = token_type.Newline ∨ token_ lx = token_type.Eof →
  NT lx = Lexed (t, lx') → t ≠ token_type.Newline.

Lemma Char_no_Newline (lx : Lexer) t lx' :
  token_ lx = token_type.Newline ∨ token_ lx = token_type.Eof →
  Helper.Char NT lx = Lexed (t, lx') → t ≠ token_type.Newline.
Proof.
  intros Htok. unfold Helper.Char.
  destruct (input_ lx) as [|c rest] eqn:Hin; [by intros [= <- <-]|].
  destruct (is_char LF c).
  { replace (Is token_type.Eof (token_ lx) || Is token_type.Newline (token_ lx)) with true
      by (by destruct Htok as [-> | ->]).
    by apply NT_no_Newline. }
  case_match; [by intros [= <- <-]|].
  case_match.
  { unfold Helper.in_stream.
    destruct (Helper.Operation (c :: rest)) as [[t' r]| | | |] eqn:Hop; try done.
    intros [= <- <-]. by apply Operation_not_Newline in Hop. }
  destruct (is_char SPACE c).
  { unfold Helper.Space. case_match; [|by apply NT_no_Newline].
    unfold Helper.Indent.
    destruct (read_while _ _) as [sp r].
    destruct (peek_is LF r); [by apply NT_no_Newline|].
    destruct (negb _); [done|].
    destruct (_ =? _)%Z; [by apply NT_no_Newline|].
    repeat (destruct (_ && _)); try (by intros [= <- <-]).
    destruct (_ <? _)%Z; by intros [= <- <-]. }
  destruct (is_char HASH c); [by apply NT_no_Newline|].
  destruct (is_char UNDERSCORE c); [|by intros [= <- <-]].
  pose proof (Id_not_Newline lx) as HI.
  destruct (Helper.Id lx) as [t' l']. by intros [= <- <-].
Qed.

Lemma NextToken_body_no_Newline (lx : Lexer) t lx' :
  token_ lx = token_type.Newline ∨ token_ lx = token_type.Eof →
  NextToken_body NT lx = Lexed (t, lx') → t ≠ token_type.Newline.
Proof.
  intros Htok. unfold NextToken_body.
  destruct (peek_is_eof (input_ lx)).
  { destruct (negb (indent_count_ lx =? 0)%Z); [by intros [= <- <-]|].
    replace (negb (Is token_type.Eof (token_ lx)) && negb (Is token_type.Dedent (token_ lx))
             && negb (Is token_type.Newline (token_ lx))) with false
      by (by destruct Htok as [-> | ->]).
    by intros [= <- <-]. }
  destruct (input_ lx) as [|c rest] eqn:Hin; [by intros [= <- <-]|].
  destruct (isalpha c).
  { pose proof (Id_not_Newline lx) as HI.
    destruct (Helper.Id lx) as [t' l']. by intros [= <- <-]. }
  destruct (isdigit c).
  { unfold Helper.in_stream, Helper.Number.
    destruct (read_while isdigit (c :: rest)) as [ds r].
    destruct (Helper.digits_value ds <=? INT_MAX)%Z; [|done].
    by intros [= <- <-]. }
  destruct (is_char QUOT c || is_char APOS c).
  { unfold Helper.in_stream, Helper.String.
    destruct (Helper.String_loop c rest []) as [[t' r]| | | |] eqn:Hs; try done.
    intros [= <- <-]. by destruct (String_loop_is_String _ _ _ _ _ Hs) as [v ->]. }
  destruct (Helper.Char NT lx) as [[t' l']| | | |] eqn:HC; try done.
  intros [= <- <-]. by apply (Char_no_Newline lx _ l').
Qed.

End NoNewline.

(** X2.  Straight after a Newline, and as the first token of an input (after the
    Eof sentinel), [NextToken] never returns a Newline: the token stream has
    no empty line. *)
Theorem no_Newline_after_Newline (lx : Lexer) t lx' :
  token_ lx = token_type.Newline ∨ token_ lx = token_type.Eof →
  NextToken lx = Lexed (t, lx') → t ≠ token_type.Newline.
Proof.
  unfold NextToken. generalize (enough_fuel lx). intros fuel. revert lx t lx'.
  induction fuel as [|fuel IH]; intros lx t lx' Htok; [done|]. simpl.
  by apply NextToken_body_no_Newline.
Qed.

Lemma no_Newline_after_Newline_witness :
  let lx := mkLexer [LF; LF; "x"%char] token_type.Newline 0 false in
  (token_ lx = token_type.Newline ∨ token_ lx = token_type.Eof) ∧
  NextToken lx = Lexed (token_type.Id "x", mkLexer [] (token_type.Id "x") 0 false) ∧
  token_type.Id "x" ≠ token_type.Newline.
Proof.
  split; [by left|]. split; [reflexivity|].
  exact (no_Newline_after_Newline
           (mkLexer [LF; LF; "x"%char] token_type.Newline 0 false)
           (token_type.Id "x") (mkLexer [] (token_type.Id "x") 0 false)
           (or_introl eq_refl) eq_refl).
Defined.

(** ** Comments and leading blanks *)

Lemma getline_drops_line (text rest : istream) :
  LF ∉ text → getline (text ++ LF :: rest) = rest.
Proof.
  induction text as [|c text IH]; intros Hno; simpl.
  - by replace (is_char LF LF) with true by done.
  - destruct (is_char LF c) eqn:Hc.
    + apply Ascii.eqb_eq in Hc. subst. set_solver.
    + apply IH. set_solver.
Qed.

(** X3.  A comment is not seen: from the [#] up to the line feed that ends it
    the bytes are dropped, and the lexer goes on at the line feed, in the
    state it was in. *)
Theorem comment_is_skipped (lx : Lexer) (text rest : istream) :
  LF ∉ text →
  NextToken (set_input lx (HASH :: text ++ LF :: rest))
  = NextToken (set_input lx (LF :: rest)).
Proof.
  intros Hno. rewrite NextToken_unfold at 1. unfold NextToken_body. simpl.
  replace (nat_of_ascii HASH =? 255) with false by done.
  replace (isalpha HASH) with false by done.
  replace (isdigit HASH) with false by done.
  replace (is_char QUOT HASH || is_char APOS HASH) with false by done.
  unfold Helper.Char. simpl.
  replace (is_char LF HASH) with false by done.
  replace (is_char "+" HASH || is_char "-" HASH || is_char "*" HASH || is_char "/" HASH
           || is_char "." HASH || is_char "," HASH || is_char ":" HASH
           || is_char "(" HASH || is_char ")" HASH) with false by done.
  replace (is_char "=" HASH || is_char "!" HASH || is_char ">" HASH || is_char "<" HASH)
    with false by done.
  replace (is_char SPACE HASH) with false by done.
  replace (is_char HASH HASH) with true by done.
  unfold Helper.Comment. simpl. rewrite getline_drops_line by done.
  destruct lx as [input tok cnt eq]. unfold set_input. simpl. apply NextToken_store.
Qed.

Lemma comment_is_skipped_witness :
  LF ∉ [" "%char; "h"%char; "i"%char] ∧
  NextToken (set_input (Lexer_start []) (HASH :: [" "%char; "h"%char; "i"%char] ++ LF :: ["x"%char]))
  = NextToken (set_input (Lexer_start []) (LF :: ["x"%char])).
Proof.
  assert (LF ∉ [" "%char; "h"%char; "i"%char]) as H.
  { intros Hin. repeat (apply elem_of_cons in Hin as [Hin|Hin]; [discriminate Hin|]).
    by apply elem_of_nil in Hin. }
  split; [exact H|].
  exact (comment_is_skipped (Lexer_start []) [" "%char; "h"%char; "i"%char] ["x"%char] H).
Defined.

Lemma NextToken_start_space (input : istream) :
  NextToken (Lexer_start (SPACE :: input)) = NextToken (Lexer_start input).
Proof.
  assert (∀ i, NextToken (Lexer_start (SPACE :: i))
               = NextToken (Lexer_start (snd (read_while (is_char SPACE) i)))) as Hskip.
  { intros i. rewrite NextToken_unfold at 1. unfold NextToken_body. simpl.
    replace (nat_of_ascii SPACE =? 255) with false by done.
    replace (isalpha SPACE) with false by done.
    replace (isdigit SPACE) with false by done.
    replace (is_char QUOT SPACE || is_char APOS SPACE) with false by done.
    unfold Helper.Char. simpl.
    replace (is_char LF SPACE) with false by done.
    replace (is_char "+" SPACE || is_char "-" SPACE || is_char "*" SPACE || is_char "/" SPACE
             || is_char "." SPACE || is_char "," SPACE || is_char ":" SPACE
             || is_char "(" SPACE || is_char ")" SPACE) with false by done.
    replace (is_char "=" SPACE || is_char "!" SPACE || is_char ">" SPACE || is_char "<" SPACE)
      with false by done.
    replace (is_char SPACE SPACE) with true by done.
    unfold Helper.Space. simpl.
    replace (is_char SPACE SPACE) with true by done.
    destruct (read_while (is_char SPACE) i) as [sp r]. simpl.
    unfold set_input. simpl. apply NextToken_store. }
  rewrite Hskip. destruct input as [|c rest]; [done|]. simpl.
  destruct (is_char SPACE c) eqn:Hc; [|done].
  apply Ascii.eqb_eq in Hc. subst c. rewrite Hskip.
  by destruct (read_while (is_char SPACE) rest).
Qed.

Lemma NextToken_start_line_feed (input : istream) :
  NextToken (Lexer_start (LF :: input)) = NextToken (Lexer_start input).
Proof.
  rewrite NextToken_unfold at 1. unfold NextToken_body. simpl.
  replace (nat_of_ascii LF =? 255) with false by done.
  replace (isalpha LF) with false by done.
  replace (isdigit LF) with false by done.
  replace (is_char QUOT LF || is_char APOS LF) with false by done.
  unfold Helper.Char. simpl.
  replace (is_char LF LF) with true by done.
  unfold set_input. simpl. apply NextToken_store.
Qed.

(** X4.  Spaces and line feeds in front of the first token count for nothing:
    the first line may be indented by any number of spaces, odd or even,
    without an Indent and without the error of an odd indentation. *)
Theorem leading_blanks_are_skipped (blanks input : istream) :
  Forall (λ c, c = SPACE ∨ c = LF) blanks →
  NextToken (Lexer_start (blanks ++ input)) = NextToken (Lexer_start input).
Proof.
  induction 1 as [|c blanks [-> | ->] _ IH]; simpl; [done| |].
  - by rewrite NextToken_start_space.
  - by rewrite NextToken_start_line_feed.
Qed.

Lemma leading_blanks_are_skipped_witness :
  Forall (λ c, c = SPACE ∨ c = LF) [LF; SPACE; SPACE; SPACE] ∧
  NextToken (Lexer_start ([LF; SPACE; SPACE; SPACE] ++ ["x"%char]))
  = Lexed (token_type.Id "x", mkLexer [] (token_type.Id "x") 0 false).
Proof.
  assert (Forall (λ c, c = SPACE ∨ c = LF) [LF; SPACE; SPACE; SPACE]) as H.
  { repeat (apply List.Forall_cons; [first [by left|by right]|]). apply List.Forall_nil. }
  split; [exact H|].
  exact (eq_trans (leading_blanks_are_skipped [LF; SPACE; SPACE; SPACE] ["x"%char] H) eq_refl).
Defined.

(** ** String literals *)

Lemma is_char_true (c d : ascii) : is_char c d = true ↔ c = d.
Proof. apply Ascii.eqb_eq. Qed.

Lemma String_loop_escape (quot : ascii) (body rest : istream) (s : list ascii) :
  quot = QUOT ∨ quot = APOS →
  Helper.String_loop quot (escape body ++ quot :: rest) s
  = Lexed (token_type.String (string_of_list_ascii (rev s ++ body)), rest).
Proof.
  intros Hquot. revert s. induction body as [|c body IH]; intros s.
  - simpl. replace (is_char quot quot) with true by (symmetry; by apply is_char_true).
    by rewrite app_nil_r.
  - replace (rev s ++ c :: body) with (rev (c :: s) ++ body)
      by (simpl; by rewrite <- app_assoc).
    rewrite <- IH. unfold escape at 1. simpl. fold (escape body).
    unfold escape_byte.
    destruct (is_char LF c) eqn:H1.
    { apply is_char_true in H1. subst c. simpl.
      by destruct Hquot as [-> | ->]. }
    destruct (is_char "009"%char c) eqn:H2.
    { apply is_char_true in H2. subst c. simpl.
      by destruct Hquot as [-> | ->]. }
    destruct (is_char "013"%char c) eqn:H3.
    { apply is_char_true in H3. subst c. simpl.
      by destruct Hquot as [-> | ->]. }
    destruct (is_char QUOT c) eqn:H4.
    { apply is_char_true in H4. subst c. simpl.
      by destruct Hquot as [-> | ->]. }
    destruct (is_char APOS c) eqn:H5.
    { apply is_char_true in H5. subst c. simpl.
      by destruct Hquot as [-> | ->]. }
    destruct (is_char BACKSLASH c) eqn:H6.
    { apply is_char_true in H6. subst c. simpl.
      by destruct Hquot as [-> | ->]. }
    simpl. rewrite H6.
    by destruct Hquot as [-> | ->]; rewrite ?H4, ?H5.
Qed.

(** X5.  Every string of bytes can be written as a literal, between two
    quotation marks or two apostrophes, and [Helper::String] reads it back:
    the token holds the bytes, without the quotes and with the escape
    sequences undone, and the stream stands behind the closing quote. *)
Theorem string_literal_round_trip (quot : ascii) (body rest : istream) :
  quot = QUOT ∨ quot = APOS →
  Helper.String (quot :: escape body ++ quot :: rest)
  = Lexed (token_type.String (string_of_list_ascii body), rest).
Proof. intros Hquot. simpl. by rewrite String_loop_escape. Qed.

Lemma string_literal_round_trip_witness :
  (QUOT = QUOT ∨ QUOT = APOS) ∧
  Helper.String (QUOT :: ["a"%char; BACKSLASH; "n"%char; BACKSLASH; APOS] ++ QUOT :: ["+"%char])
  = Lexed (token_type.String (string_of_list_ascii ["a"%char; LF; APOS]), ["+"%char]).
Proof.
  split; [by left|].
  exact (string_literal_round_trip QUOT ["a"%char; LF; APOS] ["+"%char] (or_introl eq_refl)).
Defined.

(** X6.  A literal without its closing quote never becomes a token: when
    [Helper::String] returns one, the quote that opened the literal occurs
    again in the input.  (Without it the loop does not end, or ends with
    the error of an escape sequence.) *)
Theorem string_literal_needs_its_quote (quot : ascii) (input : istream) t rest :
  Helper.String (quot :: input) = Lexed (t, rest) → quot ∈ input.
Proof.
  simpl. generalize (@nil ascii). intros s.
  remember (length input) as n eqn:Hn.
  assert (length input ≤ n) as Hle by lia. clear Hn.
  revert input s Hle. induction n as [|n IH]; intros input s Hle.
  { destruct input; simpl in *; [done|lia]. }
  destruct input as [|c input']; simpl in *; [done|].
  destruct (is_char quot c) eqn:Hq.
  { apply is_char_true in Hq. subst. intros _. set_solver. }
  destruct (is_char BACKSLASH c).
  - destruct input' as [|e input'']; [done|]. simpl in Hle.
    assert (∀ s', Helper.String_loop quot input'' s' = Lexed (t, rest) → quot ∈ c :: e :: input'')
      as Hrec.
    { intros s' Hs'. apply IH in Hs'; [set_solver|lia]. }
    repeat (case_match; try done); apply Hrec.
  - intros Hs. apply IH in Hs; [set_solver|lia].
Qed.

Lemma string_literal_needs_its_quote_witness :
  Helper.String (APOS :: ["a"%char; APOS])
  = Lexed (token_type.String "a", []) ∧ APOS ∈ ["a"%char; APOS].
Proof.
  split; [reflexivity|].
  exact (string_literal_needs_its_quote APOS ["a"%char; APOS] _ _ eq_refl).
Defined.

(** ** Keywords *)

Lemma Id_lexeme_table (lx : Lexer) :
  fst (Helper.Id_lexeme lx) = token_of_lexeme (lexeme (input_ lx)).
Proof.
  unfold Helper.Id_lexeme, lexeme.
  destruct (input_ lx) as [|c rest]; [done|].
  cbn [read_while head].
  destruct (is_char UNDERSCORE c || isalnum c) eqn:Hc.
  - destruct (read_while _ rest) as [run r].
    cbn [fst string_of_list_ascii].
    generalize (string_of_list_ascii run). intros s. clear.
    unfold token_of_lexeme.
    destruct c as [[] [] [] [] [] [] [] []]; try reflexivity;
      cbn; destruct (String.eqb s _); reflexivity.
  - cbn [fst string_of_list_ascii]. clear -Hc.
    destruct c as [[] [] [] [] [] [] [] []]; try reflexivity; discriminate Hc.
Qed.

(** X7.  [Helper::Id] looks a lexeme up by its first letter and one comparison;
    the outcome is that of the table of the reserved words: a reserved word
    gives its token, every other lexeme, also one that only starts like a
    reserved word or differs in case, an Id.  Before that, a Dedent that is
    due is returned instead. *)
Theorem Id_returns_keyword_or_Id (lx : Lexer) :
  fst (Helper.Id lx)
  = if negb (indent_equal_ lx)
       && (Is token_type.Newline (token_ lx) || Is token_type.Dedent (token_ lx))
       && negb (indent_count_ lx =? 0)%Z
    then token_type.Dedent
    else token_of_lexeme (lexeme (input_ lx)).
Proof.
  unfold Helper.Id.
  destruct (indent_equal_ lx); simpl; [by rewrite Id_lexeme_table|].
  destruct (_ && _); [done|apply Id_lexeme_table].
Qed.

(** ** Number literals *)

Lemma read_while_all (p : ascii → bool) (run rest : istream) :
  Forall (λ c, p c = true) run → head (fst (read_while p rest)) = None →
  read_while p (run ++ rest) = (run, rest).
Proof.
  intros Hrun Hrest. induction Hrun as [|c run Hc _ IH]; simpl.
  - destruct rest as [|d rest]; [done|]. simpl in *.
    destruct (p d); [|done]. by destruct (read_while p rest).
  - by rewrite Hc, IH.
Qed.

Lemma pretty_N_char_digit (x : N) :
  (x < 10)%N →
  isdigit (pretty_N_char x) = true ∧
  (Z.of_nat (nat_of_ascii (pretty_N_char x)) - 48 = Z.of_N x)%Z.
Proof.
  intros Hx.
  assert (x = 0 ∨ x = 1 ∨ x = 2 ∨ x = 3 ∨ x = 4 ∨ x = 5 ∨ x = 6 ∨ x = 7 ∨ x = 8 ∨ x = 9)%N
    as Hcases by lia.
  by repeat (destruct Hcases as [->|Hcases]; [done|]); subst.
Qed.

Lemma pretty_N_go_digits (x : N) (s : string) :
  Forall (λ c, isdigit c = true) (list_ascii_of_string s) →
  Forall (λ c, isdigit c = true) (list_ascii_of_string (pretty_N_go x s)).
Proof.
  revert s. induction (N.lt_wf_0 x) as [x _ IH]; intros s Hs.
  assert (x = 0 ∨ 0 < x)%N as [->|Hpos] by lia; [by rewrite pretty_N_go_0|].
  rewrite pretty_N_go_step by done. apply IH; [by apply N.div_lt|].
  simpl. apply List.Forall_cons; [|done].
  apply pretty_N_char_digit. by apply N.mod_lt.
Qed.

Lemma pretty_N_go_value (x : N) (s : string) :
  fold_left (λ acc d, 10 * acc + (Z.of_nat (nat_of_ascii d) - 48))%Z
    (list_ascii_of_string (pretty_N_go x s)) 0%Z
  = fold_left (λ acc d, 10 * acc + (Z.of_nat (nat_of_ascii d) - 48))%Z
      (list_ascii_of_string s) (Z.of_N x).
Proof.
  revert s. induction (N.lt_wf_0 x) as [x _ IH]; intros s.
  assert (x = 0 ∨ 0 < x)%N as [->|Hpos] by lia; [by rewrite pretty_N_go_0|].
  rewrite pretty_N_go_step by done. rewrite IH by (by apply N.div_lt).
  simpl. f_equal.
  destruct (pretty_N_char_digit (x `mod` 10)%N) as [_ ->]; [by apply N.mod_lt|].
  rewrite (N.div_mod x 10) at 3 by done. lia.
Qed.

Lemma pretty_Z_digits (n : Z) :
  (0 ≤ n)%Z →
  Forall (λ c, isdigit c = true) (list_ascii_of_string (pretty n)) ∧
  Helper.digits_value (list_ascii_of_string (pretty n)) = n.
Proof.
  intros Hn. destruct n as [|p|p]; [by repeat constructor|clear Hn|lia].
  unfold pretty, pretty_Z, pretty, pretty_positive, pretty, pretty_N.
  rewrite decide_False by done. split.
  - by apply pretty_N_go_digits.
  - unfold Helper.digits_value. by rewrite pretty_N_go_value.
Qed.

(** X8.  [Helper::Number] reads back a number written in decimal: behind the
    digits of [n], up to [INT_MAX], it returns the Number token of [n] and
    leaves the stream at the first byte that is no digit; for a greater [n]
    [std::stoi] throws [std::out_of_range]. *)
Theorem number_literal_round_trip (n : Z) (rest : istream) :
  (0 ≤ n)%Z → head (fst (read_while isdigit rest)) = None →
  Helper.Number (list_ascii_of_string (pretty n) ++ rest)
  = if (n <=? INT_MAX)%Z then Lexed (token_type.Number n, rest) else OutOfRange.
Proof.
  intros Hn Hrest. destruct (pretty_Z_digits n Hn) as [Hdigits Hvalue].
  unfold Helper.Number. rewrite (read_while_all _ _ _ Hdigits Hrest).
  by rewrite Hvalue.
Qed.

Lemma number_literal_round_trip_witness :
  (0 ≤ 2024)%Z ∧ head (fst (read_while isdigit [" "%char; "7"%char])) = None ∧
  Helper.Number (list_ascii_of_string "2024" ++ [" "%char; "7"%char])
  = Lexed (token_type.Number 2024, [" "%char; "7"%char]).
Proof.
  split; [lia|]. split; [reflexivity|].
  exact (number_literal_round_trip 2024 [" "%char; "7"%char] ltac:(lia) eq_refl).
Defined.

(** ** Termination *)

(** X9.  [NextToken] needs no more calls of itself than [enough_fuel] allows: it
    never ends for want of fuel, and with more fuel the result is the same.
    (An unterminated string literal, the one loop of the lexer that does not
    end, is the result [Hang].) *)
Theorem NextToken_terminates (lx : Lexer) (more : nat) :
  NextToken lx ≠ LexOutOfFuel ∧
  NextToken_fuel (enough_fuel lx + more) lx = NextToken lx.
Proof.
  split; [apply NextToken_fuel_enough|].
  unfold NextToken. pose proof (measure_enough lx).
  apply NextToken_fuel_stable; lia.
Qed.

(** ** The current token *)

(** X10.  On every path through [NextToken] and its helpers, the calls that
    re-enter it included, the token returned is the one left in [token_]:
    [CurrentToken] gives the token [NextToken] returned last, and after the
    constructor the first token of the input. *)
Theorem CurrentToken_is_the_last_token (lx : Lexer) (t : Token) (lx' : Lexer) :
  NextToken lx = Lexed (t, lx') → CurrentToken lx' = t.
Proof. apply NextToken_token. Qed.

Lemma CurrentToken_is_the_last_token_witness :
  Lexer_new (list_ascii_of_string "x = 1")
  = Lexed (token_type.Id "x", mkLexer (list_ascii_of_string " = 1") (token_type.Id "x") 0 false)
  ∧ CurrentToken (mkLexer (list_ascii_of_string " = 1") (token_type.Id "x") 0 false)
    = token_type.Id "x".
Proof.
  split; [reflexivity|].
  exact (CurrentToken_is_the_last_token (Lexer_start (list_ascii_of_string "x = 1"))
           (token_type.Id "x")
           (mkLexer (list_ascii_of_string " = 1") (token_type.Id "x") 0 false) eq_refl).
Defined.

(** ** Spaces inside a line *)

Lemma NextToken_space_inside (lx : Lexer) (rest : istream) :
  token_ lx ≠ token_type.Newline → token_ lx ≠ token_type.Indent →
  token_ lx ≠ token_type.Dedent →
  NextToken (set_input lx (SPACE :: rest))
  = NextToken (set_input lx (snd (read_while (is_char SPACE) rest))).
Proof.
  intros HN HI HD. rewrite NextToken_unfold at 1. unfold NextToken_body. simpl.
  replace (nat_of_ascii SPACE =? 255) with false by done.
  replace (isalpha SPACE) with false by done.
  replace (isdigit SPACE) with false by done.
  replace (is_char QUOT SPACE || is_char APOS SPACE) with false by done.
  unfold Helper.Char. simpl.
  replace (is_char LF SPACE) with false by done.
  replace (is_char "+" SPACE || is_char "-" SPACE || is_char "*" SPACE || is_char "/" SPACE
           || is_char "." SPACE || is_char "," SPACE || is_char ":" SPACE
           || is_char "(" SPACE || is_char ")" SPACE) with false by done.
  replace (is_char "=" SPACE || is_char "!" SPACE || is_char ">" SPACE || is_char "<" SPACE)
    with false by done.
  replace (is_char SPACE SPACE) with true by done.
  unfold Helper.Space. simpl.
  apply Is_false_ne in HN, HI, HD. rewrite HN, HI, HD. simpl.
  replace (is_char SPACE SPACE) with true by done.
  destruct (read_while (is_char SPACE) rest) as [sp r]. simpl.
  destruct lx as [input tok cnt eq]. unfold set_input. simpl. apply NextToken_store.
Qed.

Lemma NextToken_strip_spaces (lx : Lexer) (rest : istream) :
  token_ lx ≠ token_type.Newline → token_ lx ≠ token_type.Indent →
  token_ lx ≠ token_type.Dedent →
  NextToken (set_input lx (snd (read_while (is_char SPACE) rest)))
  = NextToken (set_input lx rest).
Proof.
  intros HN HI HD. destruct rest as [|c rest]; [done|]. simpl.
  destruct (is_char SPACE c) eqn:Hc; [|done].
  apply Ascii.eqb_eq in Hc. subst c.
  rewrite NextToken_space_inside by done.
  by destruct (read_while (is_char SPACE) rest).
Qed.

(** X11.  Inside a line, that is after any token but a Newline, an Indent or a
    Dedent, spaces separate tokens and nothing more: any number of them in
    front of the next token changes neither the token nor the state of the
    lexer after it. *)
Theorem spaces_inside_a_line_are_skipped (lx : Lexer) (spaces rest : istream) :
  token_ lx ≠ token_type.Newline → token_ lx ≠ token_type.Indent →
  token_ lx ≠ token_type.Dedent →
  Forall (λ c, c = SPACE) spaces →
  NextToken (set_input lx (spaces ++ rest)) = NextToken (set_input lx rest).
Proof.
  intros HN HI HD Hsp.
  induction Hsp as [|c spaces -> _ IH]; [done|]. simpl.
  rewrite NextToken_space_inside by done.
  by rewrite NextToken_strip_spaces.
Qed.

Lemma spaces_inside_a_line_are_skipped_witness :
  let lx := mkLexer [] (token_type.Id "x") 0 false in
  token_ lx ≠ token_type.Newline ∧ token_ lx ≠ token_type.Indent ∧
  token_ lx ≠ token_type.Dedent ∧ Forall (λ c, c = SPACE) [SPACE; SPACE; SPACE] ∧
  NextToken (set_input lx ([SPACE; SPACE; SPACE] ++ ["="%char]))
  = Lexed (token_type.Char "=", mkLexer [] (token_type.Char "=") 0 false).
Proof.
  assert (Forall (λ c, c = SPACE) [SPACE; SPACE; SPACE]) as H by (by repeat constructor).
  split; [done|]. split; [done|]. split; [done|]. split; [exact H|].
  exact (eq_trans
           (spaces_inside_a_line_are_skipped (mkLexer [] (token_type.Id "x") 0 false)
              [SPACE; SPACE; SPACE] ["="%char] ltac:(done) ltac:(done) ltac:(done) H)
           eq_refl).
Defined.

(** ** Indentation *)

(** X12.  Whatever the input, the Dedent tokens never outnumber the Indent tokens:
    after any number of tokens, the Indents less the Dedents so far are the
    depth counter of the lexer, and the counter is never negative. *)
Theorem Dedents_never_outnumber_Indents (n : nat) (input : istream)
    (l : list (Token * Lexer)) :
  tokens_from n (Lexer_start input) = Some l →
  (0 ≤ indent_balance (map fst l))%Z ∧
  indent_count_ (default (Lexer_start input) (snd <$> last l)) = indent_balance (map fst l).
Proof.
  intros Hl. pose proof (indent_balance_is_the_counter n _ _ Hl) as Hc.
  simpl indent_count_ at 2 in Hc. rewrite Z.add_0_l in Hc. split; [|done].
  rewrite <- Hc. destruct (last l) as [[t lx']|] eqn:Hlast; simpl; [|done].
  apply (reachable_inv lx').
  eapply tokens_from_reachable; [apply reachable_start|done..].
Qed.

Lemma Dedents_never_outnumber_Indents_witness :
  let input := list_ascii_of_string
                 ("if x:" +:+ String.String LF ("  y" +:+ String.String LF "z")) in
  ∃ l, tokens_from 7 (Lexer_start input) = Some l ∧
       map fst l = [token_type.If; token_type.Id "x"; token_type.Char ":"; token_type.Newline;
                    token_type.Indent; token_type.Id "y"; token_type.Newline] ∧
       (0 ≤ indent_balance (map fst l))%Z.
Proof.
  eexists. split; [vm_compute; reflexivity|]. split; [reflexivity|].
  refine (proj1 (Dedents_never_outnumber_Indents 7
           (list_ascii_of_string
              ("if x:" +:+ String.String LF ("  y" +:+ String.String LF "z"))) _ _)).
  vm_compute. reflexivity.
Defined.

(** ** Where an Indent can come *)

Lemma Id_not_Indent (lx : Lexer) : fst (Helper.Id lx) ≠ token_type.Indent.
Proof.
  assert (∀ l, fst (Helper.Id_lexeme l) ≠ token_type.Indent) as Hlex.
  { intros l. unfold Helper.Id_lexeme.
    destruct (read_while _ (input_ l)) as [run rest].
    repeat (case_match; try done). }
  unfold Helper.Id.
  destruct (indent_equal_ lx); [apply Hlex|].
  destruct (_ && _); [done|apply Hlex].
Qed.

Lemma Operation_not_Indent (input : istream) t rest :
  Helper.Operation input = Lexed (t, rest) → t ≠ token_type.Indent.
Proof.
  unfold Helper.Operation. repeat (case_match; try done); intros [= <- <-]; done.
Qed.

Lemma String_not_Indent (input : istream) t rest :
  Helper.String input = Lexed (t, rest) → t ≠ token_type.Indent.
Proof.
  destruct input as [|quot input]; [done|]. simpl.
  generalize (@nil ascii). intros s.
  remember (length input) as n eqn:Hn.
  assert (length input ≤ n) as Hle by lia. clear Hn.
  revert input s Hle. induction n as [|n IH]; intros input s Hle.
  { destruct input; simpl in *; [done|lia]. }
  destruct input as [|c input']; simpl in *; [done|].
  destruct (is_char quot c); [by intros [= <- <-]|].
  destruct (is_char BACKSLASH c).
  - destruct input' as [|e input'']; [done|]. simpl in Hle.
    repeat (case_match; try done); apply IH; lia.
  - apply IH; lia.
Qed.

Section LineStart.

Variable NT : Lexer → LexResult.
Hypothesis NT_Indent : ∀ lx lx',
  NT lx = Lexed (token_type.Indent, lx') → at_line_start (token_ lx).

Lemma Char_Indent (lx : Lexer) lx' :
  Helper.Char NT lx = Lexed (token_type.Indent, lx') → at_line_start (token_ lx).
Proof.
  unfold Helper.Char.
  destruct (input_ lx) as [|c rest] eqn:Hin; [done|].
  destruct (is_char LF c).
  { destruct (_ || _); [|done]. intros HNT. by apply NT_Indent in HNT. }
  case_match; [done|].
  case_match.
  { unfold Helper.in_stream.
    destruct (Helper.Operation (c :: rest)) as [[t' r]| | | |] eqn:Hop; try done.
    intros [= -> <-]. by apply Operation_not_Indent in Hop. }
  destruct (is_char SPACE c).
  { unfold Helper.Space.
    destruct (Is token_type.Newline (token_ lx) || Is token_type.Indent (token_ lx)
              || Is token_type.Dedent (token_ lx)) eqn:Hstart.
    - intros _. unfold at_line_start.
      apply orb_true_iff in Hstart as [Hstart|Hstart];
        [apply orb_true_iff in Hstart as [Hstart|Hstart]|];
        apply Is_true_eq in Hstart; auto.
    - intros HNT. by apply NT_Indent in HNT. }
  destruct (is_char HASH c); [intros HNT; by apply NT_Indent in HNT|].
  destruct (is_char UNDERSCORE c); [|done].
  pose proof (Id_not_Indent lx) as HI.
  destruct (Helper.Id lx) as [t' l']. by intros [= -> <-].
Qed.

Lemma NextToken_body_Indent (lx : Lexer) lx' :
  NextToken_body NT lx = Lexed (token_type.Indent, lx') → at_line_start (token_ lx).
Proof.
  unfold NextToken_body.
  destruct (peek_is_eof (input_ lx)).
  { destruct (negb (indent_count_ lx =? 0)%Z); [done|]. by destruct (_ && _). }
  destruct (input_ lx) as [|c rest] eqn:Hin; [done|].
  destruct (isalpha c).
  { pose proof (Id_not_Indent lx) as HI.
    destruct (Helper.Id lx) as [t' l']. by intros [= -> <-]. }
  destruct (isdigit c).
  { unfold Helper.in_stream, Helper.Number.
    destruct (read_while isdigit (c :: rest)) as [ds r].
    by destruct (Helper.digits_value ds <=? INT_MAX)%Z. }
  destruct (is_char QUOT c || is_char APOS c).
  { unfold Helper.in_stream.
    destruct (Helper.String (c :: rest)) as [[t' r]| | | |] eqn:Hs; try done.
    intros [= -> <-]. by apply String_not_Indent in Hs. }
  destruct (Helper.Char NT lx) as [[t' l']| | | |] eqn:HC; try done.
  intros [= -> <-]. by apply (Char_Indent lx l').
Qed.

End LineStart.

(** X13.  An Indent comes only at the start of a line: [NextToken] returns one
    only when the token before it was a Newline, an Indent or a Dedent;
    never as the first token of an input, and never inside a line, whatever
    spaces there are. *)
Theorem Indent_only_at_line_start (lx lx' : Lexer) :
  NextToken lx = Lexed (token_type.Indent, lx') →
  token_ lx = token_type.Newline ∨ token_ lx = token_type.Indent
  ∨ token_ lx = token_type.Dedent.
Proof.
  unfold NextToken. generalize (enough_fuel lx). intros fuel. revert lx lx'.
  induction fuel as [|fuel IH]; intros lx lx'; [done|]. simpl.
  by apply NextToken_body_Indent.
Qed.

Lemma Indent_only_at_line_start_witness :
  let lx := mkLexer (list_ascii_of_string "  y") token_type.Newline 0 false in
  NextToken lx
  = Lexed (token_type.Indent, mkLexer (list_ascii_of_string "  y") token_type.Indent 1 false) ∧
  (token_ lx = token_type.Newline ∨ token_ lx = token_type.Indent
   ∨ token_ lx = token_type.Dedent).
Proof.
  split; [reflexivity|].
  exact (Indent_only_at_line_start
           (mkLexer (list_ascii_of_string "  y") token_type.Newline 0 false)
           (mkLexer (list_ascii_of_string "  y") token_type.Indent 1 false) eq_refl).
Defined.

(** ** Methods and inheritance *)

Lemma GetMethod_depth_enough (hp : list Object) (method : string) :
  parents_first hp →
  ∀ d1 d2 cls, cls ≤ d1 → cls ≤ d2 →
    GetMethod_depth d1 hp cls method = GetMethod_depth d2 hp cls method.
Proof.
  intros Hwf. induction d1 as [|d1 IH]; intros d2 cls H1 H2.
  - assert (cls = 0) as -> by lia.
    destruct d2; simpl; destruct (hp !! 0) as [[| | |n ms [p|]|]|] eqn:H0; try done;
      destruct (find _ ms); try done.
    apply Hwf in H0. lia.
  - destruct d2 as [|d2]; simpl.
    + assert (cls = 0) as -> by lia.
      destruct (hp !! 0) as [[| | |n ms [p|]|]|] eqn:H0; try done.
      destruct (find _ ms); try done. apply Hwf in H0. lia.
    + destruct (hp !! cls) as [[| | |n ms [p|]|]|] eqn:Hc; try done.
      destruct (find _ ms); try done. apply Hwf in Hc. apply IH; lia.
Qed.

(** X14.  [Class::GetMethod] finds the first method of the class with the name,
    whatever its parameters; a class that has none hands the question to
    its parent, and without a parent there is no such method.  A method of
    the class hides every method of that name of its ancestors. *)
Theorem GetMethod_inherits (st : State) (cls : addr) (n : string) (ms : list Method)
    (parent : option addr) (method : string) :
  parents_first (heap st) → heap st !! cls = Some (Class n ms parent) →
  GetMethod st cls method
  = match find (λ m, String.eqb method (name m)) ms with
    | Some m => Some m
    | None =>
        match parent with
        | Some p => GetMethod st p method
        | None => None
        end
    end.
Proof.
  intros Hwf Hcls. unfold GetMethod.
  pose proof (lookup_lt_Some _ _ _ Hcls) as Hlt.
  destruct (length (heap st)) as [|d] eqn:Hlen; [lia|].
  destruct parent as [p|].
  - pose proof (Hwf _ _ _ _ Hcls) as Hp.
    rewrite (GetMethod_depth_enough _ method Hwf (S d) d p) by lia.
    simpl. rewrite Hcls. by destruct (find _ ms).
  - simpl. rewrite Hcls. by destruct (find _ ms).
Qed.

Lemma Base_and_Derived_parents_first : parents_first (heap Base_and_Derived).
Proof.
  intros a n ms p H. destruct a as [|[|a]]; simpl in H; [done| |done].
  injection H as <- <- <-. lia.
Qed.

Lemma GetMethod_inherits_witness :
  GetMethod Base_and_Derived 1 "g" = Some (mkMethod "g" ["x"] (ast.Compound [])) ∧
  GetMethod Base_and_Derived 1 "f" = Some (mkMethod "f" ["y"] (ast.Compound [])).
Proof.
  split.
  - exact (eq_trans
             (GetMethod_inherits Base_and_Derived 1 "Derived" _ (Some 0) "g"
                Base_and_Derived_parents_first eq_refl) eq_refl).
  - exact (eq_trans
             (GetMethod_inherits Base_and_Derived 1 "Derived" _ (Some 0) "f"
                Base_and_Derived_parents_first eq_refl) eq_refl).
Defined.

(** ** The environment of a method call *)

Lemma bind_params_keeps (formals : list string) (actuals : list ObjectHolder)
    (closure : Closure) (k : string) (v : ObjectHolder) :
  closure !! k = Some v → bind_params formals actuals closure !! k = Some v.
Proof.
  revert actuals closure. induction formals as [|f formals IH]; intros actuals closure Hk;
    [done|].
  destruct actuals as [|a actuals]; [done|]. simpl. apply IH.
  destruct (closure !! f) eqn:Hf; [done|].
  rewrite lookup_insert_ne; [done|]. intros ->. congruence.
Qed.

Lemma bind_params_lookup (formals : list string) (actuals : list ObjectHolder)
    (closure : Closure) :
  NoDup formals → (∀ f, f ∈ formals → closure !! f = None) →
  ∀ i f a, formals !! i = Some f → actuals !! i = Some a →
    bind_params formals actuals closure !! f = Some a.
Proof.
  intros Hnodup. revert actuals closure.
  induction Hnodup as [|f0 formals Hnotin Hnodup IH]; intros actuals closure Hfree i f a Hf Ha;
    [done|].
  destruct actuals as [|a0 actuals]; [by destruct i|]. simpl.
  rewrite (Hfree f0) by left.
  destruct i as [|i]; simpl in Hf, Ha.
  - injection Hf as ->. injection Ha as ->.
    apply bind_params_keeps. by rewrite lookup_insert_eq.
  - apply (IH actuals _) with (i := i); [|done..].
    intros f' Hf'. rewrite lookup_insert_ne by (intros ->; done).
    apply Hfree. by right.
Qed.

(** X15.  The environment [ClassInstance::Call] runs the body in: [self] is the
    instance, whatever the formal parameters are called, and each formal
    parameter names the actual argument at its position, for parameters
    with different names, none of them [self].  (A parameter called [self],
    or called like an earlier one, is never bound: [insert] does not
    replace an entry.) *)
Theorem bind_params_binds (formals : list string) (actuals : list ObjectHolder)
    (self : addr) :
  bind_params formals actuals {[ "self" := Some self ]} !! "self" = Some (Some self) ∧
  (NoDup formals → "self" ∉ formals →
   ∀ i f a, formals !! i = Some f → actuals !! i = Some a →
     bind_params formals actuals {[ "self" := Some self ]} !! f = Some a).
Proof.
  split; [apply bind_params_keeps, lookup_singleton_eq|].
  intros Hnodup Hself. apply bind_params_lookup; [done|].
  intros f Hf. apply lookup_singleton_ne. by intros <-.
Qed.

Lemma bind_params_binds_witness :
  bind_params ["x"; "y"] [Some 3; None] {[ "self" := Some 7 ]} !! "y" = Some None.
Proof.
  refine (proj2 (bind_params_binds ["x"; "y"] [Some 3; None] 7) _ _ 1 "y" None eq_refl eq_refl).
  - apply NoDup_cons_2; [|apply NoDup_singleton].
    intros Hin. apply list_elem_of_singleton in Hin. discriminate Hin.
  - intros Hin. repeat (apply elem_of_cons in Hin as [Hin|Hin]; [discriminate Hin|]).
    by apply elem_of_nil in Hin.
Defined.

(** ** Comparisons of numbers, strings and truth values *)

Lemma string_compare_refl (s : string) : String.compare s s = Eq.
Proof.
  induction s as [|c s IH]; [done|]. simpl.
  replace (Ascii.compare c c) with Eq; [done|].
  symmetry. unfold Ascii.compare. apply N.compare_refl.
Qed.

(** X16.  On two numbers, two strings or two truth values the six comparisons
    return, call no method and leave the state as it is, and they are the
    six relations of one total order: exactly one of [Less], [Equal] and
    [Greater] holds, and [NotEqual], [LessOrEqual] and [GreaterOrEqual] are
    their negations. *)
Theorem comparisons_of_scalars (E : ast.Statement → Exec ObjectHolder)
    (lhs rhs : ObjectHolder) (st : State) (l r : Object) (c : comparison) :
  Get lhs st = Some l → Get rhs st = Some r → scalar_compare l r = Some c →
  Equal E lhs rhs st = (Ret (match c with Eq => true | _ => false end), st) ∧
  Less E lhs rhs st = (Ret (match c with Lt => true | _ => false end), st) ∧
  Greater E lhs rhs st = (Ret (match c with Gt => true | _ => false end), st) ∧
  NotEqual E lhs rhs st = (Ret (match c with Eq => false | _ => true end), st) ∧
  LessOrEqual E lhs rhs st = (Ret (match c with Gt => false | _ => true end), st) ∧
  GreaterOrEqual E lhs rhs st = (Ret (match c with Lt => false | _ => true end), st).
Proof.
  intros Hl Hr Hc.
  assert (Equal E lhs rhs st = (Ret (match c with Eq => true | _ => false end), st) ∧
          Less E lhs rhs st = (Ret (match c with Lt => true | _ => false end), st))
    as [HE HL].
  { unfold Equal, Less. rewrite Hl, Hr.
    destruct l as [a|a|a| |], r as [b|b|b| |]; simpl in Hc; try done;
      injection Hc as <-.
    - by rewrite Z.eqb_compare, Z.ltb_compare.
    - unfold string_lt. split; [|done]. f_equal. f_equal.
      destruct (String.eqb a b) eqn:Heq.
      + apply String.eqb_eq in Heq. subst. by rewrite string_compare_refl.
      + destruct (String.compare a b) eqn:Hcmp; try done.
        apply String.compare_eq_iff in Hcmp. subst. by rewrite String.eqb_refl in Heq.
    - by destruct a, b. }
  unfold NotEqual, Greater, LessOrEqual, GreaterOrEqual, Greater.
  rewrite HE, HL. split_and!; try done; destruct c; simpl; by rewrite ?HE.
Qed.

Lemma comparisons_of_scalars_witness :
  Less (Execute 0) (Some 0) (Some 1) (mkState [String "ab"; String "b"] "")
  = (Ret true, mkState [String "ab"; String "b"] "").
Proof.
  exact (proj1 (proj2 (comparisons_of_scalars (Execute 0) (Some 0) (Some 1)
                         (mkState [String "ab"; String "b"] "")
                         (String "ab") (String "b") Lt eq_refl eq_refl eq_refl))).
Defined.

(** ** What a statement leaves alone *)

Lemma string_append_empty (s : string) : s +:+ "" = s.
Proof.
  induction s as [|c s IH]; [done|].
  change (String.String c (s +:+ EmptyString) = String.String c s). by rewrite IH.
Qed.

Lemma string_append_assoc (s1 s2 s3 : string) : (s1 +:+ s2) +:+ s3 = s1 +:+ (s2 +:+ s3).
Proof.
  induction s1 as [|c s1 IH]; [done|].
  change (String.String c ((s1 +:+ s2) +:+ s3) = String.String c (s1 +:+ (s2 +:+ s3))).
  by rewrite IH.
Qed.

Lemma state_appends_refl (st : State) : state_appends st st.
Proof. split; [|done]. exists "". by rewrite string_append_empty. Qed.

Lemma state_appends_trans (st1 st2 st3 : State) :
  state_appends st1 st2 → state_appends st2 st3 → state_appends st1 st3.
Proof.
  intros [[t12 Ho12] Hc12] [[t23 Ho23] Hc23]. split.
  - exists (t12 +:+ t23). by rewrite Ho23, Ho12, string_append_assoc.
  - intros a n ms p H. by apply Hc12, Hc23.
Qed.

Lemma state_appends_Own (o : Object) (st : State) :
  not_a_Class o → state_appends st (snd (Own o st)).
Proof.
  intros Ho. split; simpl.
  - exists "". by rewrite string_append_empty.
  - intros a n ms p H.
    destruct (decide (a < length (heap st))) as [Hlt|Hge].
    + by rewrite lookup_app_l in H.
    + rewrite lookup_app_r in H by lia.
      destruct (a - length (heap st)) as [|k]; simpl in H; [|done].
      injection H as ->. done.
Qed.

Lemma state_appends_output (st : State) (text : string) :
  state_appends st (mkState (heap st) (output st +:+ text)).
Proof. split; [by exists text|done]. Qed.

Lemma state_appends_write (os : ostream) (text : string) (st : State) :
  state_appends st (snd (write os text st)).
Proof. destruct os; simpl; [apply state_appends_output|apply state_appends_refl]. Qed.

Lemma appending_ret {A : Type} (a : A) : appending (ret a).
Proof. intros cl st. apply state_appends_refl. Qed.

Lemma appending_throw {A : Type} (what : string) : appending (@throw A what).
Proof. intros cl st. apply state_appends_refl. Qed.

Lemma appending_undefined {A : Type} : appending (@undefined A).
Proof. intros cl st. apply state_appends_refl. Qed.

Lemma appending_bind {A B : Type} (m : Exec A) (k : A → Exec B) :
  appending m → (∀ a, appending (k a)) → appending (bind m k).
Proof.
  intros Hm Hk cl st. unfold bind. specialize (Hm cl st).
  destruct (m cl st) as [[r cl'] st']. simpl in Hm.
  destruct r; simpl; try done.
  eapply state_appends_trans; [done|apply Hk].
Qed.

Lemma appending_get_state : appending get_state.
Proof. intros cl st. apply state_appends_refl. Qed.

Lemma appending_on_state {A : Type} (f : State → Outcome A * State) :
  state_appending f → appending (on_state f).
Proof.
  intros Hf cl st. unfold on_state. specialize (Hf st).
  by destruct (f st) as [r st'].
Qed.

Lemma appending_own (o : Object) : not_a_Class o → appending (own o).
Proof. intros Ho cl st. by apply (state_appends_Own o st). Qed.

Lemma appending_assign (name : string) (h : ObjectHolder) : appending (assign name h).
Proof. intros cl st. apply state_appends_refl. Qed.

Lemma appending_put (text : string) : appending (put text).
Proof. intros cl st. apply state_appends_output. Qed.

Lemma appending_assign_field (self : addr) (name : string) (h : ObjectHolder) :
  appending (assign_field self name h).
Proof.
  intros cl st. unfold assign_field.
  destruct (heap st !! self) as [[| | | |cls fields]|] eqn:Hself;
    try apply state_appends_refl.
  split; simpl; [exists ""; by rewrite string_append_empty|].
  intros a n ms p H.
  destruct (decide (a = self)) as [->|Hne].
  - rewrite list_lookup_insert_eq in H by (by eapply lookup_lt_Some). done.
  - by rewrite list_lookup_insert_ne in H.
Qed.

Lemma appending_VariableValue_Execute (v : ast.VariableValue) :
  appending (VariableValue_Execute v).
Proof.
  intros cl st. unfold VariableValue_Execute.
  repeat case_match; apply state_appends_refl.
Qed.

Section Appending.

Variable fuel : nat.
Variable E : ast.Statement → Exec ObjectHolder.
Hypothesis E_appending : ∀ s, appending (E s).

Lemma Call_appending (self : addr) (method : string) (args : list ObjectHolder) :
  state_appending (Call E self method args).
Proof.
  intros st. unfold Call.
  repeat (case_match; try apply state_appends_refl).
  subst. simpl.
  match goal with
  | H : E ?b ?c ?s = _ |- _ => pose proof (E_appending b c s) as Hx; by rewrite H in Hx
  end.
Qed.

Lemma Print_appending (n : nat) (obj : addr) (os : ostream) :
  state_appending (Print E n obj os).
Proof.
  revert obj os. induction n as [|n IH]; intros obj os st; simpl;
    [apply state_appends_refl|].
  destruct (heap st !! obj) as [[v|v|v|nm ms p|cls fields]|];
    try apply state_appends_write; try apply state_appends_refl.
  destruct (HasMethod st obj "__str__" 0); [|apply state_appends_write].
  pose proof (Call_appending obj "__str__" [] st) as HC.
  destruct (Call E obj "__str__" [] st) as [[[r|]|w| |] st']; simpl in *; try done.
  - eapply state_appends_trans; [done|apply IH].
  - eapply state_appends_trans; [done|apply state_appends_write].
Qed.

Lemma Equal_appending (lhs rhs : ObjectHolder) : state_appending (Equal E lhs rhs).
Proof.
  intros st. unfold Equal.
  repeat (case_match; try apply state_appends_refl); subst; simpl;
  match goal with
  | H : Call E ?a ?m ?l ?s = _ |- _ =>
      pose proof (Call_appending a m l s) as Hx; by rewrite H in Hx
  end.
Qed.

Lemma Less_appending (lhs rhs : ObjectHolder) : state_appending (Less E lhs rhs).
Proof.
  intros st. unfold Less.
  repeat (case_match; try apply state_appends_refl); subst; simpl;
  match goal with
  | H : Call E ?a ?m ?l ?s = _ |- _ =>
      pose proof (Call_appending a m l s) as Hx; by rewrite H in Hx
  end.
Qed.

Lemma NotEqual_appending (lhs rhs : ObjectHolder) : state_appending (NotEqual E lhs rhs).
Proof.
  intros st. unfold NotEqual. pose proof (Equal_appending lhs rhs st).
  by destruct (Equal E lhs rhs st) as [[] ?].
Qed.

Lemma Greater_appending (lhs rhs : ObjectHolder) : state_appending (Greater E lhs rhs).
Proof.
  intros st. unfold Greater. pose proof (Less_appending lhs rhs st) as HL.
  destruct (Less E lhs rhs st) as [[[]| | |] st']; simpl in *; try done.
  pose proof (Equal_appending lhs rhs st') as HE.
  destruct (Equal E lhs rhs st') as [[] st'']; simpl in *;
    by eapply state_appends_trans.
Qed.

Lemma LessOrEqual_appending (lhs rhs : ObjectHolder) :
  state_appending (LessOrEqual E lhs rhs).
Proof.
  intros st. unfold LessOrEqual. pose proof (Greater_appending lhs rhs st).
  by destruct (Greater E lhs rhs st) as [[] ?].
Qed.

Lemma GreaterOrEqual_appending (lhs rhs : ObjectHolder) :
  state_appending (GreaterOrEqual E lhs rhs).
Proof.
  intros st. unfold GreaterOrEqual. pose proof (Less_appending lhs rhs st).
  by destruct (Less E lhs rhs st) as [[] ?].
Qed.

Ltac appending_step :=
  first
    [ apply appending_bind; [|intros ?]
    | apply appending_on_state
    | apply E_appending
    | apply Call_appending
    | apply Print_appending
    | apply appending_ret
    | apply appending_throw
    | apply appending_undefined
    | apply appending_get_state
    | apply appending_own; exact I
    | apply appending_assign
    | apply appending_put
    | apply appending_assign_field
    | apply appending_VariableValue_Execute
    | case_match ].

Lemma Execute_args_appending (args : list ast.Statement) :
  appending (Execute_args E args).
Proof. induction args as [|arg args IH]; simpl; repeat appending_step; done. Qed.

Lemma Print_loop_appending (first : bool) (args : list ast.Statement) :
  appending (Print_loop fuel E first args).
Proof.
  revert first. induction args as [|arg args IH]; intros first; cbn [Print_loop];
    repeat appending_step; done.
Qed.

Lemma Compound_loop_appending (stmts : list ast.Statement) :
  appending (Compound_loop E stmts).
Proof. induction stmts as [|s stmts IH]; simpl; repeat appending_step; done. Qed.

Lemma compare_with_appending (cmp : ast.Comparator) (lhs rhs : ObjectHolder) :
  appending (compare_with E cmp lhs rhs).
Proof.
  apply appending_on_state.
  destruct cmp; auto using Equal_appending, NotEqual_appending, Less_appending,
    Greater_appending, LessOrEqual_appending, GreaterOrEqual_appending.
Qed.

Lemma MethodBody_Execute_appending (body_ : ast.Statement) :
  appending (MethodBody_Execute E body_).
Proof.
  intros cl st. unfold MethodBody_Execute. pose proof (E_appending body_ cl st) as H.
  destruct (E body_ cl st) as [[r cl'] st']. simpl in H.
  repeat case_match; done.
Qed.

Lemma Execute_body_appending (s : ast.Statement) : appending (Execute_body fuel E s).
Proof.
  destruct s; cbn [Execute_body];
    try apply MethodBody_Execute_appending;
    unfold Add_holders, Sub_holders, Mult_holders, Div_holders, NewInstance_Execute;
    repeat first
      [ apply Execute_args_appending
      | apply Print_loop_appending
      | apply Compound_loop_appending
      | apply compare_with_appending
      | appending_step ].
Qed.

End Appending.

Lemma Execute_appending (fuel : nat) (s : ast.Statement) : appending (Execute fuel s).
Proof.
  revert s. induction fuel as [|fuel IH]; intros s.
  - intros cl st. apply state_appends_refl.
  - simpl. by apply Execute_body_appending.
Qed.

(** X17.  No statement takes back output: what was written before a statement
    runs is the beginning of what is written after it, whether the statement
    returns or throws. *)
Theorem output_is_only_appended (fuel : nat) (s : ast.Statement) (closure : Closure)
    (st : State) :
  ∃ text, output (snd (Execute fuel s closure st)) = output st +:+ text.
Proof. apply (Execute_appending fuel s closure st). Qed.

(** X18.  No statement makes, changes or removes a class: the classes of the
    store after a statement are the classes before it, each at its
    address. *)
Theorem classes_are_fixed (fuel : nat) (s : ast.Statement) (closure : Closure)
    (st : State) (a : addr) (n : string) (ms : list Method) (p : option addr) :
  heap (snd (Execute fuel s closure st)) !! a = Some (Class n ms p)
  ↔ heap st !! a = Some (Class n ms p).
Proof.
  split.
  - apply (Execute_appending fuel s closure st).
  - intros H. apply (Execute_extending fuel s closure st a _ H).
Qed.

(** ** [Add], [Sub] and [Mult] *)

Lemma wrap_int_in_range (z : Z) : (INT_MIN ≤ z ≤ INT_MAX)%Z → wrap_int z = z.
Proof.
  unfold wrap_int, INT_MIN, INT_MAX. intros H.
  rewrite Z.mod_small by lia. lia.
Qed.

(** X20.  With both operands evaluated, the left one first, to the holders [h1]
    and [h2]: two numbers whose sum is an [int] give a new number, the sum;
    two strings give a new string, the left one followed by the right one;
    a number and no number, a string and no string, and a left operand that
    is nothing, a truth value, a class or an instance without [__add__] of
    one parameter are the three type errors.  The operands are not changed,
    and in the error cases the state is the one the operands left. *)
Theorem Add_of_numbers_and_strings (fuel : nat) (lhs rhs : ast.Statement)
  closure st h1 closure1 st1 h2 closure2 st2 :
  Execute fuel lhs closure st = (Ret h1, closure1, st1) →
  Execute fuel rhs closure1 st1 = (Ret h2, closure2, st2) →
  (∀ a b, TryAs_Number h1 st2 = Some a → TryAs_Number h2 st2 = Some b →
     (INT_MIN ≤ a + b ≤ INT_MAX)%Z →
     Execute (S fuel) (ast.Add lhs rhs) closure st
     = (Ret (Some (length (heap st2))), closure2,
        mkState (heap st2 ++ [Number (a + b)]) (output st2))) ∧
  (∀ a b, TryAs_String h1 st2 = Some a → TryAs_String h2 st2 = Some b →
     Execute (S fuel) (ast.Add lhs rhs) closure st
     = (Ret (Some (length (heap st2))), closure2,
        mkState (heap st2 ++ [String (a +:+ b)]) (output st2))) ∧
  (is_Some (TryAs_Number h1 st2) → TryAs_Number h2 st2 = None →
   Execute (S fuel) (ast.Add lhs rhs) closure st = (Throw "Add(Number, ?)", closure2, st2)) ∧
  (is_Some (TryAs_String h1 st2) → TryAs_String h2 st2 = None →
   Execute (S fuel) (ast.Add lhs rhs) closure st = (Throw "Add(String, ?)", closure2, st2)) ∧
  (TryAs_Number h1 st2 = None → TryAs_String h1 st2 = None →
   (∀ obj, h1 = Some obj → HasMethod st2 obj "__add__" 1 = false) →
   Execute (S fuel) (ast.Add lhs rhs) closure st = (Throw "Add(?, ?)", closure2, st2)).
Proof.
  intros Hlhs Hrhs. simpl. unfold bind. rewrite Hlhs, Hrhs.
  unfold Add_holders, bind, get_state, throw, own, on_state,
    TryAs_Number, TryAs_String. simpl.
  split_and!.
  - intros a b Ha Hb Hrange.
    destruct (Get h1 st2) as [[]|]; try done. injection Ha as ->.
    destruct (Get h2 st2) as [[]|]; try done. injection Hb as ->.
    by rewrite wrap_int_in_range.
  - intros a b Ha Hb.
    destruct (Get h1 st2) as [[]|]; try done. injection Ha as ->.
    destruct (Get h2 st2) as [[]|]; try done. by injection Hb as ->.
  - intros [a Ha] Hb.
    destruct (Get h1 st2) as [[]|]; try done.
    by destruct (Get h2 st2) as [[]|].
  - intros [a Ha] Hb.
    destruct (Get h1 st2) as [[]|]; try done.
    by destruct (Get h2 st2) as [[]|].
  - intros Hn Hs Hadd.
    destruct (Get h1 st2) as [[]|]; try done.
    destruct h1 as [obj|]; [|done]. by rewrite (Hadd obj).
Qed.

Lemma Add_of_numbers_and_strings_witness :
  Execute 2 (ast.Add (ast.Var "a") (ast.Var "b")) (<["a" := Some 0]> (<["b" := Some 1]> ∅))
    (mkState [String "ab"; String "c"] "")
  = (Ret (Some 2), <["a" := Some 0]> (<["b" := Some 1]> ∅),
     mkState [String "ab"; String "c"; String "abc"] "").
Proof.
  exact (proj1 (proj2 (Add_of_numbers_and_strings 1 (ast.Var "a") (ast.Var "b")
                         (<["a" := Some 0]> (<["b" := Some 1]> ∅))
                         (mkState [String "ab"; String "c"] "")
                         (Some 0) _ _ (Some 1) _ _ eq_refl eq_refl))
                "ab" "c" eq_refl eq_refl).
Defined.

(** X21.  [Sub] and [Mult] are for numbers alone: with both operands evaluated to
    numbers whose difference, or product, is an [int], the result is a new
    number; a left operand that is no number (a string, an instance, ...) is
    the error [Sub(?, ?)] or [Mult(?, ?)], and a right operand that is no
    number the error [Sub(Number, ?)] or [Mult(Number, ?)].  No method is
    called. *)
Theorem Sub_Mult_of_numbers (fuel : nat) (lhs rhs : ast.Statement)
  closure st h1 closure1 st1 h2 closure2 st2 :
  Execute fuel lhs closure st = (Ret h1, closure1, st1) →
  Execute fuel rhs closure1 st1 = (Ret h2, closure2, st2) →
  (∀ a b, TryAs_Number h1 st2 = Some a → TryAs_Number h2 st2 = Some b →
     ((INT_MIN ≤ a - b ≤ INT_MAX)%Z →
      Execute (S fuel) (ast.Sub lhs rhs) closure st
      = (Ret (Some (length (heap st2))), closure2,
         mkState (heap st2 ++ [Number (a - b)]) (output st2))) ∧
     ((INT_MIN ≤ a * b ≤ INT_MAX)%Z →
      Execute (S fuel) (ast.Mult lhs rhs) closure st
      = (Ret (Some (length (heap st2))), closure2,
         mkState (heap st2 ++ [Number (a * b)]) (output st2)))) ∧
  (is_Some (TryAs_Number h1 st2) → TryAs_Number h2 st2 = None →
   Execute (S fuel) (ast.Sub lhs rhs) closure st = (Throw "Sub(Number, ?)", closure2, st2) ∧
   Execute (S fuel) (ast.Mult lhs rhs) closure st = (Throw "Mult(Number, ?)", closure2, st2)) ∧
  (TryAs_Number h1 st2 = None →
   Execute (S fuel) (ast.Sub lhs rhs) closure st = (Throw "Sub(?, ?)", closure2, st2) ∧
   Execute (S fuel) (ast.Mult lhs rhs) closure st = (Throw "Mult(?, ?)", closure2, st2)).
Proof.
  intros Hlhs Hrhs. simpl. unfold bind. rewrite Hlhs, Hrhs.
  unfold Sub_holders, Mult_holders, bind, get_state, throw, own. simpl.
  split_and!.
  - intros a b Ha Hb. rewrite Ha, Hb. split; intros Hrange; by rewrite wrap_int_in_range.
  - intros [a ->] ->. done.
  - intros ->. done.
Qed.

Lemma Sub_Mult_of_numbers_witness :
  Execute 2 (ast.Sub (ast.Var "a") (ast.Var "b")) (<["a" := Some 0]> (<["b" := Some 1]> ∅))
    (mkState [Number 3; Number 5] "")
  = (Ret (Some 2), <["a" := Some 0]> (<["b" := Some 1]> ∅),
     mkState [Number 3; Number 5; Number (-2)] "").
Proof.
  refine (proj1 (proj1 (Sub_Mult_of_numbers 1 (ast.Var "a") (ast.Var "b")
                          (<["a" := Some 0]> (<["b" := Some 1]> ∅))
                          (mkState [Number 3; Number 5] "")
                          (Some 0) _ _ (Some 1) _ _ eq_refl eq_refl)
                   3%Z 5%Z eq_refl eq_refl) _).
  unfold INT_MIN, INT_MAX. lia.
Defined.

(** ** [MethodCall] *)

Lemma Execute_args_VarValues (fuel : nat) (vs : list ast.VariableValue)
    (closure : Closure) (st : State) :
  ∃ r, Execute_args (Execute (S fuel)) (map ast.VarValue vs) closure st = (r, closure, st).
Proof.
  induction vs as [|v vs [r IH]]; [by eexists|].
  rewrite map_cons. cbn [Execute_args]. unfold bind at 1.
  change (Execute (S fuel) (ast.VarValue v) closure st)
    with (VariableValue_Execute v closure st).
  rewrite VariableValue_Execute_pure.
  destruct (fst (fst (VariableValue_Execute v closure st))); try (by eexists).
  unfold bind at 1. rewrite IH. destruct r; by eexists.
Qed.

(** X22.  [MethodCall::Execute] looks at the receiver and at the method
    before it evaluates any argument.  A receiver, whatever expression it
    is, that evaluates to no instance is an error thrown in the state the
    receiver left.  For a receiver that is a variable or a dotted name,
    whose object stays with its owner, and evaluates to an instance: when
    the class has no method of the name with as many parameters as there
    are arguments, that is an error, thrown with no argument evaluated;
    otherwise, for arguments that are variables or dotted names as well,
    the method is called with their holders, and the environment and the
    state the call starts in are those before the statement: what the body
    binds stays in the environment of the call. *)
Theorem MethodCall_checks_then_calls (fuel : nat) (method_ : string)
    (args_ : list ast.Statement) (closure : Closure) (st : State) :
  (∀ object_ object closure1 st1,
     Execute fuel object_ closure st = (Ret object, closure1, st1) →
     TryAs_ClassInstance object st1 = None →
     Execute (S fuel) (ast.MethodCall object_ method_ args_) closure st
     = (Throw "MethodCall(? object,,)", closure1, st1)) ∧
  (∀ v obj,
     Execute fuel (ast.VarValue v) closure st = (Ret (Some obj), closure, st) →
     TryAs_ClassInstance (Some obj) st = Some obj →
     (HasMethod st obj method_ (length args_) = false →
      Execute (S fuel) (ast.MethodCall (ast.VarValue v) method_ args_) closure st
      = (Throw "MethodCall(,? method,)", closure, st)) ∧
     (HasMethod st obj method_ (length args_) = true →
      ∀ vs args,
        args_ = map ast.VarValue vs →
        fst (fst (Execute_args (Execute fuel) args_ closure st)) = Ret args →
        Execute (S fuel) (ast.MethodCall (ast.VarValue v) method_ args_) closure st
        = (fst (Call (Execute fuel) obj method_ args st), closure,
           snd (Call (Execute fuel) obj method_ args st)))).
Proof.
  split.
  - intros object_ object closure1 st1 Hobj Hnone.
    cbn [Execute Execute_body]. unfold bind, get_state. by rewrite Hobj, Hnone.
  - intros v obj Hobj Hinst.
    cbn [Execute Execute_body]. unfold bind, get_state. rewrite Hobj, Hinst.
    split; intros ->; [done|].
    intros vs args -> Hargs. cbn [negb].
    destruct fuel as [|fuel]; [done|].
    destruct (Execute_args_VarValues fuel vs closure st) as [r Hr].
    rewrite Hr in Hargs |- *. simpl in Hargs. subst r.
    unfold on_state. by destruct (Call _ obj method_ args st).
Qed.

Lemma MethodCall_checks_then_calls_witness :
  Execute 1 (ast.VarValue (ast.mkVariableValue "x" [])) v_and_x seven_and_instance
  = (Ret (Some 1), v_and_x, seven_and_instance) ∧
  Execute 2 (ast.MethodCall (ast.Var "x") "f" [ast.Var "missing"]) v_and_x seven_and_instance
  = (Throw "MethodCall(,? method,)", v_and_x, seven_and_instance) ∧
  Execute 2 (ast.MethodCall (ast.Var "v") "f" [ast.Var "missing"]) v_and_x seven_and_instance
  = (Throw "MethodCall(? object,,)", v_and_x, seven_and_instance).
Proof.
  split; [reflexivity|]. split.
  - exact (proj1 (proj2 (MethodCall_checks_then_calls 1 "f" [ast.Var "missing"]
                           v_and_x seven_and_instance)
                    (ast.mkVariableValue "x" []) 1 eq_refl eq_refl) eq_refl).
  - exact (proj1 (MethodCall_checks_then_calls 1 "f" [ast.Var "missing"]
                    v_and_x seven_and_instance)
             (ast.Var "v") (Some 0) _ _ eq_refl eq_refl).
Defined.

(** ** [NewInstance] *)



(** ** [Return] *)

Lemma Compound_loop_app (E : ast.Statement → Exec ObjectHolder)
    (pre post : list ast.Statement) (closure : Closure) (st : State) :
  Compound_loop E (pre ++ post) closure st
  = match Compound_loop E pre closure st with
    | (Ret _, closure', st') => Compound_loop E post closure' st'
    | (r, closure', st') => (pass r, closure', st')
    end.
Proof.
  revert closure st. induction pre as [|s pre IH]; intros closure st; simpl; [done|].
  unfold bind. destruct (E s closure st) as [[[h| | |] closure'] st']; simpl; [apply IH|done..].
Qed.

Lemma Return_does_not_return (fuel : nat) (statement_ : ast.Statement)
    (closure : Closure) (st : State) (h : ObjectHolder) :
  fst (fst (Execute fuel (ast.Return statement_) closure st)) ≠ Ret h.
Proof.
  destruct fuel as [|fuel]; [done|]. simpl. unfold bind.
  by destruct (Execute fuel statement_ closure st) as [[[]] ?].
Qed.

(** X24.  What follows a [return] in a block is never run: with or without the
    statements behind it, the block does the same, in every environment and
    state and whatever way it ends. *)
Theorem statements_after_return_are_not_run (fuel : nat) (pre post : list ast.Statement)
    (statement_ : ast.Statement) (closure : Closure) (st : State) :
  Execute fuel (ast.Compound (pre ++ ast.Return statement_ :: post)) closure st
  = Execute fuel (ast.Compound (pre ++ [ast.Return statement_])) closure st.
Proof.
  destruct fuel as [|fuel]; [done|]. simpl. unfold bind.
  rewrite !Compound_loop_app.
  destruct (Compound_loop (Execute fuel) pre closure st) as [[[[]| | |] closure1] st1];
    try done.
  simpl. unfold bind.
  pose proof (Return_does_not_return fuel statement_ closure1 st1) as Hret.
  destruct (Execute fuel (ast.Return statement_) closure1 st1) as [[[h| | |] closure2] st2];
    try done.
  by destruct (Hret h).
Qed.

(** X25.  A method whose body is a block returns what its first [return] to be
    reached evaluates to: when the statements in front of it return and its
    expression evaluates to the holder [h], the method returns [h], nothing
    behind the [return] is run, and [h] is left in the environment of the
    call under the name [return]. *)
Theorem return_ends_the_method (fuel : nat) (pre post : list ast.Statement)
    (statement_ : ast.Statement) closure st closure1 st1 h closure2 st2 :
  Compound_loop (Execute (S fuel)) pre closure st = (Ret tt, closure1, st1) →
  Execute fuel statement_ closure1 st1 = (Ret h, closure2, st2) →
  Execute (S (S (S fuel)))
    (ast.MethodBody (ast.Compound (pre ++ ast.Return statement_ :: post))) closure st
  = (Ret h, <["return" := h]> closure2, st2).
Proof.
  intros Hpre Hexpr.
  apply (Return_stashes fuel) in Hexpr.
  assert (Execute (S (S fuel)) (ast.Compound (pre ++ ast.Return statement_ :: post)) closure st
          = (Throw "return", <["return" := h]> closure2, st2)) as Hbody.
  { change (Execute (S (S fuel)) (ast.Compound (pre ++ ast.Return statement_ :: post)) closure st)
      with (bind (Compound_loop (Execute (S fuel)) (pre ++ ast.Return statement_ :: post))
              (λ _, ret (None : ObjectHolder)) closure st).
    unfold bind at 1. rewrite Compound_loop_app, Hpre.
    cbn [Compound_loop]. unfold bind at 1. by rewrite Hexpr. }
  rewrite (MethodBody_catches_return _ _ _ _ _ _ Hbody).
  by rewrite lookup_insert_eq.
Qed.

Lemma return_ends_the_method_witness :
  Execute 4
    (ast.MethodBody
       (ast.Compound ([ast.Assignment "y" (ast.Var "x")]
                      ++ ast.Return (ast.Var "y") :: [ast.Var "missing"])))
    {[ "x" := Some 0 ]} (mkState [Number 1] "")
  = (Ret (Some 0), <["return" := Some 0]> (<["y" := Some 0]> {[ "x" := Some 0 ]}),
     mkState [Number 1] "").
Proof.
  exact (return_ends_the_method 1 [ast.Assignment "y" (ast.Var "x")] [ast.Var "missing"]
           (ast.Var "y") {[ "x" := Some 0 ]} (mkState [Number 1] "")
           (<["y" := Some 0]> {[ "x" := Some 0 ]}) (mkState [Number 1] "")
           (Some 0) (<["y" := Some 0]> {[ "x" := Some 0 ]}) (mkState [Number 1] "")
           eq_refl eq_refl).
Defined.

(** ** Reading back what was assigned *)

(** X26.  A name that was assigned is read back: after [Assignment::Execute]
    returned the holder [h], the variable of that name, and the dotted name
    with that one component, evaluate to [h] and change nothing. *)
Theorem assigned_name_is_read_back (fuel fuel' : nat) (name : string)
    (value : ast.Statement) closure st h closure' st' :
  name ≠ "" →
  Execute fuel (ast.Assignment name value) closure st = (Ret h, closure', st') →
  Execute (S fuel') (ast.Var name) closure' st' = (Ret h, closure', st') ∧
  Execute (S fuel') (ast.Dotted [name]) closure' st' = (Ret h, closure', st').
Proof.
  intros Hname. destruct fuel as [|fuel]; [done|]. simpl. unfold bind.
  destruct (Execute fuel value closure st) as [[[h0| | |] closure1] st1]; try done.
  unfold assign, ret. intros [= <- <- <-].
  unfold VariableValue_Execute. simpl.
  apply String.eqb_neq in Hname. rewrite Hname. simpl.
  rewrite lookup_insert_eq. split; [done|].
  by destruct (TryAs_ClassInstance h0 st1).
Qed.

Lemma assigned_name_is_read_back_witness :
  Execute 1 (ast.Var "y") (<["y" := Some 0]> {[ "x" := Some 0 ]}) (mkState [Number 1] "")
  = (Ret (Some 0), <["y" := Some 0]> {[ "x" := Some 0 ]}, mkState [Number 1] "").
Proof.
  refine (proj1 (assigned_name_is_read_back 2 0 "y" (ast.Var "x") {[ "x" := Some 0 ]}
                   (mkState [Number 1] "") (Some 0) _ _ _ eq_refl)).
  discriminate.
Defined.



(** ** [Print] and [Stringify] *)

Lemma Print_printed (E : ast.Statement → Exec ObjectHolder) (fuel : nat) (obj : addr)
    (os : ostream) (st : State) (t : string) :
  printed (heap st) (Some obj) = Some t →
  Print E (S fuel) obj os st = (Ret (fst (write os t st)), snd (write os t st)).
Proof.
  simpl. destruct (heap st !! obj) as [[| | | |]|]; try done; by intros [= <-].
Qed.

(** X28.  [str] of a value is what [print] writes for it: [Stringify::Execute]
    returns a new string with that text, and writes nothing. *)
Theorem Stringify_gives_the_printed_text (fuel : nat) (argument_ : ast.Statement)
    closure st h closure1 st1 t :
  Execute fuel argument_ closure st = (Ret h, closure1, st1) →
  printed (heap st1) h = Some t →
  Execute (S fuel) (ast.Stringify argument_) closure st
  = (Ret (Some (length (heap st1))), closure1,
     mkState (heap st1 ++ [String t]) (output st1)).
Proof.
  intros Harg Ht. cbn [Execute Execute_body]. unfold bind at 1. rewrite Harg.
  destruct h as [obj|].
  - unfold bind, on_state. rewrite (Print_printed _ _ _ _ _ _ Ht). done.
  - injection Ht as <-. done.
Qed.

Lemma Stringify_gives_the_printed_text_witness :
  Execute 2 (ast.Stringify (ast.Var "t")) {[ "t" := Some 0 ]} (mkState [Bool true] "")
  = (Ret (Some 1), {[ "t" := Some 0 ]}, mkState [Bool true; String "True"] "").
Proof.
  exact (Stringify_gives_the_printed_text 1 (ast.Var "t") {[ "t" := Some 0 ]}
           (mkState [Bool true] "") (Some 0) _ _ "True" eq_refl eq_refl).
Defined.

Lemma concat_more_texts (t : string) (texts : list string) :
  String.concat " " (t :: texts) = t +:+ more_texts texts.
Proof.
  revert t. induction texts as [|t2 texts IH]; intros t.
  - simpl. by rewrite string_append_empty.
  - change (String.concat " " (t :: t2 :: texts))
      with (t +:+ " " +:+ String.concat " " (t2 :: texts)).
    by rewrite IH.
Qed.

Lemma Var_Execute (fuel : nat) (x : string) (closure : Closure) (st : State)
    (h : ObjectHolder) :
  x ≠ "" → closure !! x = Some h →
  Execute (S fuel) (ast.Var x) closure st = (Ret h, closure, st).
Proof.
  intros Hx Hh. simpl. unfold VariableValue_Execute. simpl.
  apply String.eqb_neq in Hx. by rewrite Hx, Hh.
Qed.

Lemma Print_loop_Var (F fuel : nat) (first : bool) (x : string)
    (rest : list ast.Statement) (closure : Closure) (st : State) (h : ObjectHolder)
    (t : string) :
  x ≠ "" → closure !! x = Some h → printed (heap st) h = Some t →
  Print_loop F (Execute (S fuel)) first (ast.Var x :: rest) closure st
  = Print_loop F (Execute (S fuel)) false rest closure
      (mkState (heap st) (output st +:+ (if first then t else " " +:+ t))).
Proof.
  intros Hx Hh Ht. cbn [Print_loop]. unfold bind at 1.
  set (st1 := if first then st else mkState (heap st) (output st +:+ " ")).
  assert ((if first then ret () else put " ") closure st = (Ret (), closure, st1)) as ->
    by (by destruct first).
  assert (heap st1 = heap st) as Hheap by (by destruct first).
  unfold bind at 1. rewrite (Var_Execute fuel x closure st1 h Hx Hh).
  unfold bind at 1.
  assert (mkState (heap st) (output st +:+ (if first then t else " " +:+ t))
          = mkState (heap st1) (output st1 +:+ t)) as ->.
  { rewrite Hheap. f_equal. unfold st1. destruct first; [done|].
    simpl. by rewrite string_append_assoc. }
  destruct h as [obj|].
  - unfold bind at 1, on_state. rewrite <- Hheap in Ht.
    rewrite (Print_printed _ _ _ _ _ _ Ht). done.
  - injection Ht as <-. done.
Qed.

Lemma Print_loop_Vars (F fuel : nat) (names : list string) (texts : list string)
    (closure : Closure) (hp : list Object) (out : string) :
  Forall2 (λ x t, x ≠ "" ∧ ∃ h, closure !! x = Some h ∧ printed hp h = Some t) names texts →
  Print_loop F (Execute (S fuel)) false (map ast.Var names) closure (mkState hp out)
  = (Ret (), closure, mkState hp (out +:+ more_texts texts)).
Proof.
  intros Hall. revert out.
  induction Hall as [|x t names texts [Hx (h & Hh & Ht)] _ IH]; intros out.
  - simpl. unfold ret. by rewrite string_append_empty.
  - rewrite map_cons, (Print_loop_Var F fuel false x _ closure (mkState hp out) h t Hx Hh Ht).
    simpl heap. simpl output. rewrite IH. simpl.
    by rewrite !string_append_assoc.
Qed.

(** X29.  [print] writes one line: the texts of its arguments in their order,
    one space between two of them, and a line feed at the end; nothing for
    no argument but the line feed.  Here the arguments are variables that
    are empty or hold numbers, strings, truth values or classes: the
    environment and the objects are as they were. *)
Theorem Print_writes_one_line (fuel : nat) (names : list string) (texts : list string)
    (closure : Closure) (st : State) :
  Forall2 (λ x t, x ≠ "" ∧ ∃ h, closure !! x = Some h ∧ printed (heap st) h = Some t)
    names texts →
  Execute (S (S fuel)) (ast.Print (map ast.Var names)) closure st
  = (Ret None, closure,
     mkState (heap st)
       (output st +:+ String.concat " " texts +:+ String.String LF EmptyString)).
Proof.
  intros Hall.
  change (Execute (S (S fuel)) (ast.Print (map ast.Var names)) closure st)
    with (bind (Print_loop (S fuel) (Execute (S fuel)) true (map ast.Var names))
            (λ _, bind (put (String.String LF EmptyString))
                    (λ _, ret (None : ObjectHolder))) closure st).
  unfold bind at 1.
  destruct Hall as [|x t names texts [Hx (h & Hh & Ht)] Hall].
  - simpl. unfold bind, put, ret. simpl. done.
  - rewrite map_cons, (Print_loop_Var (S fuel) fuel true x _ closure _ h t Hx Hh Ht).
    rewrite (Print_loop_Vars (S fuel) fuel names texts closure _ _ Hall).
    rewrite concat_more_texts. unfold bind, put, ret. simpl.
    by rewrite !string_append_assoc.
Qed.

Lemma Print_writes_one_line_witness :
  Execute 2 (ast.Print (map ast.Var ["n"; "s"; "e"]))
    (<["n" := Some 0]> (<["s" := Some 1]> {[ "e" := None ]}))
    (mkState [Number (-7); String "a b"] "")
  = (Ret None, <["n" := Some 0]> (<["s" := Some 1]> {[ "e" := None ]}),
     mkState [Number (-7); String "a b"]
       ("-7 a b None" +:+ String.String LF EmptyString)).
Proof.
  refine (Print_writes_one_line 0 ["n"; "s"; "e"] ["-7"; "a b"; "None"]
            (<["n" := Some 0]> (<["s" := Some 1]> {[ "e" := None ]}))
            (mkState [Number (-7); String "a b"] "") _).
  repeat (apply List.Forall2_cons; [split; [discriminate|eexists; split; reflexivity]|]).
  apply List.Forall2_nil.
Defined.
